(** * Shelf packing of images onto pages

    A shallow embedding of [pack_images_shelf] and of the size
    normalisation and ordering steps of [main] from
    [task_1_starter_code.py], together with the properties of the layout
    engine that the specification states.

    Conventions of the embedding.
    - Python integers are [Z].
    - The pair (images_sizes, i) of the source is represented by the unread
      suffix images_sizes[i:], called [rest]: [i < n] is [rest <> []],
      [images_sizes[i]] is the head of [rest] (an [IndexError] when [rest]
      is empty) and [i += 1] drops the head.  The list is never mutated by
      the source.
    - In the packer and in the steps of [main], Python floats are
      idealised as exact rationals [Q]: true division is [Qdiv] and [round]
      is rounding to nearest with ties to even, [py_round].  The layout
      depends on the floats through two numbers only, the height that
      lines 90-92 give to an image wider than the page and the size that
      lines 152-154 give to an image larger than the page.  Both
      computations are also given in binary64, [fallback_size_b64] and
      [normalize_size_b64], and compared with the idealised ones: below
      2^50 they agree but for the direction of the rounding of an exact
      tie, and the binary64 ones raise [OverflowError] on integers beyond
      the largest float.
    - The two outer [while] loops take a [gas] argument bounding the number
      of times their body runs; the innermost loop consumes one element of
      [rest] per iteration and is structurally recursive. *)

From Stdlib Require Import ZArith QArith Qround Qminmax Qpower Lqa List Lia
  Bool Permutation Sorted.
From Stdlib Require String Ascii DecimalString DecimalNat.
Import String.StringSyntax Ascii.AsciiSyntax.
Import ListNotations.
Delimit Scope string_scope with string.
Delimit Scope char_scope with char.
Open Scope Z_scope.

(** ** Data model *)

(** An element of [images_sizes]: the tuple (w_px, h_px, original_index). *)
Record size := mkSize { sz_w : Z; sz_h : Z; sz_idx : Z }.

(** A placement: the tuple (index, x, y, w, h). *)
Record placement := mkPlacement
  { pl_idx : Z; pl_x : Z; pl_y : Z; pl_w : Z; pl_h : Z }.

Definition page := list placement.

(** Exceptions the packing code can raise.  [OverflowError] comes from the
    conversion of an integer beyond the range of the floats and from
    [round] on an infinite float (lines 90-92). *)
Inductive exn := IndexError | RuntimeError | ZeroDivisionError | OverflowError.

Inductive outcome (A : Type) : Type :=
| Done (a : A)
| Raise (e : exn)
| OutOfGas.
Arguments Done {A} a.
Arguments Raise {A} e.
Arguments OutOfGas {A}.

Definition bind {A B : Type} (c : outcome A) (k : A -> outcome B) : outcome B :=
  match c with
  | Done a => k a
  | Raise e => Raise e
  | OutOfGas => OutOfGas
  end.

Notation "x <- c ;; k" := (bind c (fun x => k))
  (at level 61, c at next level, right associativity).
Notation "' p <- c ;; k" := (bind c (fun x => let 'p := x in k))
  (at level 61, p pattern, c at next level, right associativity).

Definition outcome_map {A B : Type} (f : A -> B) (c : outcome A) : outcome B :=
  match c with
  | Done a => Done (f a)
  | Raise e => Raise e
  | OutOfGas => OutOfGas
  end.

(** ** Rounding *)

(** [round(x)] of Python 3 on an exact rational: nearest integer, ties to
    the even one. *)
Definition py_round (q : Q) : Z :=
  let f := Qfloor q in
  match (q - inject_Z f ?= 1 # 2)%Q with
  | Lt => f
  | Gt => f + 1
  | Eq => if Z.even f then f else f + 1
  end.

(** ** The packer *)

(** Lines 72-82: fill the current shelf from the left. *)
Fixpoint shelf_loop (page_w_px padding y : Z) (rest : list size)
    (shelf_x shelf_height : Z) (placements : list placement)
  : list size * Z * Z * list placement :=
  match rest with
  | [] => (rest, shelf_x, shelf_height, placements)
  | s :: rest' =>
      if sz_w s + shelf_x + padding <=? page_w_px then
        shelf_loop page_w_px padding y rest'
          (shelf_x + (sz_w s + padding))
          (if sz_h s >? shelf_height then sz_h s else shelf_height)
          (placements ++ [mkPlacement (sz_idx s) shelf_x y (sz_w s) (sz_h s)])
      else (rest, shelf_x, shelf_height, placements)
  end.

(** Lines 86-92: the size forced on an image by the fallback branch. *)
Definition fallback_size (page_w_px padding : Z) (rest : list size)
  : outcome (size * Z * Z) :=
  match rest with
  | [] => Raise IndexError
  | s :: _ =>
      let max_w := page_w_px - 2 * padding in
      if max_w <=? 0 then Raise RuntimeError
      else if sz_w s =? 0 then Raise ZeroDivisionError
      else
        let scale := (inject_Z max_w / inject_Z (sz_w s))%Q in
        Done (s, py_round (inject_Z (sz_w s) * scale),
                 py_round (inject_Z (sz_h s) * scale))
  end.

(** Lines 69-96: one iteration of the loop over shelves; the result is the
    unread images, the height of the shelf and the placements of the
    page. *)
Definition shelf_step (page_w_px padding y : Z) (rest : list size)
    (placements : list placement)
  : outcome (list size * Z * list placement) :=
  let '(rest1, _, shelf_height, placements1) :=
    shelf_loop page_w_px padding y rest padding 0 placements in
  if shelf_height =? 0 then
    '(s, new_w, new_h) <- fallback_size page_w_px padding rest1 ;;
    Done (tl rest1, new_h,
          placements1 ++ [mkPlacement (sz_idx s) padding y new_w new_h])
  else Done (rest1, shelf_height, placements1).

(** Lines 68-99: the shelves of one page. *)
Fixpoint page_loop (gas : nat) (page_w_px page_h_px padding : Z)
    (rest : list size) (y : Z) (placements : list placement)
  : outcome (list size * list placement) :=
  if (y <? page_h_px - padding) && negb (length rest =? 0)%nat then
    match gas with
    | O => OutOfGas
    | S gas' =>
        '(rest', shelf_height, placements') <-
          shelf_step page_w_px padding y rest placements ;;
        let y' := y + (shelf_height + padding) in
        if (y' >=? page_h_px - padding) && negb (length rest' =? 0)%nat
        then Done (rest', placements')
        else page_loop gas' page_w_px page_h_px padding rest' y' placements'
    end
  else Done (rest, placements).

(** Lines 65-100: the loop over pages; [budget] is the gas given to each
    run of [page_loop]. *)
Fixpoint pages_loop (gas budget : nat) (page_w_px page_h_px padding : Z)
    (rest : list size) (pages : list page) : outcome (list page) :=
  if negb (length rest =? 0)%nat then
    match gas with
    | O => OutOfGas
    | S gas' =>
        '(rest', placements) <-
          page_loop budget page_w_px page_h_px padding rest padding [] ;;
        pages_loop gas' budget page_w_px page_h_px padding rest'
          (pages ++ [placements])
    end
  else Done pages.

Definition pack_images_shelf (gas : nat) (images_sizes : list size)
    (page_w_px page_h_px padding : Z) : outcome (list page) :=
  pages_loop gas gas page_w_px page_h_px padding images_sizes [].

(** ** Lines 90-92 in binary64

    The floats of Python are the binary64 numbers of IEEE 754: every
    operation gives the representable number nearest to the exact result,
    the one with the even significand when two are equally near.  A finite
    float is represented by the rational it is equal to. *)

(** The floor of the base-2 logarithm of a positive rational. *)
Definition Qlog2 (q : Q) : Z :=
  let e := Z.log2 (Qnum q) - Z.log2 (Z.pos (Qden q)) in
  if Qle_bool (2 ^ e) q then e else e - 1.

(** The float nearest to a positive rational [q]: a significand of 53 bits
    at the exponent of [q], or a shorter one at the least exponent -1074
    for a subnormal number; [None] when the result is beyond the largest
    float. *)
Definition b64_pos (q : Q) : option Q :=
  let k := Z.max (Qlog2 q - 52) (-1074) in
  let v := (inject_Z (py_round (q / 2 ^ k)) * 2 ^ k)%Q in
  if Qle_bool (2 ^ 1024) v then None else Some v.

Definition b64 (q : Q) : option Q :=
  match (q ?= 0)%Q with
  | Eq => Some 0%Q
  | Gt => b64_pos q
  | Lt => option_map Qopp (b64_pos (- q))
  end.

(** The float of an exact result, or the [OverflowError] that the
    operations of lines 90-92 end in when it is infinite: the conversion
    of an integer and the division of two integers raise it themselves,
    the product of two floats is infinite and [round] raises it. *)
Definition to_float (q : Q) : outcome Q :=
  match b64 q with
  | Some x => Done x
  | None => Raise OverflowError
  end.

(** The conversion of the integer operand of [z * x]. *)
Definition float_of_int (z : Z) : outcome Q := to_float (inject_Z z).

(** [a / b] on two integers: the float nearest to the quotient. *)
Definition int_true_div (a b : Z) : outcome Q :=
  if b =? 0 then Raise ZeroDivisionError
  else to_float (inject_Z a / inject_Z b).

(** [int(round(z * x))] for an integer [z] and a float [x]. *)
Definition round_product (z : Z) (x : Q) : outcome Z :=
  zf <- float_of_int z ;;
  v <- to_float (zf * x) ;;
  Done (py_round v).

(** Lines 86-92 in binary64. *)
Definition fallback_size_b64 (page_w_px padding : Z) (rest : list size)
  : outcome (size * Z * Z) :=
  match rest with
  | [] => Raise IndexError
  | s :: _ =>
      let max_w := page_w_px - 2 * padding in
      if max_w <=? 0 then Raise RuntimeError
      else
        scale <- int_true_div max_w (sz_w s) ;;
        new_w <- round_product (sz_w s) scale ;;
        new_h <- round_product (sz_h s) scale ;;
        Done (s, new_w, new_h)
  end.

(** Half the distance between 1 and the next float, 2^-53: the relative
    error of one operation. *)
Definition u53 : Q := 1 # 9007199254740992.

(** ** The packer with its two append sites labelled

    The same loops, each appended tuple carrying a ghost label that records
    which [placements.append] produced it: line 75 ([InShelf]) or line 93
    ([Fallback]).  [erase_pages] forgets the labels. *)

Inductive origin := InShelf | Fallback.

Fixpoint shelf_loop_traced (page_w_px padding y : Z) (rest : list size)
    (shelf_x shelf_height : Z) (placements : list (origin * placement))
  : list size * Z * Z * list (origin * placement) :=
  match rest with
  | [] => (rest, shelf_x, shelf_height, placements)
  | s :: rest' =>
      if sz_w s + shelf_x + padding <=? page_w_px then
        shelf_loop_traced page_w_px padding y rest'
          (shelf_x + (sz_w s + padding))
          (if sz_h s >? shelf_height then sz_h s else shelf_height)
          (placements ++
             [(InShelf, mkPlacement (sz_idx s) shelf_x y (sz_w s) (sz_h s))])
      else (rest, shelf_x, shelf_height, placements)
  end.

Definition shelf_step_traced (page_w_px padding y : Z) (rest : list size)
    (placements : list (origin * placement))
  : outcome (list size * Z * list (origin * placement)) :=
  let '(rest1, _, shelf_height, placements1) :=
    shelf_loop_traced page_w_px padding y rest padding 0 placements in
  if shelf_height =? 0 then
    '(s, new_w, new_h) <- fallback_size page_w_px padding rest1 ;;
    Done (tl rest1, new_h,
          placements1 ++
            [(Fallback, mkPlacement (sz_idx s) padding y new_w new_h)])
  else Done (rest1, shelf_height, placements1).

Fixpoint page_loop_traced (gas : nat) (page_w_px page_h_px padding : Z)
    (rest : list size) (y : Z) (placements : list (origin * placement))
  : outcome (list size * list (origin * placement)) :=
  if (y <? page_h_px - padding) && negb (length rest =? 0)%nat then
    match gas with
    | O => OutOfGas
    | S gas' =>
        '(rest', shelf_height, placements') <-
          shelf_step_traced page_w_px padding y rest placements ;;
        let y' := y + (shelf_height + padding) in
        if (y' >=? page_h_px - padding) && negb (length rest' =? 0)%nat
        then Done (rest', placements')
        else page_loop_traced gas' page_w_px page_h_px padding rest' y'
               placements'
    end
  else Done (rest, placements).

Fixpoint pages_loop_traced (gas budget : nat) (page_w_px page_h_px padding : Z)
    (rest : list size) (pages : list (list (origin * placement)))
  : outcome (list (list (origin * placement))) :=
  if negb (length rest =? 0)%nat then
    match gas with
    | O => OutOfGas
    | S gas' =>
        '(rest', placements) <-
          page_loop_traced budget page_w_px page_h_px padding rest padding [] ;;
        pages_loop_traced gas' budget page_w_px page_h_px padding rest'
          (pages ++ [placements])
    end
  else Done pages.

Definition pack_images_shelf_traced (gas : nat) (images_sizes : list size)
    (page_w_px page_h_px padding : Z)
  : outcome (list (list (origin * placement))) :=
  pages_loop_traced gas gas page_w_px page_h_px padding images_sizes [].

Definition erase_page (pg : list (origin * placement)) : page := map snd pg.

Definition erase_pages (pgs : list (list (origin * placement))) : list page :=
  map erase_page pgs.

(** ** Size normalisation and ordering in [main] *)

(** Lines 152-154 for one image of size [w] x [h], with [max_w] and [max_h]
    the bounds of lines 150-151. *)
Definition normalize_scale (max_w max_h w h : Z) : Q :=
  Qmin 1 (Qmin (if w >? 0 then inject_Z max_w / inject_Z w else 1)
               (if h >? 0 then inject_Z max_h / inject_Z h else 1)).

Definition normalize_size (max_w max_h w h : Z) : Z * Z :=
  let scale := normalize_scale max_w max_h w h in
  (py_round (inject_Z w * scale), py_round (inject_Z h * scale)).

(** Lines 152-154 in binary64: the two quotients are the floats nearest
    to them, [min] takes the least of the three floats, and each product
    is rounded to a float before [round]. *)
Definition normalize_size_b64 (max_w max_h w h : Z) : outcome (Z * Z) :=
  a <- (if w >? 0 then int_true_div max_w w else Done 1%Q) ;;
  b <- (if h >? 0 then int_true_div max_h h else Done 1%Q) ;;
  let scale := Qmin 1 (Qmin a b) in
  w2 <- round_product w scale ;;
  h2 <- round_product h scale ;;
  Done (w2, h2).

(** Lines 146-155: the list [sizes], from the list of the images'
    dimensions; [i] is the index of the first one. *)
Fixpoint sizes_from (page_w_px page_h_px : Z) (i : Z) (dims : list (Z * Z))
  : list size :=
  match dims with
  | [] => []
  | (w, h) :: dims' =>
      let '(w2, h2) := normalize_size (page_w_px - 16) (page_h_px - 16) w h in
      mkSize w2 h2 i :: sizes_from page_w_px page_h_px (i + 1) dims'
  end.

(** Line 158: [sizes.sort(key=lambda x: x[1], reverse=True)].  Python's
    sort is stable, also with [reverse=True], so its result is the one of
    any stable sort by descending height; here, insertion of each element
    in turn behind all elements that are at least as tall. *)
Fixpoint insert_desc (s : size) (sorted : list size) : list size :=
  match sorted with
  | [] => [s]
  | t :: sorted' =>
      if sz_h t <? sz_h s then s :: sorted
      else t :: insert_desc s sorted'
  end.

Definition sort_desc (sizes : list size) : list size :=
  fold_left (fun acc s => insert_desc s acc) sizes [].

(** Lines 146-161: normalisation, ordering, then packing with padding
    12. *)
Definition main_pages (gas : nat) (dims : list (Z * Z))
    (page_w_px page_h_px : Z) : outcome (list page) :=
  pack_images_shelf gas (sort_desc (sizes_from page_w_px page_h_px 0 dims))
    page_w_px page_h_px 12.

(** ** Listing the image files

    File names are byte strings; [lower] changes the ASCII letters, which
    is what decides the test of line 25, the extensions being ASCII. *)

(** [str.lower()], on the ASCII letters. *)
Definition py_lower_char (c : Ascii.ascii) : Ascii.ascii :=
  let n := Ascii.nat_of_ascii c in
  if ((65 <=? n) && (n <=? 90))%nat then Ascii.ascii_of_nat (n + 32) else c.

Fixpoint py_lower (s : String.string) : String.string :=
  match s with
  | String.EmptyString => String.EmptyString
  | String.String c s' => String.String (py_lower_char c) (py_lower s')
  end.

(** [s.endswith(suffix)]. *)
Fixpoint endswith (s suffix : String.string) : bool :=
  String.eqb s suffix ||
  match s with
  | String.EmptyString => false
  | String.String _ s' => endswith s' suffix
  end.

(** Line 24: the tuple [exts]. *)
Definition exts : list String.string :=
  [".png"; ".jpg"; ".jpeg"; ".webp"; ".tiff"; ".bmp"]%string.

(** Line 25: [f.lower().endswith(exts)]. *)
Definition has_image_ext (f : String.string) : bool :=
  existsb (endswith (py_lower f)) exts.

(** [os.path.join(a, p)] of posixpath, for two components. *)
Definition path_join (a p : String.string) : String.string :=
  match p with
  | String.String "/"%char _ => p
  | _ =>
      if String.eqb a ""%string || endswith a "/"%string
      then String.append a p
      else String.append a (String.String "/"%char p)
  end.

(** [sorted(names)]: strings compare by code point, lexicographically. *)
Fixpoint insert_name (f : String.string) (sorted : list String.string)
  : list String.string :=
  match sorted with
  | [] => [f]
  | g :: sorted' =>
      if String.leb f g then f :: sorted else g :: insert_name f sorted'
  end.

Definition py_sorted (names : list String.string) : list String.string :=
  fold_right insert_name [] names.

(** Lines 23-25, [listing] being what [os.listdir(folder)] returns. *)
Definition list_images (folder : String.string) (listing : list String.string)
  : list String.string :=
  map (path_join folder) (filter has_image_ext (py_sorted listing)).

Definition names_sorted (l : list String.string) : Prop :=
  StronglySorted (fun f g => String.leb f g = true) l.

(** ** The page size and the packing step of [main] *)

(** [str.upper()], on the ASCII letters. *)
Definition py_upper_char (c : Ascii.ascii) : Ascii.ascii :=
  let n := Ascii.nat_of_ascii c in
  if ((97 <=? n) && (n <=? 122))%nat then Ascii.ascii_of_nat (n - 32) else c.

Fixpoint py_upper (s : String.string) : String.string :=
  match s with
  | String.EmptyString => String.EmptyString
  | String.String c s' => String.String (py_upper_char c) (py_upper s')
  end.

(** Lines 18-21: the dict [PAGE_SIZES_INCH], the float literals read as
    decimal fractions. *)
Definition PAGE_SIZES_INCH (name : String.string) : option (Q * Q) :=
  if String.eqb name "A4"%string then Some (827 # 100, 1169 # 100)%Q
  else if String.eqb name "LETTER"%string then Some (85 # 10, 110 # 10)%Q
  else None.

(** Line 132: [PAGE_SIZES_INCH.get(args.page.upper(),
    PAGE_SIZES_INCH["A4"])]. *)
Definition page_inches (page : String.string) : Q * Q :=
  match PAGE_SIZES_INCH (py_upper page) with
  | Some inches => inches
  | None => (827 # 100, 1169 # 100)%Q
  end.

(** Lines 133-135. *)
Definition page_px (page : String.string) (dpi : Z) : Z * Z :=
  (py_round (fst (page_inches page) * inject_Z dpi),
   py_round (snd (page_inches page) * inject_Z dpi)).

(** Lines 126-161 of [main], from the sizes of the opened images to the
    packed pages; [None] is the early return of line 129 when there is no
    image. *)
Definition main_packing (gas : nat) (page_name : String.string) (dpi : Z)
    (dims : list (Z * Z)) : option (outcome (list page)) :=
  match dims with
  | [] => None
  | _ :: _ =>
      Some (main_pages gas dims (fst (page_px page_name dpi))
              (snd (page_px page_name dpi)))
  end.

(** The images that [main] opens have positive width and height. *)
Definition positive_dims (dims : list (Z * Z)) : Prop :=
  Forall (fun d => 0 < fst d /\ 0 < snd d) dims.

(** ** The files of the pages *)

(** [str(i)] for a natural number: its decimal digits. *)
Definition py_str (i : nat) : String.string :=
  DecimalString.NilEmpty.string_of_uint (Nat.to_uint i).

Fixpoint zeros (n : nat) (s : String.string) : String.string :=
  match n with
  | O => s
  | S n' => String.String "0"%char (zeros n' s)
  end.

(** The format [{i:03d}]: the digits, with zeros in front up to three
    characters. *)
Definition format_03d (i : nat) : String.string :=
  zeros (3 - String.length (py_str i)) (py_str i).

(** Lines 179-180: the path of the file of page [i]. *)
Definition page_file (out : String.string) (i : nat) : String.string :=
  path_join out
    (String.append "page_"%string
       (String.append (format_03d i) ".jpg"%string)).

Fixpoint leading_zeros (n : nat) (d : Decimal.uint) : Decimal.uint :=
  match n with
  | O => d
  | S n' => Decimal.D0 (leading_zeros n' d)
  end.

(** ** Notions used in the statements *)

Definition positive_size (s : size) : Prop := 0 < sz_w s /\ 0 < sz_h s.

Definition positive_sizes (l : list size) : Prop := Forall positive_size l.

Definition placement_ids (pgs : list page) : list Z := map pl_idx (concat pgs).

(** The open rectangles of two placements have a point in common. *)
Definition interiors_meet (a b : placement) : Prop :=
  Z.max (pl_x a) (pl_x b) < Z.min (pl_x a + pl_w a) (pl_x b + pl_w b) /\
  Z.max (pl_y a) (pl_y b) < Z.min (pl_y a + pl_h a) (pl_y b + pl_h b).

(** A point with rational coordinates lies in the open rectangle of a
    placement. *)
Definition inside (px py : Q) (a : placement) : Prop :=
  (inject_Z (pl_x a) < px /\ px < inject_Z (pl_x a + pl_w a) /\
   inject_Z (pl_y a) < py /\ py < inject_Z (pl_y a + pl_h a))%Q.

(** No two placements at different positions of the list overlap. *)
Definition pairwise_apart (pg : list placement) : Prop :=
  forall i j a b, i <> j ->
    nth_error pg i = Some a -> nth_error pg j = Some b -> ~ interiors_meet a b.

(** *** The shape of one shelf

    What the loop of lines 72-82 computes, component by component: the
    images it accepts, the tuples it appends and the height it records. *)

Fixpoint shelf_taken (page_w_px padding : Z) (rest : list size) (shelf_x : Z)
  : list size :=
  match rest with
  | [] => []
  | s :: rest' =>
      if sz_w s + shelf_x + padding <=? page_w_px
      then s :: shelf_taken page_w_px padding rest' (shelf_x + (sz_w s + padding))
      else []
  end.

Fixpoint row (padding y : Z) (taken : list size) (shelf_x : Z)
  : list placement :=
  match taken with
  | [] => []
  | s :: taken' =>
      mkPlacement (sz_idx s) shelf_x y (sz_w s) (sz_h s)
        :: row padding y taken' (shelf_x + (sz_w s + padding))
  end.

Fixpoint row_end (padding : Z) (taken : list size) (shelf_x : Z) : Z :=
  match taken with
  | [] => shelf_x
  | s :: taken' => row_end padding taken' (shelf_x + (sz_w s + padding))
  end.

Fixpoint tallest (taken : list size) (shelf_height : Z) : Z :=
  match taken with
  | [] => shelf_height
  | s :: taken' =>
      tallest taken' (if sz_h s >? shelf_height then sz_h s else shelf_height)
  end.

(** *** The sequence of shelves and the number of pages

    On images of positive height the run of lines 69-96 depends on the
    cursor [y] only for the coordinates it writes: [next_shelf] gives the
    images left unread and the height of the shelf, [shelf_heights] the
    heights of all the shelves that the unread images will make, and
    [page_count] the number of pages that lines 96-100 cut this sequence
    into. *)

Definition fallback_height (page_w_px padding : Z) (s : size) : Z :=
  py_round (inject_Z (sz_h s) *
            (inject_Z (page_w_px - 2 * padding) / inject_Z (sz_w s))).

Definition next_shelf (page_w_px padding : Z) (rest : list size)
  : list size * Z :=
  match shelf_taken page_w_px padding rest padding with
  | [] =>
      (tl rest,
       match rest with
       | [] => 0
       | s :: _ => fallback_height page_w_px padding s
       end)
  | (_ :: _) as taken => (skipn (length taken) rest, tallest taken 0)
  end.

Fixpoint shelf_heights_gas (gas : nat) (page_w_px padding : Z)
    (rest : list size) : list Z :=
  match gas with
  | O => []
  | S gas' =>
      match rest with
      | [] => []
      | _ :: _ =>
          snd (next_shelf page_w_px padding rest)
            :: shelf_heights_gas gas' page_w_px padding
                 (fst (next_shelf page_w_px padding rest))
      end
  end.

Definition shelf_heights (page_w_px padding : Z) (rest : list size) : list Z :=
  shelf_heights_gas (length rest) page_w_px padding rest.

(** The number of times line 99 leaves a page, from a shelf starting at
    [y] on. *)
Fixpoint page_breaks (page_h_px padding y : Z) (heights : list Z) : nat :=
  match heights with
  | [] => 0
  | shelf_height :: heights' =>
      let y' := y + (shelf_height + padding) in
      if (y' >=? page_h_px - padding) && negb (length heights' =? 0)%nat
      then S (page_breaks page_h_px padding padding heights')
      else page_breaks page_h_px padding y' heights'
  end.

Definition page_count (page_h_px padding : Z) (heights : list Z) : nat :=
  match heights with
  | [] => 0
  | _ :: _ => S (page_breaks page_h_px padding padding heights)
  end.

(** [dominated lo hi]: [lo] is obtained from [hi] by removing some shelves
    and lowering others. *)
Inductive dominated : list Z -> list Z -> Prop :=
| dominated_nil : forall hi, dominated [] hi
| dominated_skip : forall lo e hi, dominated lo hi -> dominated lo (e :: hi)
| dominated_both : forall e_lo lo e_hi hi,
    e_lo <= e_hi -> dominated lo hi -> dominated (e_lo :: lo) (e_hi :: hi).

(** [subseq l1 l2]: [l1] is [l2] with some elements removed. *)
Inductive subseq {A : Type} : list A -> list A -> Prop :=
| subseq_nil : forall l, subseq [] l
| subseq_skip : forall l1 a l2, subseq l1 l2 -> subseq l1 (a :: l2)
| subseq_cons : forall a l1 l2, subseq l1 l2 -> subseq (a :: l1) (a :: l2).

(** Sorted by height, tallest first. *)
Definition sorted_desc (l : list size) : Prop :=
  StronglySorted (fun a b => sz_h b <= sz_h a) l.

(** All the images of [l] pass the test of line 74 one after the other,
    the cursor starting at [shelf_x]. *)
Fixpoint fits (page_w_px padding : Z) (l : list size) (shelf_x : Z) : Prop :=
  match l with
  | [] => True
  | s :: l' =>
      sz_w s + shelf_x + padding <= page_w_px /\
      fits page_w_px padding l' (shelf_x + (sz_w s + padding))
  end.

(** *** What a placement keeps of its image, and the gap between two

    [placed_size] is the triple (index, width, height) that lines 72-95
    write for an image: its own size when it fits between the paddings,
    the usable width and the height scaled with it otherwise. *)

Definition placement_size (p : placement) : Z * Z * Z :=
  (pl_idx p, pl_w p, pl_h p).

Definition placed_size (page_w_px padding : Z) (s : size) : Z * Z * Z :=
  if sz_w s + 2 * padding <=? page_w_px
  then (sz_idx s, sz_w s, sz_h s)
  else (sz_idx s, page_w_px - 2 * padding,
        fallback_height page_w_px padding s).

(** Sizes on which the test of line 83 tells an empty shelf: no dimension
    is negative and an image of height 0 does not fit between the
    paddings. *)
Definition packable (page_w_px padding : Z) (s : size) : Prop :=
  0 <= sz_w s /\ 0 <= sz_h s /\
  (sz_h s = 0 -> page_w_px < sz_w s + 2 * padding).

(** The rectangles of two placements are at least [padding] apart,
    horizontally or vertically. *)
Definition padded_apart (padding : Z) (a b : placement) : Prop :=
  pl_x a + pl_w a + padding <= pl_x b \/
  pl_x b + pl_w b + padding <= pl_x a \/
  pl_y a + pl_h a + padding <= pl_y b \/
  pl_y b + pl_h b + padding <= pl_y a.

Definition pairwise_padded (padding : Z) (pg : list placement) : Prop :=
  forall i j a b, i <> j ->
    nth_error pg i = Some a -> nth_error pg j = Some b ->
    padded_apart padding a b.

(** A page as the packer makes them: it starts with a placement in the
    top left corner of the padded area, every placement lies between the
    left and right paddings with its top edge between the top and bottom
    paddings, and any two are at least [padding] apart. *)
Definition well_laid (page_w_px page_h_px padding : Z) (pg : page) : Prop :=
  (exists p pg', pg = p :: pg' /\ pl_x p = padding /\ pl_y p = padding) /\
  Forall (fun p => padding <= pl_y p < page_h_px - padding /\
                   padding <= pl_x p /\ 0 <= pl_w p /\
                   pl_x p + pl_w p <= page_w_px - padding /\
                   0 <= pl_h p) pg /\
  pairwise_padded padding pg.

(** Some placement of the page ends within two paddings of the bottom, so
    that a further shelf would start at or below the bottom padding. *)
Definition full_page (page_h_px padding : Z) (pg : page) : Prop :=
  exists p, In p pg /\ page_h_px <= pl_y p + pl_h p + 2 * padding.


(** ** Scenario inputs *)

Definition scenario_a : list size :=
  [mkSize 100 100 0; mkSize 100 100 1; mkSize 100 100 2].

Definition scenario_c : list size :=
  [mkSize 250 50 0; mkSize 250 50 1; mkSize 250 50 2; mkSize 250 50 3;
   mkSize 250 50 4].

Ltac positive_list :=
  repeat (apply Forall_cons; [split; reflexivity|]); apply Forall_nil.

(** An inequality between integers, read in [Q]. *)
Ltac to_Q H :=
  first [rewrite Zle_Qle in H | rewrite Zlt_Qlt in H];
  unfold Z.sub in H;
  rewrite ?inject_Z_plus, ?inject_Z_mult, ?inject_Z_opp, ?inject_Z_plus,
    ?inject_Z_mult, ?inject_Z_opp, ?inject_Z_mult in H.

Ltac goal_to_Q :=
  first [rewrite Zle_Qle | rewrite Zlt_Qlt];
  unfold Z.sub;
  rewrite ?inject_Z_plus, ?inject_Z_mult, ?inject_Z_opp, ?inject_Z_plus,
    ?inject_Z_mult, ?inject_Z_opp, ?inject_Z_mult.

(** ** Rounding lemmas *)

Lemma py_round_comp (p q : Q) : (p == q)%Q -> py_round p = py_round q.
Proof.
  intros E. unfold py_round.
  rewrite (Qfloor_comp _ _ E).
  assert (E' : (p - inject_Z (Qfloor q) == q - inject_Z (Qfloor q))%Q)
    by (rewrite E; reflexivity).
  rewrite (Qcompare_comp _ _ E' (1 # 2)%Q (1 # 2)%Q (Qeq_refl _)).
  reflexivity.
Qed.

Lemma py_round_inject_Z (z : Z) : py_round (inject_Z z) = z.
Proof.
  unfold py_round. rewrite Qfloor_Z.
  assert (E : (inject_Z z - inject_Z z == 0)%Q) by ring.
  rewrite (Qcompare_comp _ _ E (1 # 2)%Q (1 # 2)%Q (Qeq_refl _)).
  reflexivity.
Qed.

Lemma py_round_nonneg (q : Q) : (0 <= q)%Q -> 0 <= py_round q.
Proof.
  intros Hq. unfold py_round.
  assert (Hf : 0 <= Qfloor q).
  { change 0 with (Qfloor 0). apply Qfloor_resp_le. exact Hq. }
  destruct (q - inject_Z (Qfloor q) ?= 1 # 2)%Q; try lia.
  destruct (Z.even (Qfloor q)); lia.
Qed.

(** Rounding moves a number by less than one. *)
Lemma py_round_floor (q : Q) :
  Qfloor q <= py_round q <= Qfloor q + 1.
Proof.
  unfold py_round.
  destruct (q - inject_Z (Qfloor q) ?= 1 # 2)%Q; try lia.
  destruct (Z.even (Qfloor q)); lia.
Qed.

Lemma scale_cancel (m w : Z) :
  w <> 0 -> (inject_Z w * (inject_Z m / inject_Z w) == inject_Z m)%Q.
Proof.
  intros Hw. field. intros E.
  apply Hw. unfold Qeq in E. simpl in E. lia.
Qed.

Lemma scaled_nonneg (m w h : Z) :
  0 < m -> 0 < w -> 0 <= h ->
  (0 <= inject_Z h * (inject_Z m / inject_Z w))%Q.
Proof.
  intros Hm Hw Hh.
  apply Qmult_le_0_compat.
  - change 0%Q with (inject_Z 0). rewrite <- Zle_Qle. exact Hh.
  - apply Qle_shift_div_l.
    + change 0%Q with (inject_Z 0). rewrite <- Zlt_Qlt. exact Hw.
    + rewrite Qmult_0_l. change 0%Q with (inject_Z 0).
      rewrite <- Zle_Qle. lia.
Qed.

(** ** The shelf loop *)

Lemma shelf_loop_eq (page_w_px padding y : Z) (rest : list size) :
  forall shelf_x shelf_height placements,
    let taken := shelf_taken page_w_px padding rest shelf_x in
    shelf_loop page_w_px padding y rest shelf_x shelf_height placements =
      (skipn (length taken) rest, row_end padding taken shelf_x,
       tallest taken shelf_height, placements ++ row padding y taken shelf_x).
Proof.
  induction rest as [|s rest IH]; intros shelf_x shelf_height placements; simpl.
  - now rewrite app_nil_r.
  - destruct (sz_w s + shelf_x + padding <=? page_w_px); simpl.
    + rewrite IH. now rewrite <- app_assoc.
    + now rewrite app_nil_r.
Qed.

Lemma shelf_taken_prefix (page_w_px padding : Z) (rest : list size) :
  forall shelf_x,
    let taken := shelf_taken page_w_px padding rest shelf_x in
    rest = taken ++ skipn (length taken) rest.
Proof.
  induction rest as [|s rest IH]; intros shelf_x; simpl; [reflexivity|].
  destruct (sz_w s + shelf_x + padding <=? page_w_px); simpl; [|reflexivity].
  f_equal. apply IH.
Qed.

Lemma tallest_ge (taken : list size) :
  forall sh, sh <= tallest taken sh.
Proof.
  induction taken as [|s taken IH]; intros sh; simpl; [lia|].
  destruct (sz_h s >? sh) eqn:E; [|apply IH].
  specialize (IH (sz_h s)). lia.
Qed.

Lemma tallest_bound (taken : list size) :
  forall sh, Forall (fun s => sz_h s <= tallest taken sh) taken.
Proof.
  induction taken as [|s taken IH]; intros sh; simpl; constructor.
  - pose proof (tallest_ge taken (if sz_h s >? sh then sz_h s else sh)).
    destruct (sz_h s >? sh) eqn:E; lia.
  - apply IH.
Qed.

Lemma tallest_pos (taken : list size) :
  positive_sizes taken -> taken <> [] -> 0 < tallest taken 0.
Proof.
  intros Hp Hne. destruct taken as [|s taken]; [congruence|].
  inversion Hp as [|? ? [_ Hh] _]; subst.
  pose proof (tallest_bound (s :: taken) 0) as Hb.
  inversion Hb; subst. lia.
Qed.

Lemma positive_sizes_app (l1 l2 : list size) :
  positive_sizes (l1 ++ l2) <-> positive_sizes l1 /\ positive_sizes l2.
Proof. apply Forall_app. Qed.

Lemma shelf_taken_positive (page_w_px padding : Z) (rest : list size) (x : Z) :
  positive_sizes rest -> positive_sizes (shelf_taken page_w_px padding rest x).
Proof.
  intros Hp. rewrite (shelf_taken_prefix page_w_px padding rest x) in Hp.
  now apply positive_sizes_app in Hp.
Qed.

(** With images of positive height, the test of line 83 tells whether the
    shelf is empty. *)
Lemma shelf_step_eq (page_w_px padding y : Z) (rest : list size)
    (placements : list placement) :
  positive_sizes rest ->
  shelf_step page_w_px padding y rest placements =
    match shelf_taken page_w_px padding rest padding with
    | [] =>
        '(s, new_w, new_h) <- fallback_size page_w_px padding rest ;;
        Done (tl rest, new_h,
              placements ++ [mkPlacement (sz_idx s) padding y new_w new_h])
    | (_ :: _) as taken =>
        Done (skipn (length taken) rest, tallest taken 0,
              placements ++ row padding y taken padding)
    end.
Proof.
  intros Hp. unfold shelf_step. rewrite shelf_loop_eq.
  pose proof (shelf_taken_positive page_w_px padding rest padding Hp) as Hpt.
  destruct (shelf_taken page_w_px padding rest padding) as [|s taken] eqn:E.
  - simpl. now rewrite app_nil_r.
  - pose proof (tallest_pos (s :: taken) Hpt ltac:(discriminate)) as Hpos.
    destruct (tallest (s :: taken) 0 =? 0) eqn:E0; [lia|reflexivity].
Qed.

(** ** Placements that do not overlap *)

Lemma interiors_meet_sym (a b : placement) :
  interiors_meet a b -> interiors_meet b a.
Proof. unfold interiors_meet. lia. Qed.

Lemma pairwise_apart_nil : pairwise_apart [].
Proof. intros i j a b _ Hi. destruct i; discriminate. Qed.

Lemma pairwise_apart_one (a : placement) : pairwise_apart [a].
Proof.
  intros i j x y Hij Hi Hj.
  destruct i as [|i]; destruct j as [|j]; try congruence;
    simpl in *; try (destruct i; discriminate); destruct j; discriminate.
Qed.

Lemma pairwise_apart_app (l1 l2 : list placement) :
  pairwise_apart l1 -> pairwise_apart l2 ->
  (forall a b, In a l1 -> In b l2 -> ~ interiors_meet a b) ->
  pairwise_apart (l1 ++ l2).
Proof.
  intros H1 H2 H12 i j a b Hij Hi Hj.
  destruct (Nat.lt_ge_cases i (length l1)) as [Li|Li];
    destruct (Nat.lt_ge_cases j (length l1)) as [Lj|Lj].
  - rewrite nth_error_app1 in Hi, Hj by assumption. eapply H1; eauto.
  - rewrite nth_error_app1 in Hi by assumption.
    rewrite nth_error_app2 in Hj by assumption.
    apply H12; eauto using nth_error_In.
  - rewrite nth_error_app2 in Hi by assumption.
    rewrite nth_error_app1 in Hj by assumption.
    intros M. apply interiors_meet_sym in M. revert M.
    apply H12; eauto using nth_error_In.
  - rewrite nth_error_app2 in Hi, Hj by assumption.
    eapply (H2 (i - length l1)%nat (j - length l1)%nat); eauto. lia.
Qed.

Lemma pairwise_apart_app_l (l1 l2 : list placement) :
  pairwise_apart (l1 ++ l2) -> pairwise_apart l1.
Proof.
  intros H i j a b Hij Hi Hj.
  apply (H i j a b Hij).
  - rewrite nth_error_app1; [assumption|].
    apply nth_error_Some. congruence.
  - rewrite nth_error_app1; [assumption|].
    apply nth_error_Some. congruence.
Qed.

Lemma midpoint_between (lo m M hi : Q) :
  (lo <= m -> m < M -> M <= hi ->
   lo < (m + M) * (1 # 2) /\ (m + M) * (1 # 2) < hi)%Q.
Proof. intros H1 H2 H3. split; lra. Qed.

Lemma Zlt_through (a b : Z) (p : Q) :
  (inject_Z a < p)%Q -> (p < inject_Z b)%Q -> a < b.
Proof. intros H1 H2. rewrite Zlt_Qlt. eapply Qlt_trans; eassumption. Qed.

(** [interiors_meet] says what it should: the two open rectangles share a
    point of the rational plane. *)
Lemma interiors_meet_point (a b : placement) :
  interiors_meet a b <->
  exists px py, inside px py a /\ inside px py b.
Proof.
  unfold interiors_meet, inside. split.
  - intros [Hx Hy].
    exists ((inject_Z (Z.max (pl_x a) (pl_x b)) +
             inject_Z (Z.min (pl_x a + pl_w a) (pl_x b + pl_w b))) * (1 # 2))%Q,
           ((inject_Z (Z.max (pl_y a) (pl_y b)) +
             inject_Z (Z.min (pl_y a + pl_h a) (pl_y b + pl_h b))) * (1 # 2))%Q.
    rewrite Zlt_Qlt in Hx, Hy.
    pose proof (Z.le_max_l (pl_x a) (pl_x b)) as X1.
    pose proof (Z.le_max_r (pl_x a) (pl_x b)) as X2.
    pose proof (Z.le_min_l (pl_x a + pl_w a) (pl_x b + pl_w b)) as X3.
    pose proof (Z.le_min_r (pl_x a + pl_w a) (pl_x b + pl_w b)) as X4.
    pose proof (Z.le_max_l (pl_y a) (pl_y b)) as Y1.
    pose proof (Z.le_max_r (pl_y a) (pl_y b)) as Y2.
    pose proof (Z.le_min_l (pl_y a + pl_h a) (pl_y b + pl_h b)) as Y3.
    pose proof (Z.le_min_r (pl_y a + pl_h a) (pl_y b + pl_h b)) as Y4.
    rewrite Zle_Qle in X1, X2, X3, X4, Y1, Y2, Y3, Y4.
    destruct (midpoint_between _ _ _ _ X1 Hx X3).
    destruct (midpoint_between _ _ _ _ X2 Hx X4).
    destruct (midpoint_between _ _ _ _ Y1 Hy Y3).
    destruct (midpoint_between _ _ _ _ Y2 Hy Y4).
    repeat split; assumption.
  - intros (px & py & (A1 & A2 & A3 & A4) & (B1 & B2 & B3 & B4)).
    pose proof (Zlt_through _ _ _ A1 A2).
    pose proof (Zlt_through _ _ _ A1 B2).
    pose proof (Zlt_through _ _ _ B1 A2).
    pose proof (Zlt_through _ _ _ B1 B2).
    pose proof (Zlt_through _ _ _ A3 A4).
    pose proof (Zlt_through _ _ _ A3 B4).
    pose proof (Zlt_through _ _ _ B3 A4).
    pose proof (Zlt_through _ _ _ B3 B4).
    lia.
Qed.

(** ** One row of placements *)

Section Row.
Variables (page_w_px padding y : Z).
Hypothesis padding_nonneg : 0 <= padding.

Lemma row_ids (taken : list size) :
  forall x, map pl_idx (row padding y taken x) = map sz_idx taken.
Proof.
  induction taken as [|s taken IH]; intros x; simpl; [reflexivity|].
  now rewrite IH.
Qed.

Lemma row_end_ge (taken : list size) :
  positive_sizes taken -> forall x, x <= row_end padding taken x.
Proof.
  induction 1 as [|s taken [Hw _] _ IH]; intros x; simpl; [lia|].
  specialize (IH (x + (sz_w s + padding))). lia.
Qed.

Lemma row_geometry (taken : list size) :
  positive_sizes taken ->
  forall x,
    Forall (fun p => pl_y p = y /\ x <= pl_x p /\ 0 < pl_w p /\
                     pl_x p + pl_w p + padding <= row_end padding taken x /\
                     0 < pl_h p <= tallest taken 0)
           (row padding y taken x).
Proof.
  intros Hp. pose proof (tallest_bound taken 0) as Hb. revert Hb.
  generalize (tallest taken 0) as top.
  induction Hp as [|s taken [Hw Hh] Hp IH]; intros top Hb x; simpl;
    constructor.
  - simpl. inversion Hb; subst.
    pose proof (row_end_ge taken Hp (x + (sz_w s + padding))). lia.
  - inversion Hb; subst.
    specialize (IH top H2 (x + (sz_w s + padding))).
    eapply Forall_impl; [|exact IH]. simpl. intros p. lia.
Qed.

Lemma row_apart (taken : list size) :
  positive_sizes taken -> forall x, pairwise_apart (row padding y taken x).
Proof.
  induction 1 as [|s taken [Hw Hh] Hp IH]; intros x; simpl.
  - apply pairwise_apart_nil.
  - apply (pairwise_apart_app [_] _ (pairwise_apart_one _) (IH _)).
    intros a b [<-|[]] Hb.
    pose proof (row_geometry taken Hp (x + (sz_w s + padding))) as G.
    rewrite Forall_forall in G. specialize (G b Hb).
    unfold interiors_meet. simpl. lia.
Qed.

Lemma shelf_taken_end (rest : list size) :
  forall x, x <= page_w_px ->
    row_end padding (shelf_taken page_w_px padding rest x) x <= page_w_px.
Proof.
  induction rest as [|s rest IH]; intros x Hx; simpl; [assumption|].
  destruct (sz_w s + x + padding <=? page_w_px) eqn:E; simpl; [|assumption].
  apply IH. lia.
Qed.
End Row.

(** ** One shelf *)

Lemma fallback_size_eq (page_w_px padding : Z) (s : size) (rest : list size) :
  2 * padding < page_w_px -> 0 < sz_w s ->
  fallback_size page_w_px padding (s :: rest) =
    Done (s, page_w_px - 2 * padding,
          py_round (inject_Z (sz_h s) *
                    (inject_Z (page_w_px - 2 * padding) / inject_Z (sz_w s)))).
Proof.
  intros HW Hw. unfold fallback_size.
  destruct (page_w_px - 2 * padding <=? 0) eqn:E1; [lia|].
  destruct (sz_w s =? 0) eqn:E2; [lia|].
  rewrite (py_round_comp _ _ (scale_cancel (page_w_px - 2 * padding) (sz_w s)
                                 ltac:(lia))).
  now rewrite py_round_inject_Z.
Qed.

Lemma shelf_taken_nil (page_w_px padding : Z) (s : size) (rest : list size)
    (x : Z) :
  shelf_taken page_w_px padding (s :: rest) x = [] ->
  page_w_px < sz_w s + x + padding.
Proof.
  simpl. destruct (sz_w s + x + padding <=? page_w_px) eqn:E; [discriminate|].
  lia.
Qed.

(** What one run of lines 69-96 does on images of positive size: it reads a
    non-empty prefix [taken] of the unread images and appends one placement
    for each of them, all at height [y] and side by side between the
    paddings. *)
Lemma shelf_step_spec (page_w_px padding y : Z) (rest : list size)
    (placements : list placement) :
  positive_sizes rest -> rest <> [] -> 2 * padding < page_w_px ->
  exists taken rest' shelf_height new,
    shelf_step page_w_px padding y rest placements =
      Done (rest', shelf_height, placements ++ new) /\
    rest = taken ++ rest' /\ taken <> [] /\
    map pl_idx new = map sz_idx taken /\
    0 <= shelf_height /\
    (0 <= padding ->
       Forall (fun p => pl_y p = y /\ padding <= pl_x p /\
                        pl_x p + pl_w p <= page_w_px - padding /\
                        0 <= pl_h p <= shelf_height) new /\
       pairwise_apart new).
Proof.
  intros Hp Hne HW. rewrite (shelf_step_eq _ _ _ _ _ Hp).
  pose proof (shelf_taken_prefix page_w_px padding rest padding) as Hpre.
  pose proof (shelf_taken_positive page_w_px padding rest padding Hp) as Hpt.
  simpl in Hpre.
  destruct (shelf_taken page_w_px padding rest padding) as [|t taken] eqn:E.
  - destruct rest as [|s rest]; [congruence|].
    apply shelf_taken_nil in E.
    inversion Hp as [|? ? [Hw Hh] Hp']; subst.
    rewrite (fallback_size_eq _ _ _ _ HW Hw). cbn [bind].
    set (new_h := py_round _).
    assert (Hnh : 0 <= new_h).
    { apply py_round_nonneg, scaled_nonneg; lia. }
    exists [s], rest, new_h,
      [mkPlacement (sz_idx s) padding y (page_w_px - 2 * padding) new_h].
    split; [reflexivity|]. split; [reflexivity|].
    split; [discriminate|]. split; [reflexivity|]. split; [assumption|].
    intros Hpad. split; [|apply pairwise_apart_one].
    constructor; [cbn [pl_x pl_y pl_w pl_h]; lia|constructor].
  - exists (t :: taken), (skipn (length (t :: taken)) rest),
      (tallest (t :: taken) 0), (row padding y (t :: taken) padding).
    pose proof (tallest_pos _ Hpt ltac:(discriminate)) as Htop.
    split; [reflexivity|]. split; [assumption|].
    split; [discriminate|]. split; [apply row_ids|]. split; [lia|].
    intros H. split.
    + pose proof (row_geometry padding y H (t :: taken) Hpt padding) as G.
      pose proof (shelf_taken_end page_w_px padding rest padding
                    ltac:(lia)) as Hend.
      rewrite E in Hend.
      eapply Forall_impl; [|exact G]. cbn beta. intros p. lia.
    + now apply row_apart.
Qed.

(** ** One page *)

Lemma length_zero_nil {A : Type} (l : list A) :
  (length l =? 0)%nat = true <-> l = [].
Proof.
  rewrite Nat.eqb_eq. destruct l; simpl; split; congruence.
Qed.

Lemma nonempty_test {A : Type} (l : list A) :
  negb (length l =? 0)%nat = true <-> l <> [].
Proof.
  rewrite negb_true_iff, <- not_true_iff_false, length_zero_nil. tauto.
Qed.

(** What the loop of lines 68-99 does on images of positive size: it reads
    a prefix [taken] of the unread images, non-empty when the loop is
    entered, and appends one placement for each, every one between the
    left and right paddings and with its top edge in [y, page_h_px -
    padding). *)
Lemma page_loop_spec (page_w_px page_h_px padding : Z) :
  2 * padding < page_w_px ->
  forall gas rest y placements,
    positive_sizes rest -> (length rest <= gas)%nat ->
    exists taken rest' new,
      page_loop gas page_w_px page_h_px padding rest y placements =
        Done (rest', placements ++ new) /\
      rest = taken ++ rest' /\
      (y < page_h_px - padding -> rest <> [] -> taken <> []) /\
      map pl_idx new = map sz_idx taken /\
      (0 <= padding ->
         Forall (fun p => y <= pl_y p < page_h_px - padding /\
                          padding <= pl_x p /\
                          pl_x p + pl_w p <= page_w_px - padding /\
                          0 <= pl_h p) new /\
         pairwise_apart new).
Proof.
  intros HW.
  induction gas as [|gas IH]; intros rest y placements Hp Hgas.
  - destruct rest as [|s rest]; [|simpl in Hgas; lia].
    exists [], [], []. simpl. rewrite andb_false_r, app_nil_r.
    repeat split; try congruence; try constructor.
    apply pairwise_apart_nil.
  - cbn [page_loop].
    destruct ((y <? page_h_px - padding) && negb (length rest =? 0)%nat)
      eqn:Hcond.
    2:{ exists [], rest, []. rewrite app_nil_r.
        split; [reflexivity|]. split; [reflexivity|].
        split.
        { intros Hy Hne. exfalso.
          apply andb_false_iff in Hcond. destruct Hcond as [C|C].
          - apply Z.ltb_ge in C. lia.
          - apply not_true_iff_false in C. apply C, nonempty_test, Hne. }
        split; [reflexivity|].
        intros _. split; [constructor|apply pairwise_apart_nil]. }
    apply andb_true_iff in Hcond. destruct Hcond as [Hy Hne].
    apply Z.ltb_lt in Hy. apply nonempty_test in Hne.
    destruct (shelf_step_spec page_w_px padding y rest placements Hp Hne HW)
      as (taken1 & rest1 & sh & new1 & Hstep & Hrest & Htk & Hids & Hsh & Hgeo).
    rewrite Hstep. cbn [bind].
    assert (Hp1 : positive_sizes rest1).
    { rewrite Hrest in Hp. now apply positive_sizes_app in Hp. }
    assert (Hlen : (length rest1 <= gas)%nat).
    { rewrite Hrest, length_app in Hgas.
      destruct taken1; [congruence|simpl in Hgas; lia]. }
    destruct ((y + (sh + padding) >=? page_h_px - padding)
              && negb (length rest1 =? 0)%nat) eqn:Hbrk.
    + exists taken1, rest1, new1.
      split; [reflexivity|]. split; [assumption|].
      split; [intros _ _; assumption|]. split; [assumption|].
      intros Hpad. destruct (Hgeo Hpad) as [G A]. split; [|assumption].
      eapply Forall_impl; [|exact G]. cbn beta. intros p. lia.
    + destruct (IH rest1 (y + (sh + padding)) (placements ++ new1) Hp1 Hlen)
        as (taken2 & rest2 & new2 & Hrun & Hrest2 & _ & Hids2 & Hgeo2).
      rewrite Hrun. exists (taken1 ++ taken2), rest2, (new1 ++ new2).
      split; [now rewrite app_assoc|].
      split; [now rewrite <- app_assoc, <- Hrest2|].
      split; [intros _ _; destruct taken1; [congruence|discriminate]|].
      split; [now rewrite !map_app, Hids, Hids2|].
      intros Hpad. destruct (Hgeo Hpad) as [G1 A1].
      destruct (Hgeo2 Hpad) as [G2 A2].
      split.
      * apply Forall_app. split.
        -- eapply Forall_impl; [|exact G1]. cbn beta. intros p. lia.
        -- eapply Forall_impl; [|exact G2]. cbn beta. intros p. lia.
      * apply pairwise_apart_app; try assumption.
        intros a b Ha Hb.
        rewrite Forall_forall in G1, G2.
        specialize (G1 a Ha). specialize (G2 b Hb).
        unfold interiors_meet. lia.
Qed.

(** ** All pages *)

(** What the loop of lines 65-100 does on images of positive size, when
    both paddings fit in the page twice: it returns, having read all the
    images, one placement each in the order of the input; no page is empty,
    and on a page the placements are inside the paddings on the left, on
    the right and at the top, start above the bottom padding and are
    pairwise apart. *)
Lemma pages_loop_spec (page_w_px page_h_px padding : Z) (budget : nat) :
  2 * padding < page_w_px -> 2 * padding < page_h_px ->
  forall gas rest pages,
    positive_sizes rest ->
    (length rest <= gas)%nat -> (length rest <= budget)%nat ->
    exists new_pages,
      pages_loop gas budget page_w_px page_h_px padding rest pages =
        Done (pages ++ new_pages) /\
      placement_ids new_pages = map sz_idx rest /\
      (rest <> [] -> new_pages <> []) /\
      Forall (fun pg : page =>
                pg <> [] /\
                (0 <= padding ->
                   Forall (fun p => padding <= pl_y p < page_h_px - padding /\
                                    padding <= pl_x p /\
                                    pl_x p + pl_w p <= page_w_px - padding /\
                                    0 <= pl_h p) pg /\
                   pairwise_apart pg)) new_pages.
Proof.
  intros HW HH.
  induction gas as [|gas IH]; intros rest pages Hp Hgas Hbud.
  - destruct rest as [|s rest]; [|simpl in Hgas; lia].
    exists []. simpl. rewrite app_nil_r.
    repeat split; try congruence; constructor.
  - cbn [pages_loop].
    destruct (negb (length rest =? 0)%nat) eqn:Hne.
    2:{ exists []. rewrite app_nil_r.
        apply negb_false_iff, length_zero_nil in Hne. subst rest.
        repeat split; try congruence; constructor. }
    apply nonempty_test in Hne.
    destruct (page_loop_spec page_w_px page_h_px padding HW budget rest
                padding [] Hp Hbud)
      as (taken & rest' & new & Hrun & Hrest & Htk & Hids & Hgeo).
    rewrite Hrun. cbn [bind app].
    specialize (Htk ltac:(lia) Hne).
    assert (Hp' : positive_sizes rest').
    { rewrite Hrest in Hp. now apply positive_sizes_app in Hp. }
    assert (Hlen : (length rest' <= gas)%nat).
    { rewrite Hrest, length_app in Hgas.
      destruct taken; [congruence|simpl in Hgas; lia]. }
    assert (Hlen' : (length rest' <= budget)%nat).
    { rewrite Hrest, length_app in Hbud. lia. }
    destruct (IH rest' (pages ++ [new]) Hp' Hlen Hlen')
      as (more & Hrec & Hids' & _ & Hall).
    rewrite Hrec. exists (new :: more).
    split; [now rewrite <- app_assoc|].
    split.
    { unfold placement_ids in *. cbn [concat].
      now rewrite map_app, Hids, Hids', Hrest, map_app. }
    split; [discriminate|].
    constructor; [|assumption].
    split.
    + intros ->. destruct taken; [congruence|discriminate].
    + intros Hpad. exact (Hgeo Hpad).
Qed.

(** ** More gas does not change a result *)

Lemma page_loop_gas (page_w_px page_h_px padding : Z) :
  forall gas gas' rest y placements r,
    page_loop gas page_w_px page_h_px padding rest y placements = Done r ->
    (gas <= gas')%nat ->
    page_loop gas' page_w_px page_h_px padding rest y placements = Done r.
Proof.
  induction gas as [|gas IH]; intros gas' rest y placements r Hrun Hle.
  - destruct gas'; [assumption|]. cbn [page_loop] in *.
    destruct ((y <? page_h_px - padding) && negb (length rest =? 0)%nat);
      [discriminate|assumption].
  - destruct gas' as [|gas']; [lia|]. cbn [page_loop] in *.
    destruct ((y <? page_h_px - padding) && negb (length rest =? 0)%nat);
      [|assumption].
    destruct (shelf_step page_w_px padding y rest placements)
      as [[[rest' sh] placements']| |]; cbn [bind] in *; try discriminate.
    destruct ((y + (sh + padding) >=? page_h_px - padding)
              && negb (length rest' =? 0)%nat); [assumption|].
    apply IH; [assumption|lia].
Qed.

Lemma pages_loop_gas (page_w_px page_h_px padding : Z) (budget budget' : nat) :
  (budget <= budget')%nat ->
  forall gas gas' rest pages r,
    pages_loop gas budget page_w_px page_h_px padding rest pages = Done r ->
    (gas <= gas')%nat ->
    pages_loop gas' budget' page_w_px page_h_px padding rest pages = Done r.
Proof.
  intros Hb.
  induction gas as [|gas IH]; intros gas' rest pages r Hrun Hle.
  - destruct gas'; cbn [pages_loop] in *;
      destruct (negb (length rest =? 0)%nat); try discriminate; assumption.
  - destruct gas' as [|gas']; [lia|]. cbn [pages_loop] in *.
    destruct (negb (length rest =? 0)%nat); [|assumption].
    destruct (page_loop budget page_w_px page_h_px padding rest padding [])
      as [[rest' placements]| |] eqn:Hpage; cbn [bind] in *; try discriminate.
    rewrite (page_loop_gas _ _ _ _ _ _ _ _ _ Hpage Hb). cbn [bind].
    apply IH; [assumption|lia].
Qed.

Lemma pack_images_shelf_gas (gas gas' : nat) (images_sizes : list size)
    (page_w_px page_h_px padding : Z) (pages : list page) :
  pack_images_shelf gas images_sizes page_w_px page_h_px padding = Done pages ->
  (gas <= gas')%nat ->
  pack_images_shelf gas' images_sizes page_w_px page_h_px padding = Done pages.
Proof.
  unfold pack_images_shelf. intros Hrun Hle.
  eapply pages_loop_gas; eauto.
Qed.

(** ** Configurations in which packing cannot succeed *)

(** When the two paddings fill the height of the page, the loop over
    shelves is never entered and the loop over pages never ends. *)
Lemma pages_loop_no_height (page_w_px page_h_px padding : Z) (budget : nat)
    (rest : list size) :
  rest <> [] -> page_h_px <= 2 * padding ->
  forall gas pages,
    pages_loop gas budget page_w_px page_h_px padding rest pages = OutOfGas.
Proof.
  intros Hne HH. apply nonempty_test in Hne.
  assert (Hpage : page_loop budget page_w_px page_h_px padding rest padding []
                  = Done (rest, [])).
  { destruct budget; cbn [page_loop];
      (destruct (padding <? page_h_px - padding) eqn:E;
       [apply Z.ltb_lt in E; lia|reflexivity]). }
  induction gas as [|gas IH]; intros pages; cbn [pages_loop]; rewrite Hne;
    [reflexivity|].
  rewrite Hpage. cbn [bind]. apply IH.
Qed.

(** When the two paddings fill the width of the page, the first shelf stays
    empty and the fallback branch raises. *)
Lemma shelf_step_no_width (page_w_px padding y : Z) (s : size)
    (rest : list size) (placements : list placement) :
  0 < sz_w s -> page_w_px <= 2 * padding ->
  shelf_loop page_w_px padding y (s :: rest) padding 0 placements =
    (s :: rest, padding, 0, placements) /\
  shelf_step page_w_px padding y (s :: rest) placements = Raise RuntimeError.
Proof.
  intros Hw HW.
  assert (E : shelf_loop page_w_px padding y (s :: rest) padding 0 placements =
              (s :: rest, padding, 0, placements)).
  { cbn [shelf_loop].
    destruct (sz_w s + padding + padding <=? page_w_px) eqn:E;
      [apply Z.leb_le in E; lia|reflexivity]. }
  split; [exact E|].
  unfold shelf_step. rewrite E. cbn [Z.eqb fallback_size].
  destruct (page_w_px - 2 * padding <=? 0) eqn:E'; [reflexivity|].
  apply Z.leb_gt in E'. lia.
Qed.

(** ** Completeness *)

(** C1. For sizes of positive width and height and a page wider and higher
    than twice the padding, [pack_images_shelf] returns (any gas not below
    the number of images is enough), and the ids of the placements of all
    the pages, in order, are exactly the ids of the input, in order; so
    they are the same multiset, each input id being placed exactly once. *)
Theorem completeness (images_sizes : list size)
    (page_w_px page_h_px padding : Z) :
  positive_sizes images_sizes ->
  2 * padding < page_w_px -> 2 * padding < page_h_px ->
  forall gas, (length images_sizes <= gas)%nat ->
    exists pages,
      pack_images_shelf gas images_sizes page_w_px page_h_px padding =
        Done pages /\
      placement_ids pages = map sz_idx images_sizes /\
      Permutation (placement_ids pages) (map sz_idx images_sizes) /\
      (forall id, count_occ Z.eq_dec (placement_ids pages) id =
                  count_occ Z.eq_dec (map sz_idx images_sizes) id).
Proof.
  intros Hp HW HH gas Hgas. unfold pack_images_shelf.
  destruct (pages_loop_spec page_w_px page_h_px padding gas HW HH gas
              images_sizes [] Hp Hgas Hgas) as (pages & Hrun & Hids & _).
  exists pages. split; [exact Hrun|]. split; [exact Hids|].
  rewrite Hids. split; [apply Permutation_refl|reflexivity].
Qed.

Lemma completeness_witness :
  exists pages,
    pack_images_shelf 3 scenario_a 300 300 10 = Done pages /\
    placement_ids pages = map sz_idx scenario_a /\
    Permutation (placement_ids pages) (map sz_idx scenario_a) /\
    (forall id, count_occ Z.eq_dec (placement_ids pages) id =
                count_occ Z.eq_dec (map sz_idx scenario_a) id).
Proof.
  apply (completeness scenario_a 300 300 10).
  - unfold scenario_a. positive_list.
  - reflexivity.
  - reflexivity.
  - apply le_n.
Defined.

(** ** Non-overlap *)

(** C2. For sizes of positive width and height, a non-negative padding and
    a page wider and higher than twice the padding, [pack_images_shelf]
    returns, and any two placements at different positions of the same page
    have open rectangles with no point in common. *)
Theorem non_overlap (images_sizes : list size)
    (page_w_px page_h_px padding : Z) :
  positive_sizes images_sizes ->
  2 * padding < page_w_px -> 2 * padding < page_h_px -> 0 <= padding ->
  forall gas, (length images_sizes <= gas)%nat ->
    exists pages,
      pack_images_shelf gas images_sizes page_w_px page_h_px padding =
        Done pages /\
      forall pg, In pg pages ->
        forall i j a b, i <> j ->
          nth_error pg i = Some a -> nth_error pg j = Some b ->
          ~ interiors_meet a b.
Proof.
  intros Hp HW HH Hpad gas Hgas. unfold pack_images_shelf.
  destruct (pages_loop_spec page_w_px page_h_px padding gas HW HH gas
              images_sizes [] Hp Hgas Hgas) as (pages & Hrun & _ & _ & Hall).
  exists pages. split; [exact Hrun|].
  intros pg Hpg. rewrite Forall_forall in Hall.
  destruct (Hall pg Hpg) as [_ Hgeo]. destruct (Hgeo Hpad) as [_ Hap].
  exact Hap.
Qed.

Lemma non_overlap_witness :
  exists pages,
    pack_images_shelf 3 scenario_a 300 300 10 = Done pages /\
    forall pg, In pg pages ->
      forall i j a b, i <> j ->
        nth_error pg i = Some a -> nth_error pg j = Some b ->
        ~ interiors_meet a b.
Proof.
  apply (non_overlap scenario_a 300 300 10).
  - unfold scenario_a. positive_list.
  - reflexivity.
  - reflexivity.
  - discriminate.
  - apply le_n.
Defined.

(** ** The labels are ghost *)

Lemma shelf_loop_erase (page_w_px padding y : Z) (rest : list size) :
  forall shelf_x shelf_height traced,
    shelf_loop page_w_px padding y rest shelf_x shelf_height
      (erase_page traced) =
    let '(rest', x', sh', traced') :=
      shelf_loop_traced page_w_px padding y rest shelf_x shelf_height traced in
    (rest', x', sh', erase_page traced').
Proof.
  induction rest as [|s rest IH]; intros shelf_x shelf_height traced;
    cbn [shelf_loop shelf_loop_traced]; [reflexivity|].
  destruct (sz_w s + shelf_x + padding <=? page_w_px); [|reflexivity].
  rewrite <- IH. unfold erase_page. now rewrite map_app.
Qed.

Lemma shelf_step_erase (page_w_px padding y : Z) (rest : list size)
    (traced : list (origin * placement)) :
  shelf_step page_w_px padding y rest (erase_page traced) =
  outcome_map (fun '(rest', sh, traced') => (rest', sh, erase_page traced'))
    (shelf_step_traced page_w_px padding y rest traced).
Proof.
  unfold shelf_step, shelf_step_traced. rewrite shelf_loop_erase.
  destruct (shelf_loop_traced page_w_px padding y rest padding 0 traced)
    as [[[rest1 x1] sh1] traced1].
  destruct (sh1 =? 0); [|reflexivity].
  destruct (fallback_size page_w_px padding rest1) as [[[s nw] nh]| |];
    cbn [bind outcome_map]; try reflexivity.
  unfold erase_page. now rewrite map_app.
Qed.

Lemma page_loop_erase (page_w_px page_h_px padding : Z) :
  forall gas rest y traced,
    page_loop gas page_w_px page_h_px padding rest y (erase_page traced) =
    outcome_map (fun '(rest', traced') => (rest', erase_page traced'))
      (page_loop_traced gas page_w_px page_h_px padding rest y traced).
Proof.
  induction gas as [|gas IH]; intros rest y traced;
    cbn [page_loop page_loop_traced];
    destruct ((y <? page_h_px - padding) && negb (length rest =? 0)%nat);
    try reflexivity.
  rewrite shelf_step_erase.
  destruct (shelf_step_traced page_w_px padding y rest traced)
    as [[[rest' sh] traced']| |]; cbn [bind outcome_map]; try reflexivity.
  destruct ((y + (sh + padding) >=? page_h_px - padding)
            && negb (length rest' =? 0)%nat); [reflexivity|apply IH].
Qed.

Lemma pages_loop_erase (page_w_px page_h_px padding : Z) (budget : nat) :
  forall gas rest traced,
    pages_loop gas budget page_w_px page_h_px padding rest
      (erase_pages traced) =
    outcome_map erase_pages
      (pages_loop_traced gas budget page_w_px page_h_px padding rest traced).
Proof.
  induction gas as [|gas IH]; intros rest traced;
    cbn [pages_loop pages_loop_traced];
    destruct (negb (length rest =? 0)%nat); try reflexivity.
  change (@nil placement) with (erase_page []).
  rewrite page_loop_erase.
  destruct (page_loop_traced budget page_w_px page_h_px padding rest padding [])
    as [[rest' traced']| |]; cbn [bind outcome_map]; try reflexivity.
  rewrite <- IH. unfold erase_pages. now rewrite map_app.
Qed.

(** Forgetting the labels of the labelled packer gives the packer. *)
Lemma pack_images_shelf_erase (gas : nat) (images_sizes : list size)
    (page_w_px page_h_px padding : Z) :
  pack_images_shelf gas images_sizes page_w_px page_h_px padding =
  outcome_map erase_pages
    (pack_images_shelf_traced gas images_sizes page_w_px page_h_px padding).
Proof.
  unfold pack_images_shelf, pack_images_shelf_traced.
  change (@nil page) with (erase_pages []). apply pages_loop_erase.
Qed.

Lemma pack_no_height (images_sizes : list size)
    (page_w_px page_h_px padding : Z) :
  images_sizes <> [] -> page_h_px <= 2 * padding ->
  forall gas,
    pack_images_shelf gas images_sizes page_w_px page_h_px padding = OutOfGas.
Proof.
  intros Hne HH gas. unfold pack_images_shelf.
  now apply pages_loop_no_height.
Qed.

Lemma pack_no_width (s : size) (rest : list size)
    (page_w_px page_h_px padding : Z) :
  0 < sz_w s -> page_w_px <= 2 * padding -> 2 * padding < page_h_px ->
  forall gas,
    pack_images_shelf (S gas) (s :: rest) page_w_px page_h_px padding =
      Raise RuntimeError.
Proof.
  intros Hw HW HH gas. unfold pack_images_shelf.
  cbn [pages_loop length Nat.eqb negb page_loop].
  destruct (padding <? page_h_px - padding) eqn:E;
    [|apply Z.ltb_ge in E; lia].
  cbn [andb].
  destruct (shelf_step_no_width page_w_px padding padding s rest [] Hw HW)
    as [_ ->].
  reflexivity.
Qed.

(** On images of positive size, a returned result is the one described by
    [pages_loop_spec]. *)
Lemma pack_done_inv (images_sizes : list size)
    (page_w_px page_h_px padding : Z) (gas : nat) (pages : list page) :
  positive_sizes images_sizes ->
  pack_images_shelf gas images_sizes page_w_px page_h_px padding = Done pages ->
  images_sizes = [] /\ pages = [] \/
  images_sizes <> [] /\
  2 * padding < page_w_px /\ 2 * padding < page_h_px /\
  pack_images_shelf (Nat.max gas (length images_sizes)) images_sizes
    page_w_px page_h_px padding = Done pages.
Proof.
  intros Hp Hrun.
  destruct images_sizes as [|s rest].
  - left. split; [reflexivity|].
    destruct gas; cbn in Hrun; congruence.
  - right. split; [discriminate|].
    destruct (Z_lt_le_dec (2 * padding) page_h_px) as [HH|HH].
    2:{ rewrite pack_no_height in Hrun by (assumption || discriminate).
        discriminate. }
    destruct (Z_lt_le_dec (2 * padding) page_w_px) as [HW|HW].
    2:{ destruct gas as [|gas]; [cbn in Hrun; discriminate|].
        inversion Hp as [|? ? [Hw _] _]; subst.
        rewrite pack_no_width in Hrun by assumption. discriminate. }
    split; [assumption|]. split; [assumption|].
    eapply pack_images_shelf_gas; [eassumption|apply Nat.le_max_l].
Qed.

(** ** The runs of the two scenarios *)

Lemma scenario_a_run :
  pack_images_shelf 3 scenario_a 300 300 10 =
    Done [[mkPlacement 0 10 10 100 100; mkPlacement 1 120 10 100 100;
           mkPlacement 2 10 120 100 100]].
Proof. reflexivity. Qed.

Lemma scenario_c_run :
  pack_images_shelf 5 scenario_c 300 300 10 =
    Done [[mkPlacement 0 10 10 250 50; mkPlacement 1 10 70 250 50;
           mkPlacement 2 10 130 250 50; mkPlacement 3 10 190 250 50;
           mkPlacement 4 10 250 250 50]].
Proof. reflexivity. Qed.

(** ** Containment *)


(** ** Termination *)

(** C4 fails on the code: with one image of size 1 x 1 on a page of 10 x
    10 and padding 5 (positive page, non-negative padding), the condition
    of line 68 is false at once, line 100 appends an empty page, [i] stays
    0 and the loop of line 65 runs for ever: whatever the gas, it runs
    out. *)
Theorem pack_loops_forever :
  forall gas, pack_images_shelf gas [mkSize 1 1 0] 10 10 5 = OutOfGas.
Proof.
  intros gas. apply pack_no_height; [discriminate|reflexivity].
Qed.

(** ** The fallback branch *)

(** C10 fails on the code: an image of height 0 that fits the shelf is
    placed by line 75 and leaves [shelf_height] at 0; the loop of lines
    72-82 ends with no image left, line 83 takes the fallback branch and
    line 86 reads past the end of the list. *)
Theorem fallback_reads_past_end :
  shelf_loop 300 10 10 [mkSize 10 0 0] 10 0 [] =
    ([], 30, 0, [mkPlacement 0 10 10 10 0]) /\
  forall gas,
    pack_images_shelf (S gas) [mkSize 10 0 0] 300 300 10 = Raise IndexError.
Proof.
  split; [reflexivity|]. intros gas. reflexivity.
Qed.

(** ** Scenarios *)

Lemma pack_from_gas (g : nat) (images_sizes : list size)
    (page_w_px page_h_px padding : Z) (pages : list page) :
  pack_images_shelf g images_sizes page_w_px page_h_px padding = Done pages ->
  forall gas pages',
    pack_images_shelf gas images_sizes page_w_px page_h_px padding =
      Done pages' ->
    pages' = pages.
Proof.
  intros Hg gas pages' Hgas.
  apply (pack_images_shelf_gas _ (Nat.max g gas)) in Hg;
    [|apply Nat.le_max_l].
  apply (pack_images_shelf_gas _ (Nat.max g gas)) in Hgas;
    [|apply Nat.le_max_r].
  congruence.
Qed.

(** C8, as the specification states it, fails: the three images are not
    placed at x = 10, 120, 230 on one shelf at y = 10. *)
Lemma scenario_a_counterexample :
  ~ (exists gas,
       pack_images_shelf gas scenario_a 300 300 10 =
         Done [[mkPlacement 0 10 10 100 100; mkPlacement 1 120 10 100 100;
                mkPlacement 2 230 10 100 100]]).
Proof.
  intros [gas Hrun].
  apply (pack_from_gas _ _ _ _ _ _ scenario_a_run) in Hrun. discriminate.
Qed.

(** C8, amended. Three images of size 100 x 100 on a page of 300 x 300 with
    padding 10 make one page; the first two are on a shelf at y = 10, at x
    = 10 and 120; the third does not fit behind them (100 + 230 + 10 >
    300) and starts a second shelf, at x = 10 and y = 120. *)
Theorem scenario_a_result (gas : nat) :
  (3 <= gas)%nat ->
  pack_images_shelf gas scenario_a 300 300 10 =
    Done [[mkPlacement 0 10 10 100 100; mkPlacement 1 120 10 100 100;
           mkPlacement 2 10 120 100 100]].
Proof.
  intros Hgas. exact (pack_images_shelf_gas _ _ _ _ _ _ _ scenario_a_run Hgas).
Qed.

Lemma scenario_a_result_witness :
  pack_images_shelf 3 scenario_a 300 300 10 =
    Done [[mkPlacement 0 10 10 100 100; mkPlacement 1 120 10 100 100;
           mkPlacement 2 10 120 100 100]].
Proof.
  apply (scenario_a_result 3). apply le_n.
Defined.

(** C5, as the specification states it, fails: the result is not two
    pages with four placements on the first and one on the second. *)
Lemma scenario_c_counterexample :
  ~ (exists gas page1 page2,
       pack_images_shelf gas scenario_c 300 300 10 = Done [page1; page2] /\
       length page1 = 4%nat /\ length page2 = 1%nat).
Proof.
  intros (gas & page1 & page2 & Hrun & _).
  apply (pack_from_gas _ _ _ _ _ _ scenario_c_run) in Hrun. discriminate.
Qed.

(** C5, amended. Five images of size 250 x 50 on a page of 300 x 300 with
    padding 10 make one page of five shelves with one image each, at y =
    10, 70, 130, 190 and 250: after the fourth shelf the cursor is at 250 <
    290, so line 68 starts a fifth shelf on the same page. *)
Theorem scenario_c_result (gas : nat) :
  (5 <= gas)%nat ->
  pack_images_shelf gas scenario_c 300 300 10 =
    Done [[mkPlacement 0 10 10 250 50; mkPlacement 1 10 70 250 50;
           mkPlacement 2 10 130 250 50; mkPlacement 3 10 190 250 50;
           mkPlacement 4 10 250 250 50]].
Proof.
  intros Hgas. exact (pack_images_shelf_gas _ _ _ _ _ _ _ scenario_c_run Hgas).
Qed.

Lemma scenario_c_result_witness :
  pack_images_shelf 5 scenario_c 300 300 10 =
    Done [[mkPlacement 0 10 10 250 50; mkPlacement 1 10 70 250 50;
           mkPlacement 2 10 130 250 50; mkPlacement 3 10 190 250 50;
           mkPlacement 4 10 250 250 50]].
Proof.
  apply (scenario_c_result 5). apply le_n.
Defined.

(** ** Configuration error *)

(** C6, as the specification states it, fails. With usable width 0, an
    image of width 0 passes the test of line 74 and is placed, and no error
    is raised; and when the page height is no more than twice the padding
    the check of line 88 is never reached. *)
Lemma configuration_error_counterexample :
  ~ (exists gas,
       pack_images_shelf gas [mkSize 0 5 0] 20 100 10 = Raise RuntimeError) /\
  pack_images_shelf 1 [mkSize 0 5 0] 20 100 10 =
    Done [[mkPlacement 0 10 10 0 5]] /\
  ~ (exists gas,
       pack_images_shelf gas [mkSize 1 1 0] 10 10 5 = Raise RuntimeError).
Proof.
  split; [|split; [reflexivity|]].
  - intros [gas Hrun]. destruct gas as [|gas]; [discriminate|].
    assert (H : pack_images_shelf (S gas) [mkSize 0 5 0] 20 100 10 =
                Done [[mkPlacement 0 10 10 0 5]]).
    { apply (pack_images_shelf_gas 1); [reflexivity|lia]. }
    congruence.
  - intros [gas Hrun].
    rewrite pack_no_height in Hrun; [discriminate|discriminate|reflexivity].
Qed.

(** C6, amended. When [pageWidth - 2*padding <= 0], the page is higher than
    twice the padding and the first image has positive width, the first
    run of lines 72-82 appends no placement and [pack_images_shelf] raises
    the [RuntimeError] of line 89. *)
Theorem configuration_error (s : size) (rest : list size)
    (page_w_px page_h_px padding : Z) :
  0 < sz_w s -> page_w_px - 2 * padding <= 0 -> 2 * padding < page_h_px ->
  shelf_loop page_w_px padding padding (s :: rest) padding 0 [] =
    (s :: rest, padding, 0, []) /\
  forall gas,
    pack_images_shelf (S gas) (s :: rest) page_w_px page_h_px padding =
      Raise RuntimeError.
Proof.
  intros Hw HW HH. split.
  - apply shelf_step_no_width; [assumption|lia].
  - apply pack_no_width; [assumption|lia|assumption].
Qed.

Lemma configuration_error_witness :
  shelf_loop 20 10 10 [mkSize 5 5 0] 10 0 [] = ([mkSize 5 5 0], 10, 0, []) /\
  forall gas,
    pack_images_shelf (S gas) [mkSize 5 5 0] 20 100 10 = Raise RuntimeError.
Proof.
  apply (configuration_error (mkSize 5 5 0) [] 20 100 10);
    [reflexivity|discriminate|reflexivity].
Defined.

(** ** Size normalisation *)

Lemma py_round_le_int (q : Q) (z : Z) :
  (q <= inject_Z z)%Q -> py_round q <= z.
Proof.
  intros Hq. unfold py_round.
  pose proof (Qfloor_le q) as Hf.
  assert (Hfz : Qfloor q <= z).
  { rewrite <- (Qfloor_Z z). now apply Qfloor_resp_le. }
  destruct (q - inject_Z (Qfloor q) ?= 1 # 2)%Q eqn:E.
  - apply Qeq_alt in E.
    assert (L : (inject_Z (Qfloor q) < inject_Z z)%Q) by lra.
    rewrite <- Zlt_Qlt in L. destruct (Z.even (Qfloor q)); lia.
  - exact Hfz.
  - apply Qgt_alt in E.
    assert (L : (inject_Z (Qfloor q) < inject_Z z)%Q) by lra.
    rewrite <- Zlt_Qlt in L. lia.
Qed.

Lemma py_round_ge_int (q : Q) (z : Z) :
  (inject_Z z <= q)%Q -> z <= py_round q.
Proof.
  intros Hq.
  assert (Hfz : z <= Qfloor q).
  { rewrite <- (Qfloor_Z z). now apply Qfloor_resp_le. }
  pose proof (py_round_floor q). lia.
Qed.


Lemma inject_Z_pos (z : Z) : 0 < z -> (0 < inject_Z z)%Q.
Proof. intros H. change 0%Q with (inject_Z 0). now rewrite <- Zlt_Qlt. Qed.

Lemma ratio_pos (m w : Z) : 0 < m -> 0 < w -> (0 < inject_Z m / inject_Z w)%Q.
Proof.
  intros Hm Hw. apply Qlt_shift_div_l; [now apply inject_Z_pos|].
  rewrite Qmult_0_l. now apply inject_Z_pos.
Qed.

Lemma scaled_le (w : Z) (s t : Q) :
  0 < w -> (s <= t)%Q -> (inject_Z w * s <= inject_Z w * t)%Q.
Proof.
  intros Hw Hst. apply Qmult_le_l; [now apply inject_Z_pos|assumption].
Qed.

(** The list [sizes] of [main] holds the normalised size of each image, in
    the order of the images. *)
Lemma sizes_from_normalized (page_w_px page_h_px : Z) (dims : list (Z * Z)) :
  forall i,
    map (fun s => (sz_w s, sz_h s)) (sizes_from page_w_px page_h_px i dims) =
    map (fun d => normalize_size (page_w_px - 16) (page_h_px - 16)
                    (fst d) (snd d)) dims.
Proof.
  induction dims as [|[w h] dims IH]; intros i; cbn [sizes_from map];
    [reflexivity|].
  destruct (normalize_size (page_w_px - 16) (page_h_px - 16) w h)
    as [w2 h2] eqn:E.
  cbn [map sz_w sz_h fst snd]. now rewrite IH, E.
Qed.

(** C7. The dimensions that lines 152-154 compute are not all at least
    1.  For one image of 5000 x 1 on A4 at 300 dpi (a page of 2481 x 3507,
    so [max_w] = 2465 and [max_h] = 3491) the scale is 2465/5000 and line
    154 rounds the height 0.493 to 0, with exact numbers and in binary64
    alike: [sizes] is [(2465, 0, 0)].  No line brings the height back to
    1, and [main] goes on with it: the packer gives the image the
    placement (0, 12, 12, 2457, 0), whose width and height are the
    arguments of the [resize] of line 119. *)
Theorem normalization_loses_height :
  normalize_size 2465 3491 5000 1 = (2465, 0) /\
  normalize_size_b64 2465 3491 5000 1 = Done (2465, 0) /\
  page_px "A4"%string 300 = (2481, 3507) /\
  sizes_from 2481 3507 0 [(5000, 1)] = [mkSize 2465 0 0] /\
  fallback_size_b64 2481 12 [mkSize 2465 0 0] =
    Done (mkSize 2465 0 0, 2457, 0) /\
  main_packing 1 "A4"%string 300 [(5000, 1)] =
    Some (Done [[mkPlacement 0 12 12 2457 0]]).
Proof. repeat split; vm_compute; reflexivity. Qed.

(** ** The sequence of shelves *)

Lemma next_shelf_shorter (page_w_px padding : Z) (rest : list size) :
  rest <> [] ->
  (length (fst (next_shelf page_w_px padding rest)) < length rest)%nat.
Proof.
  intros Hne. unfold next_shelf.
  pose proof (shelf_taken_prefix page_w_px padding rest padding) as Hpre.
  cbn zeta in Hpre.
  destruct (shelf_taken page_w_px padding rest padding) as [|t taken].
  - destruct rest; [congruence|]. simpl. lia.
  - cbn [fst]. rewrite Hpre at 2. rewrite length_app. simpl. lia.
Qed.

Lemma shelf_heights_gas_enough (page_w_px padding : Z) :
  forall gas gas' rest,
    (length rest <= gas)%nat -> (length rest <= gas')%nat ->
    shelf_heights_gas gas page_w_px padding rest =
    shelf_heights_gas gas' page_w_px padding rest.
Proof.
  induction gas as [|gas IH]; intros gas' rest Hg Hg'.
  - destruct rest; [|simpl in Hg; lia]. destruct gas'; reflexivity.
  - destruct rest as [|s rest]; [destruct gas'; reflexivity|].
    destruct gas' as [|gas']; [simpl in Hg'; lia|].
    cbn [shelf_heights_gas]. f_equal.
    pose proof (next_shelf_shorter page_w_px padding (s :: rest)
                  ltac:(discriminate)).
    apply IH; lia.
Qed.

Lemma shelf_heights_nil (page_w_px padding : Z) :
  shelf_heights page_w_px padding [] = [].
Proof. reflexivity. Qed.

Lemma shelf_heights_cons (page_w_px padding : Z) (rest : list size) :
  rest <> [] ->
  shelf_heights page_w_px padding rest =
    snd (next_shelf page_w_px padding rest)
      :: shelf_heights page_w_px padding
           (fst (next_shelf page_w_px padding rest)).
Proof.
  intros Hne. destruct rest as [|s rest]; [congruence|].
  unfold shelf_heights at 1. cbn [length shelf_heights_gas]. f_equal.
  pose proof (next_shelf_shorter page_w_px padding (s :: rest) Hne) as Hlt.
  apply shelf_heights_gas_enough; simpl in *; lia.
Qed.

Lemma shelf_heights_empty (page_w_px padding : Z) (rest : list size) :
  (length (shelf_heights page_w_px padding rest) =? 0)%nat =
  (length rest =? 0)%nat.
Proof.
  destruct rest as [|s rest]; [reflexivity|].
  rewrite shelf_heights_cons by discriminate. reflexivity.
Qed.

Lemma next_shelf_positive (page_w_px padding : Z) (rest : list size) :
  positive_sizes rest ->
  positive_sizes (fst (next_shelf page_w_px padding rest)).
Proof.
  intros Hp. unfold next_shelf.
  pose proof (shelf_taken_prefix page_w_px padding rest padding) as Hpre.
  cbn zeta in Hpre.
  destruct (shelf_taken page_w_px padding rest padding) as [|t taken].
  - destruct rest; [assumption|]. now inversion Hp.
  - cbn [fst]. rewrite Hpre in Hp. now apply positive_sizes_app in Hp.
Qed.

(** The run of lines 69-96 leaves the images and the height that
    [next_shelf] gives. *)
Lemma shelf_step_next (page_w_px padding y : Z) (rest : list size)
    (placements : list placement) :
  positive_sizes rest -> rest <> [] -> 2 * padding < page_w_px ->
  exists placements',
    shelf_step page_w_px padding y rest placements =
      Done (fst (next_shelf page_w_px padding rest),
            snd (next_shelf page_w_px padding rest), placements').
Proof.
  intros Hp Hne HW. rewrite (shelf_step_eq _ _ _ _ _ Hp). unfold next_shelf.
  destruct (shelf_taken page_w_px padding rest padding) as [|t taken].
  - destruct rest as [|s rest]; [congruence|].
    inversion Hp as [|? ? [Hw _] _]; subst.
    rewrite (fallback_size_eq _ _ _ _ HW Hw). cbn [bind fst snd tl].
    eexists. reflexivity.
  - eexists. reflexivity.
Qed.

(** ** The number of pages *)

Lemma page_loop_count (page_w_px page_h_px padding : Z) :
  2 * padding < page_w_px ->
  forall gas rest y placements,
    positive_sizes rest -> (length rest <= gas)%nat -> rest <> [] ->
    y < page_h_px - padding ->
    exists rest' placements',
      page_loop gas page_w_px page_h_px padding rest y placements =
        Done (rest', placements') /\
      positive_sizes rest' /\ (length rest' < length rest)%nat /\
      page_breaks page_h_px padding y (shelf_heights page_w_px padding rest) =
        match rest' with
        | [] => 0%nat
        | _ :: _ =>
            S (page_breaks page_h_px padding padding
                 (shelf_heights page_w_px padding rest'))
        end.
Proof.
  intros HW.
  induction gas as [|gas IH]; intros rest y placements Hp Hgas Hne Hy.
  - destruct rest; [congruence|simpl in Hgas; lia].
  - cbn [page_loop].
    assert (Hcond : (y <? page_h_px - padding)
                    && negb (length rest =? 0)%nat = true).
    { apply andb_true_iff. split; [now apply Z.ltb_lt|now apply nonempty_test]. }
    rewrite Hcond.
    destruct (shelf_step_next page_w_px padding y rest placements Hp Hne HW)
      as [placements1 Hstep].
    rewrite Hstep. cbn [bind].
    rewrite (shelf_heights_cons _ _ _ Hne). cbn [page_breaks].
    pose proof (next_shelf_shorter page_w_px padding rest Hne) as Hlt.
    pose proof (next_shelf_positive page_w_px padding rest Hp) as Hp1.
    destruct (next_shelf page_w_px padding rest) as [rest1 sh].
    cbn [fst snd] in *.
    rewrite shelf_heights_empty.
    destruct ((y + (sh + padding) >=? page_h_px - padding)
              && negb (length rest1 =? 0)%nat) eqn:Hbrk.
    + exists rest1, placements1.
      apply andb_true_iff in Hbrk. destruct Hbrk as [_ Hne1].
      apply nonempty_test in Hne1.
      destruct rest1; [congruence|]. repeat split; assumption || lia.
    + destruct rest1 as [|s1 rest1].
      * exists [], placements1.
        destruct gas; cbn [page_loop]; rewrite andb_false_r;
          repeat split; assumption || (simpl; lia) || reflexivity.
      * apply andb_false_iff in Hbrk.
        destruct Hbrk as [Hy'|Hc]; [|simpl in Hc; discriminate].
        destruct (IH (s1 :: rest1) (y + (sh + padding)) placements1 Hp1
                    ltac:(lia) ltac:(discriminate)
                    ltac:(rewrite Z.geb_leb in Hy'; apply Z.leb_gt in Hy'; lia))
          as (rest2 & placements2 & Hrun & Hp2 & Hlt2 & Hbr).
        exists rest2, placements2.
        repeat split; assumption || lia.
Qed.

Lemma page_count_heights (page_w_px page_h_px padding : Z) (rest : list size) :
  page_count page_h_px padding (shelf_heights page_w_px padding rest) =
  match rest with
  | [] => 0%nat
  | _ :: _ =>
      S (page_breaks page_h_px padding padding
           (shelf_heights page_w_px padding rest))
  end.
Proof.
  destruct rest as [|s rest]; [reflexivity|].
  rewrite shelf_heights_cons by discriminate. reflexivity.
Qed.

(** On images of positive size and with room between the paddings,
    [pack_images_shelf] returns [page_count] pages. *)
Lemma pages_loop_count (page_w_px page_h_px padding : Z) (budget : nat) :
  2 * padding < page_w_px -> 2 * padding < page_h_px ->
  forall gas rest pages,
    positive_sizes rest ->
    (length rest <= gas)%nat -> (length rest <= budget)%nat ->
    exists pages',
      pages_loop gas budget page_w_px page_h_px padding rest pages =
        Done pages' /\
      length pages' =
        (length pages +
         page_count page_h_px padding
           (shelf_heights page_w_px padding rest))%nat.
Proof.
  intros HW HH.
  induction gas as [|gas IH]; intros rest pages Hp Hgas Hbud.
  - destruct rest; [|simpl in Hgas; lia].
    exists pages. split; [reflexivity|]. simpl. lia.
  - destruct rest as [|s rest].
    { exists pages. split; [reflexivity|]. simpl. lia. }
    cbn [pages_loop length Nat.eqb negb].
    destruct (page_loop_count page_w_px page_h_px padding HW budget
                (s :: rest) padding [] Hp Hbud ltac:(discriminate)
                ltac:(lia))
      as (rest' & placements' & Hrun & Hp' & Hlt & Hbr).
    rewrite Hrun. cbn [bind].
    destruct (IH rest' (pages ++ [placements']) Hp'
                ltac:(simpl in *; lia) ltac:(simpl in *; lia))
      as (pages' & Hrec & Hlen).
    exists pages'. split; [exact Hrec|].
    rewrite Hlen, length_app, (page_count_heights _ _ _ (s :: rest)), Hbr.
    rewrite page_count_heights. cbn [length]. destruct rest'; lia.
Qed.

(** ** More or taller shelves do not make fewer pages *)

Lemma dominated_nonempty (lo hi : list Z) :
  dominated lo hi -> lo <> [] -> hi <> [].
Proof. intros D Hne. destruct D; congruence. Qed.

Lemma page_breaks_dominated (page_h_px padding : Z) :
  0 <= padding ->
  forall lo hi, dominated lo hi -> Forall (fun e => 0 <= e) hi ->
    (forall y_lo y_hi, y_lo <= y_hi ->
       (page_breaks page_h_px padding y_lo lo <=
        page_breaks page_h_px padding y_hi hi)%nat) /\
    (forall y_lo y_hi, padding <= y_hi ->
       (page_breaks page_h_px padding y_lo lo <=
        S (page_breaks page_h_px padding y_hi hi))%nat).
Proof.
  intros Hpad lo hi D.
  induction D as [hi|lo e hi D IH|e_lo lo e_hi hi He D IH]; intros Hnn.
  - split; intros; simpl; lia.
  - inversion Hnn as [|? ? He Hnn']; subst.
    destruct (IH Hnn') as [IH1 IH2].
    split; intros y_lo y_hi Hy; cbn [page_breaks];
      destruct ((y_hi + (e + padding) >=? page_h_px - padding)
                && negb (length hi =? 0)%nat).
    + specialize (IH2 y_lo padding ltac:(lia)). lia.
    + apply IH1. lia.
    + specialize (IH2 y_lo padding ltac:(lia)). lia.
    + apply IH2. lia.
  - inversion Hnn as [|? ? Hehi Hnn']; subst.
    destruct (IH Hnn') as [IH1 IH2].
    split; intros y_lo y_hi Hy; cbn [page_breaks];
      destruct ((y_lo + (e_lo + padding) >=? page_h_px - padding)
                && negb (length lo =? 0)%nat) eqn:Blo;
      destruct ((y_hi + (e_hi + padding) >=? page_h_px - padding)
                && negb (length hi =? 0)%nat) eqn:Bhi.
    + specialize (IH1 padding padding ltac:(lia)). lia.
    + exfalso. apply andb_true_iff in Blo. destruct Blo as [B1 B2].
      apply nonempty_test in B2.
      apply (dominated_nonempty _ _ D), nonempty_test in B2.
      rewrite B2, andb_true_r in Bhi.
      rewrite Z.geb_leb in B1, Bhi.
      apply Z.leb_le in B1. apply Z.leb_gt in Bhi. lia.
    + specialize (IH2 (y_lo + (e_lo + padding)) padding ltac:(lia)). lia.
    + apply IH1. lia.
    + specialize (IH1 padding padding ltac:(lia)). lia.
    + specialize (IH1 padding (y_hi + (e_hi + padding)) ltac:(lia)). lia.
    + specialize (IH2 (y_lo + (e_lo + padding)) padding ltac:(lia)). lia.
    + specialize (IH2 (y_lo + (e_lo + padding)) (y_hi + (e_hi + padding))
                    ltac:(lia)). lia.
Qed.

Lemma page_count_dominated (page_h_px padding : Z) (lo hi : list Z) :
  0 <= padding -> dominated lo hi -> Forall (fun e => 0 <= e) hi ->
  (page_count page_h_px padding lo <= page_count page_h_px padding hi)%nat.
Proof.
  intros Hpad D Hnn.
  destruct lo as [|e lo]; [simpl; lia|].
  pose proof (dominated_nonempty _ _ D ltac:(discriminate)) as Hne.
  destruct hi as [|e' hi]; [congruence|].
  unfold page_count.
  destruct (page_breaks_dominated page_h_px padding Hpad _ _ D Hnn) as [H1 _].
  specialize (H1 padding padding ltac:(lia)). lia.
Qed.

(** ** Lists with some elements removed *)

Lemma subseq_refl {A : Type} (l : list A) : subseq l l.
Proof. induction l; constructor; assumption. Qed.

Lemma subseq_nil_r {A : Type} (l : list A) : subseq l [] -> l = [].
Proof. intros H. now inversion H. Qed.

Lemma subseq_In {A : Type} (l1 l2 : list A) (x : A) :
  subseq l1 l2 -> In x l1 -> In x l2.
Proof.
  induction 1 as [l|l1 a l2 _ IH|a l1 l2 _ IH]; simpl; intros Hin.
  - destruct Hin.
  - right. now apply IH.
  - destruct Hin as [->|Hin]; [now left|right; now apply IH].
Qed.

Lemma subseq_Forall {A : Type} (P : A -> Prop) (l1 l2 : list A) :
  subseq l1 l2 -> Forall P l2 -> Forall P l1.
Proof.
  intros S HP. rewrite Forall_forall in *.
  intros x Hx. apply HP. eapply subseq_In; eassumption.
Qed.

Lemma subseq_length {A : Type} (l1 l2 : list A) :
  subseq l1 l2 -> (length l1 <= length l2)%nat.
Proof. induction 1; simpl; lia. Qed.

Lemma subseq_app_inv {A : Type} (l1 l2 : list A) :
  forall l, subseq l (l1 ++ l2) ->
    exists a b, l = a ++ b /\ subseq a l1 /\ subseq b l2.
Proof.
  induction l1 as [|x l1 IH]; intros l S; simpl in S.
  - exists [], l. repeat split; [constructor|assumption].
  - inversion S as [l'|l' x' l2' S'|x' l' l2' S']; subst.
    + exists [], []. repeat split; constructor.
    + destruct (IH _ S') as (a & b & -> & Sa & Sb).
      exists a, b. repeat split; [now constructor|assumption].
    + destruct (IH _ S') as (a & b & -> & Sa & Sb).
      exists (x :: a), b. repeat split; [now constructor|assumption].
Qed.

Lemma subseq_suffix {A : Type} (l1 l2 : list A) :
  forall l, subseq (l1 ++ l2) l -> subseq l2 l.
Proof.
  induction l1 as [|x l1 IH]; intros l S; [exact S|].
  simpl in S. remember (x :: l1 ++ l2) as k eqn:Ek.
  induction S as [l|k a l S IHS|a k l S IHS]; [discriminate| |].
  - constructor. now apply IHS.
  - injection Ek as -> ->. constructor. now apply IH.
Qed.

(** ** Images that fit a shelf *)

Lemma fits_taken (page_w_px padding : Z) (rest : list size) :
  forall x, fits page_w_px padding (shelf_taken page_w_px padding rest x) x.
Proof.
  induction rest as [|s rest IH]; intros x; simpl; [exact I|].
  destruct (sz_w s + x + padding <=? page_w_px) eqn:E; simpl; [|exact I].
  split; [now apply Z.leb_le|apply IH].
Qed.

Lemma shelf_taken_app_fits (page_w_px padding : Z) (l r : list size) :
  forall x, fits page_w_px padding l x ->
    shelf_taken page_w_px padding (l ++ r) x =
    l ++ shelf_taken page_w_px padding r (row_end padding l x).
Proof.
  induction l as [|s l IH]; intros x F; simpl; [reflexivity|].
  destruct F as [F1 F2]. apply Z.leb_le in F1. rewrite F1.
  f_equal. now apply IH.
Qed.

Lemma fits_subseq (page_w_px padding : Z) (o t : list size) :
  0 <= padding -> subseq o t -> positive_sizes t ->
  forall x_o x_t, x_o <= x_t ->
    fits page_w_px padding t x_t -> fits page_w_px padding o x_o.
Proof.
  intros Hpad S.
  induction S as [t|o a t S IH|a o t S IH]; intros Hp x_o x_t Hx F.
  - exact I.
  - inversion Hp as [|? ? [Hw _] Hp']; subst. destruct F as [_ F].
    apply (IH Hp' x_o (x_t + (sz_w a + padding))); [lia|assumption].
  - inversion Hp as [|? ? [Hw _] Hp']; subst. destruct F as [F1 F2].
    split; [lia|].
    apply (IH Hp' _ (x_t + (sz_w a + padding))); [lia|assumption].
Qed.

Lemma tallest_le (l : list size) (m : Z) :
  Forall (fun s => sz_h s <= m) l ->
  forall sh, sh <= m -> tallest l sh <= m.
Proof.
  induction 1 as [|s l Hs _ IH]; intros sh Hsh; simpl; [assumption|].
  apply IH. destruct (sz_h s >? sh); assumption.
Qed.

(** ** Lists sorted by height *)

Lemma sorted_desc_app (l1 l2 : list size) :
  sorted_desc (l1 ++ l2) ->
  sorted_desc l2 /\
  forall a b, In a l1 -> In b l2 -> sz_h b <= sz_h a.
Proof.
  unfold sorted_desc. induction l1 as [|x l1 IH]; simpl; intros HS.
  - split; [assumption|]. intros a b [].
  - inversion HS as [|? ? HS' Hx]; subst.
    destruct (IH HS') as [S2 Hab]. split; [assumption|].
    intros a b [<-|Ha] Hb.
    + rewrite Forall_forall in Hx. apply Hx, in_or_app. now right.
    + now apply Hab.
Qed.

(** ** Removing images does not add or raise shelves *)

Lemma next_shelf_fallback (page_w_px padding : Z) (a : size) (l : list size) :
  (sz_w a + padding + padding <=? page_w_px) = false ->
  next_shelf page_w_px padding (a :: l) =
    (l, fallback_height page_w_px padding a).
Proof. intros T. unfold next_shelf. cbn [shelf_taken]. now rewrite T. Qed.

Lemma next_shelf_taken (page_w_px padding : Z) (rest : list size)
    (t : size) (taken : list size) :
  shelf_taken page_w_px padding rest padding = t :: taken ->
  next_shelf page_w_px padding rest =
    (skipn (length (t :: taken)) rest, tallest (t :: taken) 0).
Proof. intros E. unfold next_shelf. now rewrite E. Qed.

Lemma next_shelf_height_nonneg (page_w_px padding : Z) (rest : list size) :
  positive_sizes rest -> 2 * padding < page_w_px ->
  0 <= snd (next_shelf page_w_px padding rest).
Proof.
  intros Hp HW. unfold next_shelf.
  destruct (shelf_taken page_w_px padding rest padding) as [|t taken].
  - destruct rest as [|s rest]; cbn [snd]; [lia|].
    inversion Hp as [|? ? [Hw Hh] _]; subst.
    apply py_round_nonneg, scaled_nonneg; lia.
  - cbn [snd]. apply tallest_ge.
Qed.

Lemma shelf_heights_nonneg (page_w_px padding : Z) :
  2 * padding < page_w_px ->
  forall n rest, (length rest <= n)%nat -> positive_sizes rest ->
    Forall (fun e => 0 <= e) (shelf_heights page_w_px padding rest).
Proof.
  intros HW. induction n as [|n IH]; intros rest Hn Hp.
  - destruct rest; [constructor|simpl in Hn; lia].
  - destruct rest as [|s rest]; [constructor|].
    rewrite shelf_heights_cons by discriminate.
    pose proof (next_shelf_shorter page_w_px padding (s :: rest)
                  ltac:(discriminate)) as Hlt.
    constructor.
    + now apply next_shelf_height_nonneg.
    + apply IH; [simpl in *; lia|now apply next_shelf_positive].
Qed.

Lemma shelf_heights_dominated (page_w_px padding : Z) :
  0 <= padding ->
  forall n new old,
    (length new <= n)%nat -> subseq old new ->
    positive_sizes new -> sorted_desc new ->
    dominated (shelf_heights page_w_px padding old)
              (shelf_heights page_w_px padding new).
Proof.
  intros Hpad. induction n as [|n IH]; intros new old Hn S Hp Hs.
  { destruct new; [|simpl in Hn; lia].
    apply subseq_nil_r in S. subst. constructor. }
  destruct old as [|b old]; [constructor|].
  destruct new as [|a new]; [inversion S|].
  rewrite (shelf_heights_cons _ _ (a :: new)) by discriminate.
  pose proof (next_shelf_shorter page_w_px padding (a :: new)
                ltac:(discriminate)) as Hlt.
  destruct (shelf_taken page_w_px padding (a :: new) padding)
    as [|t taken] eqn:E.
  - (* the first image of [new] is too wide *)
    cbn [shelf_taken] in E.
    destruct (sz_w a + padding + padding <=? page_w_px) eqn:T;
      [discriminate|].
    rewrite (next_shelf_fallback _ _ _ _ T). cbn [fst snd].
    inversion Hp as [|? ? _ Hp']; subst.
    inversion Hs as [|? ? Hs' _]; subst.
    inversion S as [|? ? ? S'|? ? ? S']; subst.
    + apply dominated_skip. apply IH; [simpl in Hn; lia|assumption..].
    + rewrite (shelf_heights_cons _ _ (a :: old)) by discriminate.
      rewrite (next_shelf_fallback _ _ _ _ T). cbn [fst snd].
      apply dominated_both; [lia|].
      apply IH; [simpl in Hn; lia|assumption..].
  - (* a shelf of [new] with the images [t :: taken] *)
    rewrite (next_shelf_taken _ _ _ _ _ E) in *. cbn [fst snd] in *.
    pose proof (shelf_taken_prefix page_w_px padding (a :: new) padding)
      as Hpre.
    cbn zeta in Hpre. rewrite E in Hpre.
    set (new_r := skipn (length (t :: taken)) (a :: new)) in *.
    rewrite Hpre in S, Hp, Hs.
    apply positive_sizes_app in Hp. destruct Hp as [Hpt Hpr].
    destruct (sorted_desc_app _ _ Hs) as [Hsr Hord].
    destruct (subseq_app_inv _ _ _ S) as (o1 & o2 & Eold & S1 & S2).
    assert (IHr : forall o, subseq o new_r ->
              dominated (shelf_heights page_w_px padding o)
                        (shelf_heights page_w_px padding new_r)).
    { intros o So. apply IH; [lia|assumption..]. }
    destruct o1 as [|b1 o1].
    + simpl in Eold. rewrite Eold. apply dominated_skip. now apply IHr.
    + rewrite Eold.
      assert (F : fits page_w_px padding (b1 :: o1) padding).
      { apply (fits_subseq _ _ _ (t :: taken) Hpad S1 Hpt padding padding);
          [lia|].
        rewrite <- E. apply fits_taken. }
      pose proof (shelf_taken_app_fits page_w_px padding (b1 :: o1) o2
                    padding F) as Eo.
      set (extra := shelf_taken page_w_px padding o2
                      (row_end padding (b1 :: o1) padding)) in *.
      rewrite (shelf_heights_cons _ _ ((b1 :: o1) ++ o2)) by discriminate.
      cbn [app] in Eo |- *.
      rewrite (next_shelf_taken _ _ _ _ _ Eo). cbn [fst snd].
      pose proof (shelf_taken_prefix page_w_px padding o2
                    (row_end padding (b1 :: o1) padding)) as Hpre2.
      cbn zeta in Hpre2. fold extra in Hpre2.
      apply dominated_both.
      * (* the shelf of [old] is not taller *)
        apply tallest_le; [|apply tallest_ge].
        change (b1 :: o1 ++ extra) with ((b1 :: o1) ++ extra).
        apply Forall_app. split.
        -- apply (subseq_Forall _ _ _ S1), tallest_bound.
        -- apply Forall_forall. intros x Hx.
           assert (Hx2 : In x new_r).
           { apply (subseq_In _ _ _ S2). rewrite Hpre2.
             apply in_or_app. now left. }
           pose proof (Hord t x (or_introl eq_refl) Hx2) as Hxt.
           pose proof (tallest_bound (t :: taken) 0) as Hb.
           inversion Hb; subst. lia.
      * (* what [old] leaves unread is still a part of what [new] leaves *)
        apply IHr.
        change (length (b1 :: o1 ++ extra))
          with (length ((b1 :: o1) ++ extra)).
        change (b1 :: o1 ++ o2) with ((b1 :: o1) ++ o2).
        rewrite length_app, skipn_app.
        rewrite skipn_all2 by lia. cbn [app].
        replace (length (b1 :: o1) + length extra - length (b1 :: o1))%nat
          with (length extra) by lia.
        apply (subseq_suffix extra). now rewrite <- Hpre2.
Qed.

(** ** The ordering of [main] *)

Lemma sort_desc_snoc (l : list size) (s : size) :
  sort_desc (l ++ [s]) = insert_desc s (sort_desc l).
Proof. unfold sort_desc. now rewrite fold_left_app. Qed.

Lemma insert_desc_Forall (P : size -> Prop) (s : size) (l : list size) :
  Forall P (insert_desc s l) <-> P s /\ Forall P l.
Proof.
  induction l as [|t l IH]; simpl.
  - split; [intros H; inversion H; auto|intros [H1 H2]; auto].
  - destruct (sz_h t <? sz_h s).
    + split; [intros H; inversion H; auto|intros [H1 H2]; auto].
    + split.
      * intros H. inversion H as [|? ? Ht Hl]; subst.
        apply IH in Hl. destruct Hl. auto.
      * intros [Hs Hl]. inversion Hl; subst.
        constructor; [assumption|]. apply IH. auto.
Qed.

Lemma insert_desc_subseq (s : size) (l : list size) :
  subseq l (insert_desc s l).
Proof.
  induction l as [|t l IH]; simpl; [constructor|].
  destruct (sz_h t <? sz_h s).
  - apply subseq_skip, subseq_refl.
  - now apply subseq_cons.
Qed.

Lemma insert_desc_sorted (s : size) (l : list size) :
  sorted_desc l -> sorted_desc (insert_desc s l).
Proof.
  unfold sorted_desc.
  induction 1 as [|t l Hl IH Ht]; simpl.
  - constructor; constructor.
  - destruct (sz_h t <? sz_h s) eqn:E.
    + apply Z.ltb_lt in E. constructor; [now constructor|].
      constructor; [lia|].
      eapply Forall_impl; [|exact Ht]. cbn beta. intros b. lia.
    + apply Z.ltb_ge in E. constructor; [assumption|].
      apply insert_desc_Forall. split; assumption.
Qed.

Lemma insert_desc_perm (s : size) (l : list size) :
  Permutation (insert_desc s l) (s :: l).
Proof.
  induction l as [|t l IH]; simpl; [apply Permutation_refl|].
  destruct (sz_h t <? sz_h s); [apply Permutation_refl|].
  eapply Permutation_trans; [apply perm_skip, IH|apply perm_swap].
Qed.

Lemma sort_desc_invariant (P : list size -> Prop) :
  (forall s acc, P acc -> P (insert_desc s acc)) ->
  forall l acc, P acc -> P (fold_left (fun acc s => insert_desc s acc) l acc).
Proof.
  intros Hins. induction l as [|s l IH]; intros acc Hacc; simpl;
    [assumption|].
  apply IH, Hins. assumption.
Qed.

Lemma sort_desc_sorted (l : list size) : sorted_desc (sort_desc l).
Proof.
  unfold sort_desc. apply (sort_desc_invariant sorted_desc).
  - intros s acc. apply insert_desc_sorted.
  - constructor.
Qed.

Lemma sort_desc_perm_acc (l : list size) :
  forall acc,
    Permutation (fold_left (fun acc s => insert_desc s acc) l acc) (l ++ acc).
Proof.
  induction l as [|s l IH]; intros acc; simpl; [apply Permutation_refl|].
  eapply Permutation_trans; [apply IH|].
  eapply Permutation_trans;
    [apply Permutation_app_head, insert_desc_perm|].
  apply Permutation_sym, Permutation_middle.
Qed.

(** The ordering of line 158 is a permutation of [sizes] sorted by
    descending height. *)
Lemma sort_desc_perm (l : list size) : Permutation (sort_desc l) l.
Proof.
  unfold sort_desc. rewrite <- (app_nil_r l) at 2. apply sort_desc_perm_acc.
Qed.

Lemma sort_desc_positive (l : list size) :
  positive_sizes l -> positive_sizes (sort_desc l).
Proof.
  unfold positive_sizes. intros Hp.
  eapply Permutation_Forall; [apply Permutation_sym, sort_desc_perm|].
  exact Hp.
Qed.

Lemma sort_desc_length (l : list size) : length (sort_desc l) = length l.
Proof. apply Permutation_length, sort_desc_perm. Qed.

Lemma filter_none (k : Z) (l : list size) :
  Forall (fun t => sz_h t < k) l -> filter (fun t => sz_h t =? k) l = [].
Proof.
  induction 1 as [|t l Ht _ IH]; simpl; [reflexivity|].
  destruct (sz_h t =? k) eqn:E; [apply Z.eqb_eq in E; lia|assumption].
Qed.

Lemma insert_desc_filter (k : Z) (s : size) (l : list size) :
  sorted_desc l ->
  filter (fun t => sz_h t =? k) (insert_desc s l) =
  filter (fun t => sz_h t =? k) l ++ (if sz_h s =? k then [s] else []).
Proof.
  unfold sorted_desc.
  induction 1 as [|t l Hl IH Ht]; simpl.
  - destruct (sz_h s =? k); reflexivity.
  - destruct (sz_h t <? sz_h s) eqn:E.
    + apply Z.ltb_lt in E. cbn [filter].
      destruct (sz_h s =? k) eqn:Ek; [|now rewrite app_nil_r].
      apply Z.eqb_eq in Ek.
      rewrite (filter_none k l).
      * destruct (sz_h t =? k) eqn:Et; [apply Z.eqb_eq in Et; lia|].
        reflexivity.
      * eapply Forall_impl; [|exact Ht]. cbn beta. intros b. lia.
    + cbn [filter]. rewrite IH.
      destruct (sz_h t =? k); reflexivity.
Qed.

Lemma sort_desc_stable_acc (k : Z) (l : list size) :
  forall acc, sorted_desc acc ->
    filter (fun t => sz_h t =? k)
      (fold_left (fun acc s => insert_desc s acc) l acc) =
    filter (fun t => sz_h t =? k) acc ++ filter (fun t => sz_h t =? k) l.
Proof.
  induction l as [|s l IH]; intros acc Hs; simpl.
  - now rewrite app_nil_r.
  - rewrite IH by now apply insert_desc_sorted.
    rewrite insert_desc_filter by assumption.
    rewrite <- app_assoc. f_equal.
    destruct (sz_h s =? k); reflexivity.
Qed.

(** Images of the same height keep the order they had in [sizes]: with
    [sort_desc_sorted] and [sort_desc_perm], this makes [sort_desc] the
    stable sort by descending height. *)
Lemma sort_desc_stable (k : Z) (l : list size) :
  filter (fun t => sz_h t =? k) (sort_desc l) =
  filter (fun t => sz_h t =? k) l.
Proof.
  unfold sort_desc. rewrite sort_desc_stable_acc by constructor.
  reflexivity.
Qed.

(** ** Monotonic page growth *)

Lemma pack_count (images_sizes : list size) (page_w_px page_h_px padding : Z) :
  positive_sizes images_sizes ->
  2 * padding < page_w_px -> 2 * padding < page_h_px ->
  (forall gas, (length images_sizes <= gas)%nat ->
     exists pages,
       pack_images_shelf gas images_sizes page_w_px page_h_px padding =
         Done pages) /\
  (forall gas pages,
     pack_images_shelf gas images_sizes page_w_px page_h_px padding =
       Done pages ->
     length pages =
       page_count page_h_px padding
         (shelf_heights page_w_px padding images_sizes)).
Proof.
  intros Hp HW HH.
  assert (Hret : forall gas, (length images_sizes <= gas)%nat ->
            exists pages,
              pack_images_shelf gas images_sizes page_w_px page_h_px padding =
                Done pages /\
              length pages =
                page_count page_h_px padding
                  (shelf_heights page_w_px padding images_sizes)).
  { intros gas Hgas. unfold pack_images_shelf.
    destruct (pages_loop_count page_w_px page_h_px padding gas HW HH gas
                images_sizes [] Hp Hgas Hgas) as (pages & Hrun & Hlen).
    exists pages. split; [assumption|]. simpl in Hlen. exact Hlen. }
  split.
  - intros gas Hgas. destruct (Hret gas Hgas) as (pages & Hrun & _).
    now exists pages.
  - intros gas pages Hrun.
    destruct (Hret (length images_sizes) (le_n _)) as (pages' & Hrun' & Hlen).
    now rewrite (pack_from_gas _ _ _ _ _ _ Hrun' _ _ Hrun).
Qed.

(** C9. With the configuration fixed and a non-negative padding, for sizes
    of positive width and height: whenever packing the sorted list [l] and
    packing the sorted list [l ++ [s]] both return, the second returns at
    least as many pages as the first; and when the page is wider and higher
    than twice the padding both do return, with any gas above the number
    of images of [l]. *)
Theorem monotonic_page_growth (l : list size) (s : size)
    (page_w_px page_h_px padding : Z) :
  positive_sizes l -> positive_size s -> 0 <= padding ->
  (forall gas gas' pages pages',
     pack_images_shelf gas (sort_desc l) page_w_px page_h_px padding =
       Done pages ->
     pack_images_shelf gas' (sort_desc (l ++ [s])) page_w_px page_h_px padding =
       Done pages' ->
     (length pages <= length pages')%nat) /\
  (2 * padding < page_w_px -> 2 * padding < page_h_px ->
   forall gas, (length l < gas)%nat ->
     exists pages pages',
       pack_images_shelf gas (sort_desc l) page_w_px page_h_px padding =
         Done pages /\
       pack_images_shelf gas (sort_desc (l ++ [s])) page_w_px page_h_px padding =
         Done pages' /\
       (length pages <= length pages')%nat).
Proof.
  intros Hpl Hps Hpad.
  assert (Hp1 : positive_sizes (sort_desc l)) by now apply sort_desc_positive.
  assert (Hp2 : positive_sizes (sort_desc (l ++ [s]))).
  { apply sort_desc_positive, Forall_app. split; [assumption|].
    now constructor. }
  assert (Hmono : 2 * padding < page_w_px -> 2 * padding < page_h_px ->
            (page_count page_h_px padding
               (shelf_heights page_w_px padding (sort_desc l)) <=
             page_count page_h_px padding
               (shelf_heights page_w_px padding (sort_desc (l ++ [s]))))%nat).
  { intros HW HH. apply page_count_dominated; [assumption| |].
    - apply (shelf_heights_dominated page_w_px padding Hpad
               (length (sort_desc (l ++ [s]))));
        [apply le_n| |assumption|apply sort_desc_sorted].
      rewrite sort_desc_snoc. apply insert_desc_subseq.
    - now apply (shelf_heights_nonneg page_w_px padding HW
                   (length (sort_desc (l ++ [s])))). }
  split.
  - intros gas gas' pages pages' Hrun Hrun'.
    destruct (pack_done_inv _ _ _ _ _ _ Hp2 Hrun')
      as [[Enil _]|(_ & HW & HH & _)].
    { apply (f_equal (@length size)) in Enil.
      rewrite sort_desc_length, length_app in Enil. simpl in Enil. lia. }
    destruct (pack_count _ _ _ _ Hp1 HW HH) as [_ C1].
    destruct (pack_count _ _ _ _ Hp2 HW HH) as [_ C2].
    rewrite (C1 _ _ Hrun), (C2 _ _ Hrun'). now apply Hmono.
  - intros HW HH gas Hgas.
    destruct (pack_count _ _ _ _ Hp1 HW HH) as [R1 C1].
    destruct (pack_count _ _ _ _ Hp2 HW HH) as [R2 C2].
    destruct (R1 gas) as [pages Hrun];
      [rewrite sort_desc_length; lia|].
    destruct (R2 gas) as [pages' Hrun'];
      [rewrite sort_desc_length, length_app; simpl; lia|].
    exists pages, pages'. split; [assumption|]. split; [assumption|].
    rewrite (C1 _ _ Hrun), (C2 _ _ Hrun'). now apply Hmono.
Qed.

Lemma monotonic_page_growth_witness :
  exists pages pages',
    pack_images_shelf 6 (sort_desc scenario_c) 300 300 10 = Done pages /\
    pack_images_shelf 6 (sort_desc (scenario_c ++ [mkSize 250 50 5]))
      300 300 10 = Done pages' /\
    (length pages <= length pages')%nat.
Proof.
  destruct (monotonic_page_growth scenario_c (mkSize 250 50 5) 300 300 10)
    as [_ H].
  - unfold scenario_c. positive_list.
  - split; reflexivity.
  - discriminate.
  - apply H; [reflexivity|reflexivity|].
    unfold scenario_c. cbn [length]. lia.
Defined.

(** * Further properties of the layout engine *)

#[local] Arguments Z.mul : simpl never.
#[local] Arguments Z.add : simpl never.
#[local] Arguments Z.sub : simpl never.

(** ** Placements that keep their distance *)

Lemma padded_apart_sym (padding : Z) (a b : placement) :
  padded_apart padding a b -> padded_apart padding b a.
Proof. unfold padded_apart. tauto. Qed.

Lemma pairwise_padded_nil (padding : Z) : pairwise_padded padding [].
Proof. intros i j a b _ Hi. destruct i; discriminate. Qed.

Lemma pairwise_padded_one (padding : Z) (a : placement) :
  pairwise_padded padding [a].
Proof.
  intros i j x y Hij Hi Hj.
  destruct i as [|i]; destruct j as [|j]; try congruence;
    simpl in *; try (destruct i; discriminate); destruct j; discriminate.
Qed.

Lemma pairwise_padded_app (padding : Z) (l1 l2 : list placement) :
  pairwise_padded padding l1 -> pairwise_padded padding l2 ->
  (forall a b, In a l1 -> In b l2 -> padded_apart padding a b) ->
  pairwise_padded padding (l1 ++ l2).
Proof.
  intros H1 H2 H12 i j a b Hij Hi Hj.
  destruct (Nat.lt_ge_cases i (length l1)) as [Li|Li];
    destruct (Nat.lt_ge_cases j (length l1)) as [Lj|Lj].
  - rewrite nth_error_app1 in Hi, Hj by assumption. eapply H1; eauto.
  - rewrite nth_error_app1 in Hi by assumption.
    rewrite nth_error_app2 in Hj by assumption.
    apply H12; eauto using nth_error_In.
  - rewrite nth_error_app2 in Hi by assumption.
    rewrite nth_error_app1 in Hj by assumption.
    apply padded_apart_sym. apply H12; eauto using nth_error_In.
  - rewrite nth_error_app2 in Hi, Hj by assumption.
    eapply (H2 (i - length l1)%nat (j - length l1)%nat); eauto. lia.
Qed.

(** With a non-negative padding, placements that keep their distance do
    not overlap. *)
Lemma padded_apart_no_overlap (padding : Z) (a b : placement) :
  0 <= padding -> padded_apart padding a b -> ~ interiors_meet a b.
Proof. unfold padded_apart, interiors_meet. lia. Qed.

(** ** Shelves of images that may have a zero dimension *)

Lemma positive_packable (page_w_px padding : Z) (l : list size) :
  positive_sizes l -> Forall (packable page_w_px padding) l.
Proof.
  apply Forall_impl. intros s [Hw Hh]. unfold packable.
  repeat split; lia.
Qed.

Lemma shelf_taken_packable (page_w_px padding : Z) (rest : list size) :
  0 <= padding -> Forall (packable page_w_px padding) rest ->
  forall x, padding <= x ->
    Forall (fun s => 0 <= sz_w s /\ 0 < sz_h s /\
                     sz_w s + 2 * padding <= page_w_px)
           (shelf_taken page_w_px padding rest x).
Proof.
  intros Hpad Hp.
  induction Hp as [|s rest (Hw & Hh & Hz) _ IH]; intros x Hx;
    cbn [shelf_taken]; [constructor|].
  destruct (sz_w s + x + padding <=? page_w_px) eqn:E; [|constructor].
  apply Z.leb_le in E. constructor.
  - repeat split; lia.
  - apply IH. lia.
Qed.

Lemma tallest_attained (taken : list size) :
  forall sh, tallest taken sh = sh \/
             exists s, In s taken /\ sz_h s = tallest taken sh.
Proof.
  induction taken as [|s taken IH]; intros sh; simpl; [now left|].
  destruct (sz_h s >? sh) eqn:E.
  - destruct (IH (sz_h s)) as [->|(t & Ht & Et)].
    + right. exists s. split; [now left|reflexivity].
    + right. exists t. split; [now right|assumption].
  - destruct (IH sh) as [->|(t & Ht & Et)]; [now left|].
    right. exists t. split; [now right|assumption].
Qed.

Section RowOfAnySize.
Variables (page_w_px padding y : Z).
Hypothesis padding_nonneg : 0 <= padding.

Let fitting (s : size) : Prop :=
  0 <= sz_w s /\ 0 < sz_h s /\ sz_w s + 2 * padding <= page_w_px.

Lemma row_sizes (taken : list size) :
  Forall fitting taken ->
  forall x, map placement_size (row padding y taken x) =
            map (placed_size page_w_px padding) taken.
Proof.
  induction 1 as [|s taken (Hw & Hh & Hf) _ IH]; intros x; simpl;
    [reflexivity|].
  rewrite IH. f_equal. unfold placement_size, placed_size. simpl.
  destruct (sz_w s + 2 * padding <=? page_w_px) eqn:E; [reflexivity|].
  apply Z.leb_gt in E. lia.
Qed.

Lemma row_end_grows (taken : list size) :
  Forall fitting taken -> forall x, x <= row_end padding taken x.
Proof.
  induction 1 as [|s taken (Hw & _) _ IH]; intros x; simpl; [lia|].
  specialize (IH (x + (sz_w s + padding))). lia.
Qed.

Lemma row_layout (taken : list size) :
  Forall fitting taken ->
  forall x,
    Forall (fun p => pl_y p = y /\ x <= pl_x p /\ 0 <= pl_w p /\
                     pl_x p + pl_w p + padding <= row_end padding taken x /\
                     0 < pl_h p <= tallest taken 0)
           (row padding y taken x).
Proof.
  intros Hf. pose proof (tallest_bound taken 0) as Hb. revert Hb.
  generalize (tallest taken 0) as top.
  induction Hf as [|s taken (Hw & Hh & Hfit) Hf IH]; intros top Hb x; simpl;
    constructor.
  - simpl. inversion Hb; subst.
    pose proof (row_end_grows taken Hf (x + (sz_w s + padding))). lia.
  - inversion Hb; subst.
    specialize (IH top H2 (x + (sz_w s + padding))).
    eapply Forall_impl; [|exact IH]. cbn beta. intros p. lia.
Qed.

Lemma row_padded (taken : list size) :
  Forall fitting taken ->
  forall x, pairwise_padded padding (row padding y taken x).
Proof.
  induction 1 as [|s taken (Hw & Hh & Hfit) Hf IH]; intros x; simpl.
  - apply pairwise_padded_nil.
  - apply (pairwise_padded_app padding [_] _
             (pairwise_padded_one _ _) (IH _)).
    intros a b [<-|[]] Hb.
    pose proof (row_layout taken Hf (x + (sz_w s + padding))) as G.
    rewrite Forall_forall in G. specialize (G b Hb).
    unfold padded_apart. simpl. lia.
Qed.

Lemma row_height_In (taken : list size) (s : size) :
  In s taken ->
  forall x, exists p, In p (row padding y taken x) /\ pl_h p = sz_h s.
Proof.
  induction taken as [|t taken IH]; intros Hin x; [destruct Hin|].
  destruct Hin as [->|Hin].
  - eexists. split; [left; reflexivity|reflexivity].
  - destruct (IH Hin (x + (sz_w t + padding))) as (p & Hp & Eh).
    exists p. split; [now right|assumption].
Qed.
End RowOfAnySize.

(** What one run of lines 69-96 does on packable images: as
    [shelf_step_spec], and moreover the size written for each image, the
    distance kept between the placements, a placement as high as the shelf
    and the first placement at the left padding. *)
Lemma shelf_step_full (page_w_px padding y : Z) (rest : list size)
    (placements : list placement) :
  0 <= padding -> 2 * padding < page_w_px ->
  Forall (packable page_w_px padding) rest -> rest <> [] ->
  exists taken rest' shelf_height new,
    shelf_step page_w_px padding y rest placements =
      Done (rest', shelf_height, placements ++ new) /\
    rest = taken ++ rest' /\ taken <> [] /\
    map placement_size new = map (placed_size page_w_px padding) taken /\
    0 <= shelf_height /\
    Forall (fun p => pl_y p = y /\ padding <= pl_x p /\ 0 <= pl_w p /\
                     pl_x p + pl_w p <= page_w_px - padding /\
                     0 <= pl_h p <= shelf_height) new /\
    pairwise_padded padding new /\
    (exists p, In p new /\ pl_h p = shelf_height) /\
    (exists p new', new = p :: new' /\ pl_x p = padding).
Proof.
  intros Hpad HW Hp Hne. unfold shelf_step. rewrite shelf_loop_eq.
  pose proof (shelf_taken_prefix page_w_px padding rest padding) as Hpre.
  pose proof (shelf_taken_packable page_w_px padding rest Hpad Hp padding
                (Z.le_refl _)) as Hfit.
  cbn zeta in Hpre.
  destruct (shelf_taken page_w_px padding rest padding) as [|t taken] eqn:E.
  - (* nothing fits: the fallback branch *)
    cbn [tallest length skipn row app]. rewrite app_nil_r.
    change (0 =? 0) with true. cbv iota.
    destruct rest as [|s rest]; [congruence|].
    apply shelf_taken_nil in E.
    inversion Hp as [|? ? (Hw & Hh & _) _]; subst.
    assert (Hw0 : 0 < sz_w s) by lia.
    rewrite (fallback_size_eq _ _ _ _ HW Hw0). cbn [bind tl].
    fold (fallback_height page_w_px padding s).
    assert (Hnh : 0 <= fallback_height page_w_px padding s).
    { apply py_round_nonneg, scaled_nonneg; lia. }
    exists [s], rest, (fallback_height page_w_px padding s),
      [mkPlacement (sz_idx s) padding y (page_w_px - 2 * padding)
         (fallback_height page_w_px padding s)].
    split; [reflexivity|]. split; [reflexivity|]. split; [discriminate|].
    split.
    { cbn [map]. unfold placement_size, placed_size. cbn [pl_idx pl_w pl_h].
      destruct (sz_w s + 2 * padding <=? page_w_px) eqn:T;
        [apply Z.leb_le in T; lia|reflexivity]. }
    split; [assumption|].
    split; [constructor; [cbn [pl_x pl_y pl_w pl_h]; lia|constructor]|].
    split; [apply pairwise_padded_one|].
    split; eexists; [split; [left; reflexivity|reflexivity]|].
    eexists. split; reflexivity.
  - (* a shelf of the images [t :: taken] *)
    assert (Htop : 0 < tallest (t :: taken) 0).
    { pose proof (tallest_bound (t :: taken) 0) as Hb.
      inversion Hb; subst. inversion Hfit as [|? ? (_ & Hh & _) _]; subst.
      lia. }
    destruct (tallest (t :: taken) 0 =? 0) eqn:E0; [lia|].
    exists (t :: taken), (skipn (length (t :: taken)) rest),
      (tallest (t :: taken) 0), (row padding y (t :: taken) padding).
    split; [reflexivity|]. split; [assumption|]. split; [discriminate|].
    split; [now apply row_sizes|]. split; [lia|].
    split.
    { pose proof (row_layout page_w_px padding y Hpad (t :: taken) Hfit
                    padding) as G.
      pose proof (shelf_taken_end page_w_px padding rest padding
                    ltac:(lia)) as Hend.
      rewrite E in Hend.
      eapply Forall_impl; [|exact G]. cbn beta. intros p. lia. }
    split; [now apply (row_padded page_w_px)|].
    split.
    + destruct (tallest_attained (t :: taken) 0) as [E1|(s & Hs & Es)];
        [lia|].
      destruct (row_height_In padding y (t :: taken) s Hs padding)
        as (p & Hp' & Eh).
      exists p. split; [assumption|congruence].
    + cbn [row]. eexists. eexists. split; reflexivity.
Qed.

(** What the loop of lines 68-99 does on packable images: as
    [page_loop_spec], and moreover the sizes written, the distance kept,
    the first placement at the left padding and at the cursor, and a
    placement near the bottom when images are left over. *)
Lemma page_loop_full (page_w_px page_h_px padding : Z) :
  0 <= padding -> 2 * padding < page_w_px ->
  forall gas rest y placements,
    Forall (packable page_w_px padding) rest -> (length rest <= gas)%nat ->
    exists taken rest' new,
      page_loop gas page_w_px page_h_px padding rest y placements =
        Done (rest', placements ++ new) /\
      rest = taken ++ rest' /\
      map placement_size new = map (placed_size page_w_px padding) taken /\
      Forall (fun p => y <= pl_y p < page_h_px - padding /\
                       padding <= pl_x p /\ 0 <= pl_w p /\
                       pl_x p + pl_w p <= page_w_px - padding /\
                       0 <= pl_h p) new /\
      pairwise_padded padding new /\
      (y < page_h_px - padding -> rest <> [] ->
       taken <> [] /\
       (exists p new', new = p :: new' /\ pl_x p = padding /\ pl_y p = y) /\
       (rest' <> [] -> full_page page_h_px padding new)).
Proof.
  intros Hpad HW.
  induction gas as [|gas IH]; intros rest y placements Hp Hgas.
  - destruct rest as [|s rest]; [|simpl in Hgas; lia].
    exists [], [], []. simpl. rewrite andb_false_r, app_nil_r.
    split; [reflexivity|]. split; [reflexivity|].
    split; [reflexivity|]. split; [constructor|].
    split; [apply pairwise_padded_nil|]. intros _ Hne. congruence.
  - cbn [page_loop].
    destruct ((y <? page_h_px - padding) && negb (length rest =? 0)%nat)
      eqn:Hcond.
    2:{ exists [], rest, []. rewrite app_nil_r.
        split; [reflexivity|]. split; [reflexivity|].
        split; [reflexivity|]. split; [constructor|].
        split; [apply pairwise_padded_nil|].
        intros Hy Hne. exfalso.
        apply andb_false_iff in Hcond. destruct Hcond as [C|C].
        - apply Z.ltb_ge in C. lia.
        - apply not_true_iff_false in C. apply C, nonempty_test, Hne. }
    apply andb_true_iff in Hcond. destruct Hcond as [Hy Hne].
    apply Z.ltb_lt in Hy. apply nonempty_test in Hne.
    destruct (shelf_step_full page_w_px padding y rest placements Hpad HW
                Hp Hne)
      as (taken1 & rest1 & sh & new1 & Hstep & Hrest & Htk & Hsz & Hsh &
          Hgeo & Hap & (ptop & Hptop & Ehtop) & (p1 & new1' & Enew1 & Ex1)).
    rewrite Hstep. cbn [bind].
    assert (Hp1 : Forall (packable page_w_px padding) rest1).
    { rewrite Hrest in Hp. now apply Forall_app in Hp. }
    assert (Hlen : (length rest1 <= gas)%nat).
    { rewrite Hrest, length_app in Hgas.
      destruct taken1; [congruence|simpl in Hgas; lia]. }
    assert (Ey1 : pl_y p1 = y).
    { rewrite Forall_forall in Hgeo. apply (Hgeo p1).
      rewrite Enew1. now left. }
    destruct ((y + (sh + padding) >=? page_h_px - padding)
              && negb (length rest1 =? 0)%nat) eqn:Hbrk.
    + (* the page is full *)
      exists taken1, rest1, new1.
      split; [reflexivity|]. split; [assumption|]. split; [assumption|].
      split.
      { eapply Forall_impl; [|exact Hgeo]. cbn beta. intros p. lia. }
      split; [assumption|].
      intros _ _. split; [assumption|]. split.
      * exists p1, new1'. repeat split; assumption.
      * intros _. apply andb_true_iff in Hbrk. destruct Hbrk as [Hy' _].
        rewrite Z.geb_leb in Hy'. apply Z.leb_le in Hy'.
        exists ptop. split; [assumption|].
        rewrite Forall_forall in Hgeo. specialize (Hgeo ptop Hptop). lia.
    + (* one more shelf on this page *)
      destruct (IH rest1 (y + (sh + padding)) (placements ++ new1) Hp1 Hlen)
        as (taken2 & rest2 & new2 & Hrun & Hrest2 & Hsz2 & Hgeo2 & Hap2 &
            Hmore).
      rewrite Hrun. exists (taken1 ++ taken2), rest2, (new1 ++ new2).
      split; [now rewrite app_assoc|].
      split; [now rewrite <- app_assoc, <- Hrest2|].
      split; [now rewrite !map_app, Hsz, Hsz2|].
      split.
      { apply Forall_app. split.
        - eapply Forall_impl; [|exact Hgeo]. cbn beta. intros p. lia.
        - eapply Forall_impl; [|exact Hgeo2]. cbn beta. intros p. lia. }
      split.
      { apply pairwise_padded_app; try assumption.
        intros a b Ha Hb. rewrite Forall_forall in Hgeo, Hgeo2.
        specialize (Hgeo a Ha). specialize (Hgeo2 b Hb).
        unfold padded_apart. lia. }
      intros _ _.
      split; [destruct taken1; [congruence|discriminate]|].
      split.
      * exists p1, (new1' ++ new2). rewrite Enew1.
        repeat split; assumption.
      * intros Hne2.
        assert (Hne1 : rest1 <> []).
        { intros ->. destruct taken2; discriminate || (simpl in Hrest2;
            congruence). }
        assert (Hy' : y + (sh + padding) < page_h_px - padding).
        { apply andb_false_iff in Hbrk. destruct Hbrk as [C|C].
          - rewrite Z.geb_leb in C. apply Z.leb_gt in C. lia.
          - apply not_true_iff_false in C. exfalso.
            apply C, nonempty_test, Hne1. }
        destruct (Hmore Hy' Hne1) as (_ & _ & Hfull).
        destruct (Hfull Hne2) as (p & Hp' & Hbottom).
        exists p. split; [apply in_or_app; now right|assumption].
Qed.

(** What the loop of lines 65-100 does on packable images, with a
    non-negative padding that fits twice in the width and in the height of
    the page. *)
Lemma pages_loop_full (page_w_px page_h_px padding : Z) (budget : nat) :
  0 <= padding -> 2 * padding < page_w_px -> 2 * padding < page_h_px ->
  forall gas rest pages,
    Forall (packable page_w_px padding) rest ->
    (length rest <= gas)%nat -> (length rest <= budget)%nat ->
    exists new_pages,
      pages_loop gas budget page_w_px page_h_px padding rest pages =
        Done (pages ++ new_pages) /\
      map placement_size (concat new_pages) =
        map (placed_size page_w_px padding) rest /\
      (rest = [] -> new_pages = []) /\
      (rest <> [] -> new_pages <> []) /\
      (length new_pages <= length rest)%nat /\
      Forall (well_laid page_w_px page_h_px padding) new_pages /\
      (forall i pg, nth_error new_pages i = Some pg ->
         (S i < length new_pages)%nat -> full_page page_h_px padding pg).
Proof.
  intros Hpad HW HH.
  induction gas as [|gas IH]; intros rest pages Hp Hgas Hbud.
  - destruct rest as [|s rest]; [|simpl in Hgas; lia].
    exists []. simpl. rewrite app_nil_r.
    repeat split; try congruence; try constructor.
    intros i pg Hi. destruct i; discriminate.
  - cbn [pages_loop].
    destruct (negb (length rest =? 0)%nat) eqn:Hne.
    2:{ exists []. rewrite app_nil_r.
        apply negb_false_iff, length_zero_nil in Hne. subst rest.
        repeat split; try congruence; try constructor.
        intros i pg Hi. destruct i; discriminate. }
    apply nonempty_test in Hne.
    destruct (page_loop_full page_w_px page_h_px padding Hpad HW budget rest
                padding [] Hp Hbud)
      as (taken & rest' & new & Hrun & Hrest & Hsz & Hgeo & Hap & Hent).
    rewrite Hrun. cbn [bind app].
    destruct (Hent ltac:(lia) Hne) as (Htk & Hfirst & Hfull).
    assert (Hp' : Forall (packable page_w_px padding) rest').
    { rewrite Hrest in Hp. now apply Forall_app in Hp. }
    assert (Hlen : (length rest' < length rest)%nat).
    { rewrite Hrest, length_app.
      destruct taken; [congruence|simpl; lia]. }
    destruct (IH rest' (pages ++ [new]) Hp' ltac:(lia) ltac:(lia))
      as (more & Hrec & Hsz' & Hnil & _ & Hcount & Hall & Hfulls).
    rewrite Hrec. exists (new :: more).
    split; [now rewrite <- app_assoc|].
    split.
    { cbn [concat]. now rewrite map_app, Hsz, Hsz', Hrest, map_app. }
    split; [congruence|]. split; [discriminate|].
    split; [cbn [length]; lia|].
    split.
    { constructor; [|assumption]. split; [exact Hfirst|].
      split; [exact Hgeo|exact Hap]. }
    intros i pg Hi Hlast. destruct i as [|i].
    + injection Hi as <-. apply Hfull. intros ->.
      rewrite (Hnil eq_refl) in Hlast. simpl in Hlast. lia.
    + apply (Hfulls i pg Hi). simpl in Hlast. lia.
Qed.

(** ** The pages of [pack_images_shelf] *)

Lemma pack_full (images_sizes : list size) (page_w_px page_h_px padding : Z) :
  Forall (packable page_w_px padding) images_sizes ->
  0 <= padding -> 2 * padding < page_w_px -> 2 * padding < page_h_px ->
  forall gas, (length images_sizes <= gas)%nat ->
    exists pages,
      pack_images_shelf gas images_sizes page_w_px page_h_px padding =
        Done pages /\
      map placement_size (concat pages) =
        map (placed_size page_w_px padding) images_sizes /\
      (images_sizes <> [] -> pages <> []) /\
      (length pages <= length images_sizes)%nat /\
      Forall (well_laid page_w_px page_h_px padding) pages /\
      (forall i pg, nth_error pages i = Some pg ->
         (S i < length pages)%nat -> full_page page_h_px padding pg).
Proof.
  intros Hp Hpad HW HH gas Hgas. unfold pack_images_shelf.
  destruct (pages_loop_full page_w_px page_h_px padding gas Hpad HW HH gas
              images_sizes [] Hp Hgas Hgas)
    as (pages & Hrun & Hsz & _ & Hne & Hcount & Hall & Hfull).
  exists pages. repeat split; assumption.
Qed.

(** ** Shelves one below the other *)




(** ** Containment, amended *)



Lemma placed_size_kept (page_w_px padding : Z) (l : list size) :
  forall ps,
    map placement_size ps = map (placed_size page_w_px padding) l ->
    Forall2 (fun s p =>
               pl_idx p = sz_idx s /\
               (sz_w s + 2 * padding <= page_w_px ->
                pl_w p = sz_w s /\ pl_h p = sz_h s)) l ps.
Proof.
  induction l as [|s l IH]; intros [|p ps] E; try discriminate;
    [constructor|].
  cbn [map] in E. injection E as E1 E2. constructor; [|now apply IH].
  unfold placement_size, placed_size in E1.
  destruct (sz_w s + 2 * padding <=? page_w_px) eqn:T.
  - injection E1 as -> -> ->. repeat split.
  - injection E1 as -> _ _. split; [reflexivity|].
    apply Z.leb_gt in T. lia.
Qed.

(** X1. An image that fits between the left and right paddings is never
    resized.  For sizes of positive width and height, a non-negative
    padding and a page wider and higher than twice the padding, the
    placements of [pack_images_shelf], read page after page, are those of
    the images in the order of the input, and the placement of an image
    with [w + 2*padding <= page_w_px] has the width and the height of the
    image: the branch of lines 83-95 only takes images that are too
    wide. *)
Theorem placements_keep_sizes (images_sizes : list size)
    (page_w_px page_h_px padding : Z) :
  positive_sizes images_sizes ->
  0 <= padding -> 2 * padding < page_w_px -> 2 * padding < page_h_px ->
  forall gas, (length images_sizes <= gas)%nat ->
    exists pages,
      pack_images_shelf gas images_sizes page_w_px page_h_px padding =
        Done pages /\
      Forall2 (fun s p =>
                 pl_idx p = sz_idx s /\
                 (sz_w s + 2 * padding <= page_w_px ->
                  pl_w p = sz_w s /\ pl_h p = sz_h s))
              images_sizes (concat pages).
Proof.
  intros Hp Hpad HW HH gas Hgas.
  destruct (pack_full images_sizes page_w_px page_h_px padding
              (positive_packable _ _ _ Hp) Hpad HW HH gas Hgas)
    as (pages & Hrun & Hsz & _).
  exists pages. split; [exact Hrun|].
  now apply placed_size_kept.
Qed.

Lemma placements_keep_sizes_witness :
  exists pages,
    pack_images_shelf 3
        [mkSize 1000 50 0; mkSize 100 40 1; mkSize 280 30 2] 300 300 10 =
      Done pages /\
    Forall2 (fun s p =>
               pl_idx p = sz_idx s /\
               (sz_w s + 2 * 10 <= 300 ->
                pl_w p = sz_w s /\ pl_h p = sz_h s))
            [mkSize 1000 50 0; mkSize 100 40 1; mkSize 280 30 2]
            (concat pages).
Proof.
  apply (placements_keep_sizes
           [mkSize 1000 50 0; mkSize 100 40 1; mkSize 280 30 2] 300 300 10).
  - positive_list.
  - discriminate.
  - reflexivity.
  - reflexivity.
  - apply le_n.
Defined.

(** X2. For sizes of positive width and height, a non-negative padding and
    a page wider and higher than twice the padding, any two placements at
    different positions of a page of [pack_images_shelf] are at least
    [padding] apart, horizontally or vertically. *)
Theorem padding_between_placements (images_sizes : list size)
    (page_w_px page_h_px padding : Z) :
  positive_sizes images_sizes ->
  0 <= padding -> 2 * padding < page_w_px -> 2 * padding < page_h_px ->
  forall gas, (length images_sizes <= gas)%nat ->
    exists pages,
      pack_images_shelf gas images_sizes page_w_px page_h_px padding =
        Done pages /\
      forall pg, In pg pages ->
        forall i j a b, i <> j ->
          nth_error pg i = Some a -> nth_error pg j = Some b ->
          pl_x a + pl_w a + padding <= pl_x b \/
          pl_x b + pl_w b + padding <= pl_x a \/
          pl_y a + pl_h a + padding <= pl_y b \/
          pl_y b + pl_h b + padding <= pl_y a.
Proof.
  intros Hp Hpad HW HH gas Hgas.
  destruct (pack_full images_sizes page_w_px page_h_px padding
              (positive_packable _ _ _ Hp) Hpad HW HH gas Hgas)
    as (pages & Hrun & _ & _ & _ & Hall & _).
  exists pages. split; [exact Hrun|].
  intros pg Hpg. rewrite Forall_forall in Hall.
  destruct (Hall pg Hpg) as (_ & _ & Hap). exact Hap.
Qed.

Lemma padding_between_placements_witness :
  exists pages,
    pack_images_shelf 3 scenario_a 300 300 10 = Done pages /\
    forall pg, In pg pages ->
      forall i j a b, i <> j ->
        nth_error pg i = Some a -> nth_error pg j = Some b ->
        pl_x a + pl_w a + 10 <= pl_x b \/
        pl_x b + pl_w b + 10 <= pl_x a \/
        pl_y a + pl_h a + 10 <= pl_y b \/
        pl_y b + pl_h b + 10 <= pl_y a.
Proof.
  apply (padding_between_placements scenario_a 300 300 10).
  - unfold scenario_a. positive_list.
  - discriminate.
  - reflexivity.
  - reflexivity.
  - apply le_n.
Defined.

(** X3. For sizes of positive width and height, a non-negative padding and
    a page wider and higher than twice the padding, [pack_images_shelf]
    returns at least one page when there is an image and never more pages
    than images; no page is empty, and the first placement of every page
    is in the corner [(padding, padding)]. *)
Theorem pages_start_in_corner (images_sizes : list size)
    (page_w_px page_h_px padding : Z) :
  positive_sizes images_sizes ->
  0 <= padding -> 2 * padding < page_w_px -> 2 * padding < page_h_px ->
  forall gas, (length images_sizes <= gas)%nat ->
    exists pages,
      pack_images_shelf gas images_sizes page_w_px page_h_px padding =
        Done pages /\
      (images_sizes <> [] -> pages <> []) /\
      (length pages <= length images_sizes)%nat /\
      forall pg, In pg pages ->
        exists p pg', pg = p :: pg' /\ pl_x p = padding /\ pl_y p = padding.
Proof.
  intros Hp Hpad HW HH gas Hgas.
  destruct (pack_full images_sizes page_w_px page_h_px padding
              (positive_packable _ _ _ Hp) Hpad HW HH gas Hgas)
    as (pages & Hrun & _ & Hne & Hcount & Hall & _).
  exists pages. split; [exact Hrun|]. split; [exact Hne|].
  split; [exact Hcount|].
  intros pg Hpg. rewrite Forall_forall in Hall.
  destruct (Hall pg Hpg) as (Hfirst & _). exact Hfirst.
Qed.

Lemma pages_start_in_corner_witness :
  exists pages,
    pack_images_shelf 5 scenario_c 300 300 10 = Done pages /\
    (scenario_c <> [] -> pages <> []) /\
    (length pages <= length scenario_c)%nat /\
    forall pg, In pg pages ->
      exists p pg', pg = p :: pg' /\ pl_x p = 10 /\ pl_y p = 10.
Proof.
  apply (pages_start_in_corner scenario_c 300 300 10).
  - unfold scenario_c. positive_list.
  - discriminate.
  - reflexivity.
  - reflexivity.
  - apply le_n.
Defined.

(** X4. For sizes of positive width and height, a non-negative padding and
    a page wider and higher than twice the padding, [pack_images_shelf]
    leaves a page only when it is full: on every page but the last, some
    placement [p] has [p.y + p.height + 2*padding >= page_h_px], so that
    one more shelf would start at or below the bottom padding. *)
Theorem pages_left_when_full (images_sizes : list size)
    (page_w_px page_h_px padding : Z) :
  positive_sizes images_sizes ->
  0 <= padding -> 2 * padding < page_w_px -> 2 * padding < page_h_px ->
  forall gas, (length images_sizes <= gas)%nat ->
    exists pages,
      pack_images_shelf gas images_sizes page_w_px page_h_px padding =
        Done pages /\
      forall i pg, nth_error pages i = Some pg ->
        (S i < length pages)%nat ->
        exists p, In p pg /\ page_h_px <= pl_y p + pl_h p + 2 * padding.
Proof.
  intros Hp Hpad HW HH gas Hgas.
  destruct (pack_full images_sizes page_w_px page_h_px padding
              (positive_packable _ _ _ Hp) Hpad HW HH gas Hgas)
    as (pages & Hrun & _ & _ & _ & _ & Hfull).
  exists pages. split; [exact Hrun|exact Hfull].
Qed.

Lemma pages_left_when_full_witness :
  exists pages,
    pack_images_shelf 6 (scenario_c ++ [mkSize 250 50 5]) 300 300 10 =
      Done pages /\
    forall i pg, nth_error pages i = Some pg ->
      (S i < length pages)%nat ->
      exists p, In p pg /\ 300 <= pl_y p + pl_h p + 2 * 10.
Proof.
  apply (pages_left_when_full (scenario_c ++ [mkSize 250 50 5]) 300 300 10).
  - unfold scenario_c. cbn [app]. positive_list.
  - discriminate.
  - reflexivity.
  - reflexivity.
  - apply le_n.
Defined.

(** ** The exceptions of [pack_images_shelf] *)

Lemma page_loop_gas_raise (page_w_px page_h_px padding : Z) :
  forall gas gas' rest y placements e,
    page_loop gas page_w_px page_h_px padding rest y placements = Raise e ->
    (gas <= gas')%nat ->
    page_loop gas' page_w_px page_h_px padding rest y placements = Raise e.
Proof.
  induction gas as [|gas IH]; intros gas' rest y placements e Hrun Hle.
  - cbn [page_loop] in Hrun.
    destruct ((y <? page_h_px - padding) && negb (length rest =? 0)%nat);
      discriminate.
  - destruct gas' as [|gas']; [lia|]. cbn [page_loop] in *.
    destruct ((y <? page_h_px - padding) && negb (length rest =? 0)%nat);
      [|discriminate].
    destruct (shelf_step page_w_px padding y rest placements)
      as [[[rest' sh] placements']| |]; cbn [bind] in *;
      try discriminate; [|assumption].
    destruct ((y + (sh + padding) >=? page_h_px - padding)
              && negb (length rest' =? 0)%nat); [discriminate|].
    apply IH; [assumption|lia].
Qed.

Lemma pages_loop_gas_raise (page_w_px page_h_px padding : Z)
    (budget budget' : nat) :
  (budget <= budget')%nat ->
  forall gas gas' rest pages e,
    pages_loop gas budget page_w_px page_h_px padding rest pages = Raise e ->
    (gas <= gas')%nat ->
    pages_loop gas' budget' page_w_px page_h_px padding rest pages = Raise e.
Proof.
  intros Hb.
  induction gas as [|gas IH]; intros gas' rest pages e Hrun Hle.
  - cbn [pages_loop] in Hrun.
    destruct (negb (length rest =? 0)%nat); discriminate.
  - destruct gas' as [|gas']; [lia|]. cbn [pages_loop] in *.
    destruct (negb (length rest =? 0)%nat); [|discriminate].
    destruct (page_loop budget page_w_px page_h_px padding rest padding [])
      as [[rest' placements]|e'|] eqn:Hpage; cbn [bind] in *;
      try discriminate.
    + rewrite (page_loop_gas _ _ _ _ _ _ _ _ _ Hpage Hb). cbn [bind].
      apply IH; [assumption|lia].
    + rewrite (page_loop_gas_raise _ _ _ _ _ _ _ _ _ Hpage Hb). cbn [bind].
      assumption.
Qed.

(** X5. On sizes of positive width and height, whatever the page and the
    padding, [pack_images_shelf] never raises [IndexError] at line 86 nor
    [ZeroDivisionError] at line 90; and when it raises the [RuntimeError]
    of line 89, the input is not empty and the page is no wider than twice
    the padding and higher than twice the padding. *)
Theorem no_index_or_division_error (images_sizes : list size)
    (page_w_px page_h_px padding : Z) :
  positive_sizes images_sizes ->
  forall gas e,
    pack_images_shelf gas images_sizes page_w_px page_h_px padding = Raise e ->
    e <> IndexError /\ e <> ZeroDivisionError /\
    (e = RuntimeError ->
     images_sizes <> [] /\
     page_w_px <= 2 * padding /\ 2 * padding < page_h_px).
Proof.
  intros Hp gas e Hrun.
  destruct images_sizes as [|s rest].
  { destruct gas; cbn in Hrun; discriminate. }
  destruct (Z_lt_le_dec (2 * padding) page_h_px) as [HH|HH].
  2:{ rewrite pack_no_height in Hrun by (assumption || discriminate).
      discriminate. }
  destruct (Z_lt_le_dec (2 * padding) page_w_px) as [HW|HW].
  - exfalso.
    assert (Hbig : pack_images_shelf (Nat.max gas (length (s :: rest)))
                     (s :: rest) page_w_px page_h_px padding = Raise e).
    { unfold pack_images_shelf in *.
      eapply pages_loop_gas_raise; [| eassumption |]; apply Nat.le_max_l. }
    unfold pack_images_shelf in Hbig.
    destruct (pages_loop_spec page_w_px page_h_px padding
                (Nat.max gas (length (s :: rest))) HW HH
                (Nat.max gas (length (s :: rest))) (s :: rest) [] Hp
                (Nat.le_max_r _ _) (Nat.le_max_r _ _))
      as (pages & Hdone & _).
    congruence.
  - destruct gas as [|gas]; [cbn in Hrun; discriminate|].
    inversion Hp as [|? ? [Hw _] _]; subst.
    rewrite pack_no_width in Hrun by assumption.
    injection Hrun as <-.
    split; [discriminate|]. split; [discriminate|].
    intros _. repeat split; (discriminate || assumption).
Qed.

Lemma no_index_or_division_error_witness :
  RuntimeError <> IndexError /\ RuntimeError <> ZeroDivisionError /\
  (RuntimeError = RuntimeError ->
   [mkSize 5 5 0] <> [] /\ 20 <= 2 * 10 /\ 2 * 10 < 100).
Proof.
  apply (no_index_or_division_error [mkSize 5 5 0] 20 100 10
           ltac:(positive_list) 1%nat RuntimeError).
  reflexivity.
Defined.

(** ** Rounding moves by at most one half *)

Lemma py_round_near (q : Q) :
  (inject_Z (py_round q) - q <= 1 # 2)%Q /\
  (q - inject_Z (py_round q) <= 1 # 2)%Q.
Proof.
  unfold py_round.
  pose proof (Qfloor_le q) as Hlo. pose proof (Qlt_floor q) as Hhi.
  rewrite inject_Z_plus in Hhi. change (inject_Z 1) with 1%Q in Hhi.
  destruct (q - inject_Z (Qfloor q) ?= 1 # 2)%Q eqn:E.
  - apply Qeq_alt in E.
    destruct (Z.even (Qfloor q)).
    + split; lra.
    + rewrite inject_Z_plus. change (inject_Z 1) with 1%Q. split; lra.
  - apply Qlt_alt in E. split; lra.
  - apply Qgt_alt in E. rewrite inject_Z_plus.
    change (inject_Z 1) with 1%Q. split; lra.
Qed.

(** ** Lines 90-92 in binary64 *)

(** *** Powers of two *)

Lemma pow2_pos (k : Z) : (0 < 2 ^ k)%Q.
Proof. apply Qpower_0_lt. reflexivity. Qed.

Lemma pow2_plus (a b : Z) : (2 ^ (a + b) == 2 ^ a * 2 ^ b)%Q.
Proof. apply Qpower_plus. discriminate. Qed.

Lemma pow2_succ (a : Z) : (2 ^ (a + 1) == 2 * 2 ^ a)%Q.
Proof. rewrite pow2_plus. change (2 ^ 1)%Q with 2%Q. ring. Qed.

Lemma pow2_le (a b : Z) : a <= b -> (2 ^ a <= 2 ^ b)%Q.
Proof. intros H. apply Qpower_le_compat_l; [assumption|discriminate]. Qed.

Lemma pow2_lt_inv (a b : Z) : (2 ^ a < 2 ^ b)%Q -> a < b.
Proof. intros H. eapply Qpower_lt_compat_l_inv; [exact H|reflexivity]. Qed.

Lemma pow2_inject (n : Z) : 0 <= n -> (2 ^ n == inject_Z (2 ^ n))%Q.
Proof. intros H. symmetry. now apply (Zpower_Qpower 2 n). Qed.

(** *** The exponent of a rational *)

Lemma Qdiv_lt_cross (a b c d : Q) :
  (0 < b)%Q -> (0 < d)%Q -> (a * d < c * b)%Q -> (a / b < c / d)%Q.
Proof.
  intros Hb Hd H.
  apply Qlt_shift_div_l; [assumption|].
  setoid_replace (a / b * d)%Q with ((a * d) / b)%Q by (field; lra).
  apply Qlt_shift_div_r; assumption.
Qed.

Lemma Qlog2_spec (q : Q) :
  (0 < q)%Q -> (2 ^ Qlog2 q <= q)%Q /\ (q < 2 ^ (Qlog2 q + 1))%Q.
Proof.
  intros Hq. unfold Qlog2.
  destruct q as [n d]. cbn [Qnum Qden].
  assert (Hn : 0 < n).
  { unfold Qlt in Hq. simpl in Hq. lia. }
  set (a := Z.log2 n). set (b := Z.log2 (Z.pos d)).
  assert (Ha : 2 ^ a <= n < 2 ^ (a + 1)).
  { unfold a. pose proof (Z.log2_spec n Hn) as H. unfold Z.succ in H.
    exact H. }
  assert (Hb : 2 ^ b <= Z.pos d < 2 ^ (b + 1)).
  { unfold b. pose proof (Z.log2_spec (Z.pos d) ltac:(lia)) as H.
    unfold Z.succ in H. exact H. }
  assert (Ha0 : 0 <= a) by apply Z.log2_nonneg.
  assert (Hb0 : 0 <= b) by apply Z.log2_nonneg.
  assert (HA : (2 ^ a <= inject_Z n)%Q /\ (inject_Z n < 2 * 2 ^ a)%Q).
  { rewrite <- pow2_succ, !pow2_inject by lia.
    rewrite <- Zle_Qle, <- Zlt_Qlt. exact Ha. }
  assert (HB : (2 ^ b <= inject_Z (Z.pos d))%Q /\
               (inject_Z (Z.pos d) < 2 * 2 ^ b)%Q).
  { rewrite <- pow2_succ, !pow2_inject by lia.
    rewrite <- Zle_Qle, <- Zlt_Qlt. exact Hb. }
  assert (Eq : (n # d == inject_Z n / inject_Z (Z.pos d))%Q)
    by apply Qmake_Qdiv.
  assert (Ee : (2 ^ (a - b) == 2 ^ a / 2 ^ b)%Q)
    by (apply Qpower_minus; discriminate).
  pose proof (pow2_pos a) as Pa. pose proof (pow2_pos b) as Pb.
  assert (Pd : (0 < inject_Z (Z.pos d))%Q) by reflexivity.
  assert (Hlo : (2 ^ (a - b - 1) < n # d)%Q).
  { assert (E1 : (2 ^ (a - b - 1) == 2 ^ a / (2 * 2 ^ b))%Q).
    { replace (a - b - 1) with (a - (b + 1)) by lia.
      rewrite Qpower_minus by discriminate. now rewrite pow2_succ. }
    rewrite E1, Eq.
    apply Qdiv_lt_cross; [lra|assumption|nra]. }
  assert (Hhi : (n # d < 2 ^ (a - b + 1))%Q).
  { rewrite pow2_succ, Ee, Eq.
    setoid_replace (2 * (2 ^ a / 2 ^ b))%Q with ((2 * 2 ^ a) / 2 ^ b)%Q
      by (field; lra).
    apply Qdiv_lt_cross; [assumption|assumption|nra]. }
  destruct (Qle_bool (2 ^ (a - b)) (n # d)) eqn:T.
  - apply Qle_bool_iff in T. split; assumption.
  - assert (T' : ~ (2 ^ (a - b) <= n # d)%Q).
    { intros C. apply Qle_bool_iff in C. congruence. }
    apply Qnot_le_lt in T'.
    replace (a - b - 1 + 1) with (a - b) by lia.
    split; [apply Qlt_le_weak|]; assumption.
Qed.

Lemma Qlog2_ge (q : Q) (a : Z) : (0 < q)%Q -> (2 ^ a <= q)%Q -> a <= Qlog2 q.
Proof.
  intros Hq Ha. destruct (Qlog2_spec q Hq) as [_ Hhi].
  assert (H : a < Qlog2 q + 1).
  { apply pow2_lt_inv. eapply Qle_lt_trans; eassumption. }
  lia.
Qed.

Lemma Qlog2_lt (q : Q) (a : Z) : (0 < q)%Q -> (q < 2 ^ a)%Q -> Qlog2 q < a.
Proof.
  intros Hq Ha. destruct (Qlog2_spec q Hq) as [Hlo _].
  apply pow2_lt_inv. eapply Qle_lt_trans; eassumption.
Qed.

(** *** The nearest float *)

Lemma b64_pos_near (q : Q) :
  (2 ^ (-1022) <= q)%Q -> (q < 2 ^ 1023)%Q ->
  exists v, b64_pos q = Some v /\
            (q * (1 - u53) <= v)%Q /\ (v <= q * (1 + u53))%Q.
Proof.
  intros Hlo Hhi.
  assert (Hq : (0 < q)%Q).
  { eapply Qlt_le_trans; [apply (pow2_pos (-1022))|exact Hlo]. }
  pose proof (Qlog2_ge q _ Hq Hlo) as L1.
  pose proof (Qlog2_lt q _ Hq Hhi) as L2.
  destruct (Qlog2_spec q Hq) as [S1 _].
  unfold b64_pos. rewrite Z.max_l by lia.
  set (k := Qlog2 q - 52).
  pose proof (pow2_pos k) as Pk.
  assert (Ek : (2 ^ k == 2 ^ Qlog2 q * (1 # 4503599627370496))%Q).
  { unfold k. unfold Z.sub. rewrite pow2_plus. reflexivity. }
  destruct (py_round_near (q / 2 ^ k)) as [N1 N2].
  set (m := inject_Z (py_round (q / 2 ^ k))) in *.
  assert (Et : (q / 2 ^ k * 2 ^ k == q)%Q) by (field; lra).
  set (t := (q / 2 ^ k)%Q) in *.
  set (p := (2 ^ k)%Q) in *.
  set (P := (2 ^ Qlog2 q)%Q) in *.
  assert (B1 : (q * (1 - u53) <= m * p)%Q) by (unfold u53; nra).
  assert (B2 : (m * p <= q * (1 + u53))%Q) by (unfold u53; nra).
  assert (Hv : (m * p < 2 ^ 1024)%Q).
  { change 1024 with (1023 + 1). rewrite pow2_succ.
    unfold u53 in B2. set (T := (2 ^ 1023)%Q) in *. nra. }
  destruct (Qle_bool (2 ^ 1024) (m * p)) eqn:T.
  - apply Qle_bool_iff in T. exfalso. eapply Qlt_irrefl.
    eapply Qlt_le_trans; eassumption.
  - eexists. split; [reflexivity|]. split; assumption.
Qed.

Lemma b64_pos_int (z : Z) :
  0 < z < 2 ^ 53 ->
  exists v, b64_pos (inject_Z z) = Some v /\ (v == inject_Z z)%Q.
Proof.
  intros [Hz Hlt].
  assert (Hq : (0 < inject_Z z)%Q).
  { change 0%Q with (inject_Z 0). now rewrite <- Zlt_Qlt. }
  assert (L1 : 0 <= Qlog2 (inject_Z z)).
  { apply Qlog2_ge; [assumption|]. change (2 ^ 0)%Q with (inject_Z 1).
    rewrite <- Zle_Qle. lia. }
  assert (L2 : Qlog2 (inject_Z z) < 53).
  { apply Qlog2_lt; [assumption|]. rewrite pow2_inject by lia.
    now rewrite <- Zlt_Qlt. }
  unfold b64_pos. rewrite Z.max_l by lia.
  set (k := Qlog2 (inject_Z z) - 52).
  assert (Ek : (2 ^ k == / inject_Z (2 ^ (- k)))%Q).
  { replace k with (- - k) at 1 by lia.
    rewrite Qpower_opp, pow2_inject by lia. reflexivity. }
  assert (Pz : 0 < 2 ^ (- k)) by (apply Z.pow_pos_nonneg; lia).
  assert (Pq : (0 < inject_Z (2 ^ (- k)))%Q).
  { change 0%Q with (inject_Z 0). now rewrite <- Zlt_Qlt. }
  assert (Em : py_round (inject_Z z / 2 ^ k) = z * 2 ^ (- k)).
  { rewrite <- (py_round_inject_Z (z * 2 ^ (- k))).
    apply py_round_comp. rewrite Ek, inject_Z_mult. field. lra. }
  rewrite Em.
  assert (Ev : (inject_Z (z * 2 ^ (- k)) * 2 ^ k == inject_Z z)%Q).
  { rewrite Ek, inject_Z_mult. field. lra. }
  destruct (Qle_bool (2 ^ 1024)
              (inject_Z (z * 2 ^ (- k)) * 2 ^ k)) eqn:T.
  - apply Qle_bool_iff in T. rewrite Ev in T. exfalso.
    assert (C : (inject_Z z < 2 ^ 1024)%Q).
    { eapply Qlt_le_trans; [|apply (pow2_le 53 1024); lia].
      rewrite pow2_inject by lia. now rewrite <- Zlt_Qlt. }
    eapply Qlt_irrefl. eapply Qlt_le_trans; eassumption.
  - eexists. split; [reflexivity|exact Ev].
Qed.

Lemma b64_positive (q : Q) : (0 < q)%Q -> b64 q = b64_pos q.
Proof. intros H. unfold b64. apply Qgt_alt in H. now rewrite H. Qed.

Lemma b64_zero (q : Q) : (q == 0)%Q -> b64 q = Some 0%Q.
Proof. intros H. unfold b64. apply Qeq_alt in H. now rewrite H. Qed.

(** *** Rounding a float to an integer *)

Lemma py_round_within (v : Q) (n : Z) :
  (inject_Z n - (1 # 2) < v)%Q -> (v < inject_Z n + (1 # 2))%Q ->
  py_round v = n.
Proof.
  intros H1 H2. destruct (py_round_near v) as [N1 N2].
  assert (A : (inject_Z (py_round v) < inject_Z (n + 1))%Q).
  { rewrite inject_Z_plus. change (inject_Z 1) with 1%Q. lra. }
  assert (B : (inject_Z (n - 1) < inject_Z (py_round v))%Q).
  { replace (n - 1) with (n + -1) by lia. rewrite inject_Z_plus.
    change (inject_Z (-1)) with (- (1))%Q. lra. }
  rewrite <- Zlt_Qlt in A, B. lia.
Qed.

(** *** The operations of lines 90-92 *)

Lemma float_of_int_exact (z : Z) :
  0 <= z < 2 ^ 53 ->
  exists v, float_of_int z = Done v /\ (v == inject_Z z)%Q.
Proof.
  intros [H0 H1]. unfold float_of_int, to_float.
  destruct (Z.eq_dec z 0) as [->|Hz].
  - exists 0%Q. split; reflexivity.
  - rewrite b64_positive by (apply inject_Z_pos; lia).
    destruct (b64_pos_int z ltac:(lia)) as (v & -> & Ev).
    exists v. split; [reflexivity|assumption].
Qed.

Lemma to_float_near (q : Q) :
  (2 ^ (-1022) <= q)%Q -> (q < 2 ^ 1023)%Q ->
  exists v, to_float q = Done v /\
            (q * (1 - u53) <= v)%Q /\ (v <= q * (1 + u53))%Q.
Proof.
  intros Hlo Hhi. unfold to_float.
  assert (Hq : (0 < q)%Q).
  { eapply Qlt_le_trans; [apply (pow2_pos (-1022))|exact Hlo]. }
  rewrite (b64_positive q Hq).
  destruct (b64_pos_near q Hlo Hhi) as (v & -> & B).
  exists v. split; [reflexivity|exact B].
Qed.

Lemma twice_near (x a b : Q) :
  (0 <= x)%Q ->
  (x * (1 - u53) <= a)%Q -> (a <= x * (1 + u53))%Q ->
  (a * (1 - u53) <= b)%Q -> (b <= a * (1 + u53))%Q ->
  (x - 3 * u53 * x <= b)%Q /\ (b <= x + 3 * u53 * x)%Q.
Proof.
  unfold u53. intros Hx A1 A2 B1 B2. split; nra.
Qed.

Lemma pow2_m53 : (2 ^ (-53) == u53)%Q.
Proof. reflexivity. Qed.

Lemma int_true_div_near (a b : Z) :
  0 < a < 2 ^ 50 -> 0 < b < 2 ^ 53 ->
  exists sc, int_true_div a b = Done sc /\
    (inject_Z a / inject_Z b * (1 - u53) <= sc)%Q /\
    (sc <= inject_Z a / inject_Z b * (1 + u53))%Q.
Proof.
  intros [Ha0 Ha1] [Hb0 Hb1]. unfold int_true_div.
  destruct (b =? 0) eqn:E; [apply Z.eqb_eq in E; lia|].
  pose proof (inject_Z_pos a Ha0) as Pa. pose proof (inject_Z_pos b Hb0) as Pb.
  assert (Ba : (inject_Z a < inject_Z (2 ^ 50))%Q) by now rewrite <- Zlt_Qlt.
  assert (Bb : (inject_Z b < inject_Z (2 ^ 53))%Q) by now rewrite <- Zlt_Qlt.
  assert (Ia : (inject_Z 1 <= inject_Z a)%Q) by (rewrite <- Zle_Qle; lia).
  assert (Ib : (inject_Z 1 <= inject_Z b)%Q) by (rewrite <- Zle_Qle; lia).
  apply to_float_near.
  - apply Qle_trans with (2 ^ (-53))%Q; [apply pow2_le; lia|].
    rewrite pow2_m53. apply Qle_shift_div_l; [assumption|].
    unfold u53. change (inject_Z (2 ^ 53)) with 9007199254740992%Q in Bb.
    change (inject_Z 1) with 1%Q in *. lra.
  - apply Qlt_le_trans with (2 ^ 50)%Q; [|apply pow2_le; lia].
    apply Qlt_shift_div_r; [assumption|].
    rewrite pow2_inject by lia.
    change (inject_Z (2 ^ 50)) with 1125899906842624%Q in *.
    change (inject_Z 1) with 1%Q in *. nra.
Qed.

Lemma round_product_zero (x : Q) : round_product 0 x = Done 0.
Proof.
  unfold round_product, float_of_int, to_float. cbn [b64 bind].
  change (b64 (inject_Z 0)) with (Some 0%Q). cbn [bind].
  rewrite (b64_zero (0 * x)) by ring. reflexivity.
Qed.

Lemma round_product_near (z : Z) (x : Q) :
  0 < z < 2 ^ 53 -> (2 ^ (-100) <= x)%Q -> (x < 2 ^ 100)%Q ->
  exists v, round_product z x = Done (py_round v) /\
    (inject_Z z * x * (1 - u53) <= v)%Q /\
    (v <= inject_Z z * x * (1 + u53))%Q.
Proof.
  intros [Hz0 Hz1] Hx0 Hx1. unfold round_product.
  destruct (float_of_int_exact z ltac:(lia)) as (zf & -> & Ez). cbn [bind].
  assert (Px : (0 < x)%Q).
  { eapply Qlt_le_trans; [apply (pow2_pos (-100))|exact Hx0]. }
  assert (Iz : (inject_Z 1 <= inject_Z z)%Q) by (rewrite <- Zle_Qle; lia).
  assert (Bz : (inject_Z z < inject_Z (2 ^ 53))%Q) by now rewrite <- Zlt_Qlt.
  change (inject_Z 1) with 1%Q in Iz.
  destruct (to_float_near (zf * x)) as (v & -> & B1 & B2).
  - apply Qle_trans with (2 ^ (-100))%Q; [apply pow2_le; lia|].
    rewrite Ez. nra.
  - apply Qlt_le_trans with (2 ^ 153)%Q; [|apply pow2_le; lia].
    change 153 with (53 + 100). rewrite pow2_plus, Ez.
    rewrite (pow2_inject 53) by lia.
    pose proof (pow2_pos 100) as P100.
    set (T := (2 ^ 100)%Q) in *. set (U := inject_Z (2 ^ 53)) in *.
    assert (PU : (0 < U)%Q) by reflexivity.
    nra.
  - cbn [bind]. exists v. split; [reflexivity|].
    rewrite Ez in B1, B2. split; assumption.
Qed.

(** A float within [3 u x] of the quotient [x = n / w], with [n] below
    2^50, rounds to an integer within half of [x]; and to the rounding of
    [x] itself when [x] is not half-way between two integers. *)
Lemma round_of_near_quotient (n w : Z) (x v : Q) :
  0 < w -> 0 <= n < 2 ^ 50 ->
  (x * inject_Z w == inject_Z n)%Q ->
  (x - 3 * u53 * x <= v)%Q -> (v <= x + 3 * u53 * x)%Q ->
  - w <= 2 * (py_round v * w - n) <= w /\
  ((forall k, 2 * n <> (2 * k + 1) * w) -> py_round v = py_round x).
Proof.
  intros Hw [Hn0 Hn1] Ex V1 V2.
  pose proof (inject_Z_pos w Hw) as PW.
  assert (IW : (1 <= inject_Z w)%Q).
  { change 1%Q with (inject_Z 1). rewrite <- Zle_Qle. lia. }
  assert (N0 : (0 <= inject_Z n)%Q).
  { change 0%Q with (inject_Z 0). now rewrite <- Zle_Qle. }
  assert (N1 : (inject_Z n < 1125899906842624)%Q).
  { change 1125899906842624%Q with (inject_Z (2 ^ 50)). now rewrite <- Zlt_Qlt. }
  set (W := inject_Z w) in *. set (N := inject_Z n) in *.
  assert (Hx : (0 <= x)%Q).
  { destruct (Qlt_le_dec x 0) as [C|C]; [|assumption]. exfalso. nra. }
  (* the error, multiplied by w, is below one half *)
  assert (Err : (3 * u53 * x * W < 1 # 2)%Q).
  { setoid_replace (3 * u53 * x * W)%Q with (3 * u53 * N)%Q
      by (rewrite <- Ex; ring).
    unfold u53. lra. }
  assert (VW1 : (N - (1 # 2) < v * W)%Q) by nra.
  assert (VW2 : (v * W < N + (1 # 2))%Q) by nra.
  split.
  - destruct (py_round_near v) as [R1 R2].
    set (R := inject_Z (py_round v)) in *.
    assert (A : (2 * (R * W - N) < W + 1)%Q) by nra.
    assert (B : (- W - 1 < 2 * (R * W - N))%Q) by nra.
    assert (A' : 2 * (py_round v * w - n) < w + 1).
    { goal_to_Q. change (inject_Z 2) with 2%Q. change (inject_Z 1) with 1%Q.
      fold W N R. lra. }
    assert (B' : - w - 1 < 2 * (py_round v * w - n)).
    { goal_to_Q. change (inject_Z 2) with 2%Q. change (inject_Z 1) with 1%Q.
      fold W N R. lra. }
    lia.
  - intros Hnt.
    pose proof (py_round_near x) as [X1 X2].
    set (r0 := py_round x) in *.
    assert (S0 : - w <= 2 * (r0 * w - n) <= w).
    { assert (A : (2 * (inject_Z r0 * W - N) <= W)%Q) by nra.
      assert (B : (- W <= 2 * (inject_Z r0 * W - N))%Q) by nra.
      split; goal_to_Q; change (inject_Z 2) with 2%Q; fold W N; lra. }
    assert (S1 : - (w - 1) <= 2 * (r0 * w - n) <= w - 1).
    { pose proof (Hnt (r0 - 1)). pose proof (Hnt r0). lia. }
    destruct S1 as [S1 S2].
    to_Q S1. to_Q S2.
    change (inject_Z 2) with 2%Q in *. change (inject_Z 1) with 1%Q in *.
    fold W N in S1, S2.
    apply py_round_within.
    + apply Qmult_lt_r with W; [assumption|]. nra.
    + apply Qmult_lt_r with W; [assumption|]. nra.
Qed.

(** X6. Lines 86-92 in binary64, for a usable width below 2^50, an image
    width below 2^53 and [h * max_w] below 2^50: no exception is raised,
    the image gets exactly the usable width, and its new height is within
    half a pixel of the scaled height [h * max_w / w].  The new height is
    the rounding of the exact quotient unless the quotient lies half-way
    between two integers; there the errors of the two operations decide
    which of the two it is. *)
Theorem fallback_b64_keeps_aspect (page_w_px padding : Z) (s : size)
    (rest : list size) :
  0 < page_w_px - 2 * padding < 2 ^ 50 ->
  0 < sz_w s < 2 ^ 53 -> 0 <= sz_h s ->
  sz_h s * (page_w_px - 2 * padding) < 2 ^ 50 ->
  exists new_h,
    fallback_size_b64 page_w_px padding (s :: rest) =
      Done (s, page_w_px - 2 * padding, new_h) /\
    0 <= new_h /\
    - sz_w s <=
      2 * (new_h * sz_w s - sz_h s * (page_w_px - 2 * padding)) <= sz_w s /\
    ((forall k, 2 * (sz_h s * (page_w_px - 2 * padding)) <>
                (2 * k + 1) * sz_w s) ->
     new_h = py_round (inject_Z (sz_h s) *
                       (inject_Z (page_w_px - 2 * padding) /
                        inject_Z (sz_w s)))).
Proof.
  intros HM Hw Hh Hprod. unfold fallback_size_b64.
  set (M := page_w_px - 2 * padding) in *.
  set (w := sz_w s) in *. set (h := sz_h s) in *.
  destruct (M <=? 0) eqn:E; [apply Z.leb_le in E; lia|].
  destruct (int_true_div_near M w HM Hw) as (sc & -> & C1 & C2).
  cbn [bind].
  pose proof (inject_Z_pos M ltac:(lia)) as PM.
  pose proof (inject_Z_pos w ltac:(lia)) as PW.
  assert (IM : (1 <= inject_Z M)%Q).
  { change 1%Q with (inject_Z 1). rewrite <- Zle_Qle. lia. }
  assert (IW : (1 <= inject_Z w)%Q).
  { change 1%Q with (inject_Z 1). rewrite <- Zle_Qle. lia. }
  assert (BM : (inject_Z M < 1125899906842624)%Q).
  { change 1125899906842624%Q with (inject_Z (2 ^ 50)).
    rewrite <- Zlt_Qlt. lia. }
  assert (BW : (inject_Z w < 9007199254740992)%Q).
  { change 9007199254740992%Q with (inject_Z (2 ^ 53)).
    rewrite <- Zlt_Qlt. lia. }
  assert (Eq0 : (inject_Z M / inject_Z w * inject_Z w == inject_Z M)%Q)
    by (field; lra).
  set (q0 := (inject_Z M / inject_Z w)%Q) in *.
  set (MQ := inject_Z M) in *. set (W := inject_Z w) in *.
  assert (Q0 : (u53 <= q0)%Q).
  { destruct (Qlt_le_dec q0 u53) as [C|C]; [|assumption]. exfalso.
    unfold u53 in C. nra. }
  assert (Q1 : (q0 < 1125899906842624)%Q).
  { destruct (Qlt_le_dec q0 1125899906842624) as [C|C]; [assumption|].
    exfalso. nra. }
  assert (S0 : (2 ^ (-100) <= sc)%Q).
  { apply Qle_trans with (2 ^ (-54))%Q; [apply pow2_le; lia|].
    change (2 ^ (-54))%Q with (1 # 18014398509481984)%Q.
    unfold u53 in *. nra. }
  assert (S1 : (sc < 2 ^ 100)%Q).
  { apply Qlt_le_trans with (2 ^ 51)%Q; [|apply pow2_le; lia].
    change (2 ^ 51)%Q with 2251799813685248%Q. unfold u53 in *. nra. }
  destruct (round_product_near w sc ltac:(lia) S0 S1) as (v1 & -> & D1 & D2).
  cbn [bind]. fold W in D1, D2.
  assert (Ew : py_round v1 = M).
  { destruct (twice_near MQ (W * sc) v1) as [T1 T2];
      try assumption; try (unfold u53 in *; nra).
    apply py_round_within; fold MQ; unfold u53 in *; lra. }
  rewrite Ew.
  destruct (Z.eq_dec h 0) as [Eh|Nh].
  - rewrite Eh, round_product_zero. cbn [bind].
    exists 0. split; [reflexivity|]. split; [lia|]. split; [lia|].
    intros _. symmetry.
    rewrite (py_round_comp _ (inject_Z 0)); [apply py_round_inject_Z|].
    change (inject_Z 0) with 0%Q. ring.
  - assert (Hh1 : 0 < h < 2 ^ 53) by nia.
    destruct (round_product_near h sc Hh1 S0 S1) as (v2 & -> & F1 & F2).
    cbn [bind]. exists (py_round v2). split; [reflexivity|].
    pose proof (inject_Z_pos h ltac:(lia)) as PH.
    set (HQ := inject_Z h) in *.
    destruct (twice_near (HQ * q0) (HQ * sc) v2) as [T1 T2];
      try assumption; try (unfold u53 in *; nra).
    destruct (round_of_near_quotient (h * M) w (HQ * q0) v2) as [G1 G2];
      try assumption; try lia.
    { rewrite inject_Z_mult. fold HQ MQ W. rewrite <- Eq0. ring. }
    split; [nia|]. split; assumption.
Qed.

Lemma fallback_b64_keeps_aspect_witness :
  exists new_h,
    fallback_size_b64 300 10 (mkSize 1000 50 0 :: []) =
      Done (mkSize 1000 50 0, 300 - 2 * 10, new_h) /\
    0 <= new_h /\
    - sz_w (mkSize 1000 50 0) <=
      2 * (new_h * sz_w (mkSize 1000 50 0) -
           sz_h (mkSize 1000 50 0) * (300 - 2 * 10))
      <= sz_w (mkSize 1000 50 0) /\
    ((forall k, 2 * (sz_h (mkSize 1000 50 0) * (300 - 2 * 10)) <>
                (2 * k + 1) * sz_w (mkSize 1000 50 0)) ->
     new_h = py_round (inject_Z (sz_h (mkSize 1000 50 0)) *
                       (inject_Z (300 - 2 * 10) /
                        inject_Z (sz_w (mkSize 1000 50 0))))).
Proof.
  apply (fallback_b64_keeps_aspect 300 10 (mkSize 1000 50 0) []).
  - split; reflexivity.
  - split; reflexivity.
  - discriminate.
  - reflexivity.
Defined.

(** ** Lines 152-154 in binary64 *)

Lemma round_product_quotient (z n d : Z) (x sf : Q) :
  0 < z < 2 ^ 53 -> 0 < d -> 0 <= n < 2 ^ 50 ->
  (inject_Z z * x * inject_Z d == inject_Z n)%Q ->
  (2 ^ (-100) <= sf)%Q -> (sf < 2 ^ 100)%Q ->
  (x * (1 - u53) <= sf)%Q -> (sf <= x * (1 + u53))%Q ->
  exists r,
    round_product z sf = Done r /\
    (inject_Z r - inject_Z z * x <= 1 # 2)%Q /\
    (inject_Z z * x - inject_Z r <= 1 # 2)%Q /\
    ((forall k, ~ (inject_Z z * x == inject_Z k + (1 # 2))%Q) ->
     r = py_round (inject_Z z * x)).
Proof.
  intros Hz Hd Hn Ex S0 S1 B1 B2.
  destruct (round_product_near z sf Hz S0 S1) as (v & Hrun & V1 & V2).
  exists (py_round v). split; [exact Hrun|].
  pose proof (inject_Z_pos z ltac:(lia)) as PZ.
  pose proof (inject_Z_pos d Hd) as PD.
  assert (N0 : (0 <= inject_Z n)%Q).
  { change 0%Q with (inject_Z 0). rewrite <- Zle_Qle. lia. }
  set (Z' := inject_Z z) in *. set (D := inject_Z d) in *.
  set (N := inject_Z n) in *.
  assert (Hx : (0 <= Z' * x)%Q).
  { destruct (Qlt_le_dec (Z' * x) 0) as [C|C]; [|assumption]. exfalso. nra. }
  assert (Hx' : (0 <= x)%Q).
  { destruct (Qlt_le_dec x 0) as [C|C]; [|assumption]. exfalso. nra. }
  destruct (twice_near (Z' * x) (Z' * sf) v) as [T1 T2];
    try assumption; try (unfold u53 in *; nra).
  destruct (round_of_near_quotient n d (Z' * x) v Hd Hn Ex T1 T2)
    as [[G1 G2] G3].
  to_Q G1. to_Q G2. change (inject_Z 2) with 2%Q in *.
  fold D N in G1, G2. set (R := inject_Z (py_round v)) in *.
  split; [apply Qmult_le_r with D; [assumption|nra]|].
  split; [apply Qmult_le_r with D; [assumption|nra]|].
  intros Hnt. apply G3. intros k E.
  apply (Hnt k). apply (f_equal inject_Z) in E.
  rewrite !inject_Z_mult, inject_Z_plus, inject_Z_mult in E.
  change (inject_Z 2) with 2%Q in E. change (inject_Z 1) with 1%Q in E.
  fold D N in E.
  assert (E' : (2 * N == (2 * inject_Z k + 1) * D)%Q)
    by (rewrite E; reflexivity).
  apply Qle_antisym; apply Qmult_le_r with D; try assumption; nra.
Qed.

Lemma Qmin_cases (x y : Q) :
  (x <= y /\ Qmin x y == x)%Q \/ (y <= x /\ Qmin x y == y)%Q.
Proof.
  destruct (Q.min_spec x y) as [[H E]|[H E]]; [left|right];
    (split; [|exact E]); lra.
Qed.

(** X18. Lines 152-154 in binary64, for an image and bounds of positive
    dimensions with [w], [h], [w * max_h] and [h * max_w] below 2^50: no
    exception is raised and each output dimension is within half a pixel
    of the exactly scaled one, [w * scale] or [h * scale] with [scale =
    min(1, max_w/w, max_h/h)].  It is the rounding of the exactly scaled
    dimension, as in [normalize_size], unless that lies half-way between
    two integers. *)
Theorem normalize_b64_agrees (max_w max_h w h : Z) :
  0 < w < 2 ^ 50 -> 0 < h < 2 ^ 50 -> 0 < max_w -> 0 < max_h ->
  w * max_h < 2 ^ 50 -> h * max_w < 2 ^ 50 ->
  exists w2 h2,
    normalize_size_b64 max_w max_h w h = Done (w2, h2) /\
    ((inject_Z w2 - inject_Z w * normalize_scale max_w max_h w h <= 1 # 2) /\
     (inject_Z w * normalize_scale max_w max_h w h - inject_Z w2 <= 1 # 2))%Q /\
    ((inject_Z h2 - inject_Z h * normalize_scale max_w max_h w h <= 1 # 2) /\
     (inject_Z h * normalize_scale max_w max_h w h - inject_Z h2 <= 1 # 2))%Q /\
    ((forall k, ~ (inject_Z w * normalize_scale max_w max_h w h ==
                   inject_Z k + (1 # 2))%Q) ->
     w2 = fst (normalize_size max_w max_h w h)) /\
    ((forall k, ~ (inject_Z h * normalize_scale max_w max_h w h ==
                   inject_Z k + (1 # 2))%Q) ->
     h2 = snd (normalize_size max_w max_h w h)).
Proof.
  intros Hw Hh Hmw Hmh Hwm Hhm.
  assert (Bmw : 0 < max_w < 2 ^ 50) by nia.
  assert (Bmh : 0 < max_h < 2 ^ 50) by nia.
  unfold normalize_size_b64, normalize_size, normalize_scale.
  destruct (w >? 0) eqn:Ew; [|rewrite Z.gtb_ltb in Ew; apply Z.ltb_ge in Ew; lia].
  destruct (h >? 0) eqn:Eh; [|rewrite Z.gtb_ltb in Eh; apply Z.ltb_ge in Eh; lia].
  destruct (int_true_div_near max_w w Bmw ltac:(lia)) as (fa & -> & A1 & A2).
  destruct (int_true_div_near max_h h Bmh ltac:(lia)) as (fb & -> & B1 & B2).
  cbn [bind fst snd].
  pose proof (inject_Z_pos w ltac:(lia)) as PW.
  pose proof (inject_Z_pos h ltac:(lia)) as PH.
  pose proof (inject_Z_pos max_w Hmw) as PMW.
  pose proof (inject_Z_pos max_h Hmh) as PMH.
  assert (BW : (inject_Z w < 1125899906842624)%Q).
  { change 1125899906842624%Q with (inject_Z (2 ^ 50)).
    rewrite <- Zlt_Qlt. lia. }
  assert (BH : (inject_Z h < 1125899906842624)%Q).
  { change 1125899906842624%Q with (inject_Z (2 ^ 50)).
    rewrite <- Zlt_Qlt. lia. }
  assert (IMW : (1 <= inject_Z max_w)%Q).
  { change 1%Q with (inject_Z 1). rewrite <- Zle_Qle. lia. }
  assert (IMH : (1 <= inject_Z max_h)%Q).
  { change 1%Q with (inject_Z 1). rewrite <- Zle_Qle. lia. }
  assert (Ea : (inject_Z max_w / inject_Z w * inject_Z w == inject_Z max_w)%Q)
    by (field; lra).
  assert (Eb : (inject_Z max_h / inject_Z h * inject_Z h == inject_Z max_h)%Q)
    by (field; lra).
  set (qa := (inject_Z max_w / inject_Z w)%Q) in *.
  set (qb := (inject_Z max_h / inject_Z h)%Q) in *.
  set (W := inject_Z w) in *. set (H := inject_Z h) in *.
  set (MW := inject_Z max_w) in *. set (MH := inject_Z max_h) in *.
  assert (Qa : (1 # 1125899906842624 <= qa)%Q).
  { destruct (Qlt_le_dec qa (1 # 1125899906842624)) as [C|C]; [|assumption].
    exfalso. nra. }
  assert (Qb : (1 # 1125899906842624 <= qb)%Q).
  { destruct (Qlt_le_dec qb (1 # 1125899906842624)) as [C|C]; [|assumption].
    exfalso. nra. }
  set (x := Qmin 1 (Qmin qa qb)).
  set (sf := Qmin 1 (Qmin fa fb)).
  assert (Bsf : (x * (1 - u53) <= sf)%Q /\ (sf <= x * (1 + u53))%Q).
  { unfold x, sf, u53 in *.
    destruct (Qmin_cases qa qb) as [[L1 E1]|[L1 E1]];
      destruct (Qmin_cases 1 (Qmin qa qb)) as [[L2 E2]|[L2 E2]];
      destruct (Qmin_cases fa fb) as [[L3 E3]|[L3 E3]];
      destruct (Qmin_cases 1 (Qmin fa fb)) as [[L4 E4]|[L4 E4]];
      revert L2 E2 L4 E4 E1 E3;
      generalize (Qmin qa qb) (Qmin fa fb)
                 (Qmin 1 (Qmin qa qb)) (Qmin 1 (Qmin fa fb));
      intros; split; lra. }
  destruct Bsf as [Bsf1 Bsf2].
  assert (X0 : (1 # 1125899906842624 <= x)%Q /\ (x <= 1)%Q).
  { unfold x.
    destruct (Qmin_cases qa qb) as [[L1 E1]|[L1 E1]];
      destruct (Qmin_cases 1 (Qmin qa qb)) as [[L2 E2]|[L2 E2]];
      revert L2 E2 E1;
      generalize (Qmin qa qb) (Qmin 1 (Qmin qa qb));
      intros; split; lra. }
  assert (S0 : (2 ^ (-100) <= sf)%Q).
  { apply Qle_trans with (2 ^ (-51))%Q; [apply pow2_le; lia|].
    change (2 ^ (-51))%Q with (1 # 2251799813685248)%Q.
    unfold u53 in *. nra. }
  assert (S1 : (sf < 2 ^ 100)%Q).
  { apply Qlt_le_trans with (2 ^ 1)%Q; [|apply pow2_le; lia].
    change (2 ^ 1)%Q with 2%Q. unfold u53 in *. nra. }
  assert (Hquot : exists nw dw nh dh,
            0 < dw /\ 0 <= nw < 2 ^ 50 /\
            (W * x * inject_Z dw == inject_Z nw)%Q /\
            0 < dh /\ 0 <= nh < 2 ^ 50 /\
            (H * x * inject_Z dh == inject_Z nh)%Q).
  { unfold x.
    destruct (Qmin_cases 1 (Qmin qa qb)) as [[L2 E2]|[L2 E2]].
    - exists w, 1, h, 1. rewrite E2. change (inject_Z 1) with 1%Q.
      repeat split; try lia; unfold W, H; ring.
    - destruct (Qmin_cases qa qb) as [[L1 E1]|[L1 E1]].
      + exists max_w, 1, (h * max_w), w. rewrite E2, E1.
        change (inject_Z 1) with 1%Q. rewrite inject_Z_mult. fold W H MW.
        repeat split; try lia; rewrite <- Ea; ring.
      + exists (w * max_h), h, max_h, 1. rewrite E2, E1.
        change (inject_Z 1) with 1%Q. rewrite inject_Z_mult. fold W H MH.
        repeat split; try lia; rewrite <- Eb; ring. }
  destruct Hquot as (nw & dw & nh & dh & Hdw & Hnw & Exw & Hdh & Hnh & Exh).
  destruct (round_product_quotient w nw dw x sf ltac:(lia) Hdw Hnw Exw
              S0 S1 Bsf1 Bsf2) as (w2 & Rw & Gw1 & Gw2 & Gw3).
  destruct (round_product_quotient h nh dh x sf ltac:(lia) Hdh Hnh Exh
              S0 S1 Bsf1 Bsf2) as (h2 & Rh & Gh1 & Gh2 & Gh3).
  fold sf. rewrite Rw. cbn [bind]. rewrite Rh. cbn [bind].
  exists w2, h2. split; [reflexivity|].
  fold x. repeat split; assumption.
Qed.

Lemma normalize_b64_agrees_witness :
  exists w2 h2,
    normalize_size_b64 100 100 300 200 = Done (w2, h2) /\
    ((inject_Z w2 - inject_Z 300 * normalize_scale 100 100 300 200 <= 1 # 2) /\
     (inject_Z 300 * normalize_scale 100 100 300 200 - inject_Z w2 <= 1 # 2))%Q
    /\
    ((inject_Z h2 - inject_Z 200 * normalize_scale 100 100 300 200 <= 1 # 2) /\
     (inject_Z 200 * normalize_scale 100 100 300 200 - inject_Z h2 <= 1 # 2))%Q
    /\
    ((forall k, ~ (inject_Z 300 * normalize_scale 100 100 300 200 ==
                   inject_Z k + (1 # 2))%Q) ->
     w2 = fst (normalize_size 100 100 300 200)) /\
    ((forall k, ~ (inject_Z 200 * normalize_scale 100 100 300 200 ==
                   inject_Z k + (1 # 2))%Q) ->
     h2 = snd (normalize_size 100 100 300 200)).
Proof.
  apply (normalize_b64_agrees 100 100 300 200);
    try (split; reflexivity); reflexivity.
Defined.

(** Where the two readings of the floats part.  At a tie the errors of the
    float operations decide: an image of 22 x 55 scaled to the width 3 has
    the exact height 7.5, which rounds to 8, and the float height
    7.4999999999999991, which rounds to 7; an image of 4590 x 27 on A4 at
    300 dpi has the exact height 14.5 and the float height
    14.500000000000002.  Beyond 2^53 the conversion of an integer is not
    exact, and beyond the largest float it raises [OverflowError]. *)
Lemma binary64_ties_and_overflow :
  fallback_size_b64 23 10 [mkSize 22 55 0] = Done (mkSize 22 55 0, 3, 7) /\
  fallback_size 23 10 [mkSize 22 55 0] = Done (mkSize 22 55 0, 3, 8) /\
  normalize_size_b64 2465 3491 4590 27 = Done (2465, 15) /\
  normalize_size 2465 3491 4590 27 = (2465, 14) /\
  fallback_size_b64 300 10 [mkSize 1000 100000000000000003 0] =
    Done (mkSize 1000 100000000000000003 0, 280, 28000000000000004) /\
  fallback_size_b64 300 10 [mkSize (10 ^ 400) 5 0] = Raise OverflowError.
Proof. repeat split; vm_compute; reflexivity. Qed.

(** ** More on size normalisation *)

Lemma ratio_ge_one (m w : Z) :
  0 < w -> w <= m -> (1 <= inject_Z m / inject_Z w)%Q.
Proof.
  intros Hw Hm. apply Qle_shift_div_l; [now apply inject_Z_pos|].
  rewrite Qmult_1_l, <- Zle_Qle. exact Hm.
Qed.

Lemma normalize_scale_one (max_w max_h w h : Z) :
  0 <= w <= max_w -> 0 <= h <= max_h ->
  (normalize_scale max_w max_h w h == 1)%Q.
Proof.
  intros Hw Hh. unfold normalize_scale.
  apply Q.min_l. apply Q.min_glb.
  - destruct (w >? 0) eqn:E; [|apply Qle_refl].
    apply ratio_ge_one; lia.
  - destruct (h >? 0) eqn:E; [|apply Qle_refl].
    apply ratio_ge_one; lia.
Qed.

(** X7. An image that already fits the bounds, [0 <= w <= max_w] and [0 <=
    h <= max_h], is left as it is by lines 152-154 (a zero dimension
    included: its division is skipped). *)
Theorem normalize_fits_unchanged (max_w max_h w h : Z) :
  0 <= w <= max_w -> 0 <= h <= max_h ->
  normalize_size max_w max_h w h = (w, h).
Proof.
  intros Hw Hh. unfold normalize_size.
  pose proof (normalize_scale_one max_w max_h w h Hw Hh) as E.
  rewrite (py_round_comp _ (inject_Z w)) by (rewrite E; ring).
  rewrite (py_round_comp (inject_Z h * _) (inject_Z h)) by (rewrite E; ring).
  now rewrite !py_round_inject_Z.
Qed.

Lemma normalize_fits_unchanged_witness :
  normalize_size 100 100 50 30 = (50, 30).
Proof.
  apply (normalize_fits_unchanged 100 100 50 30); split; discriminate.
Defined.

Lemma normalize_scale_range (max_w max_h w h : Z) :
  0 < w -> 0 < h -> 0 < max_w -> 0 < max_h ->
  (0 < normalize_scale max_w max_h w h)%Q /\
  (normalize_scale max_w max_h w h <= inject_Z max_w / inject_Z w)%Q /\
  (normalize_scale max_w max_h w h <= inject_Z max_h / inject_Z h)%Q.
Proof.
  intros Hw Hh Hmw Hmh. unfold normalize_scale.
  rewrite !Z.gtb_ltb.
  destruct (0 <? w) eqn:E1; [|apply Z.ltb_ge in E1; lia].
  destruct (0 <? h) eqn:E2; [|apply Z.ltb_ge in E2; lia].
  split; [|split].
  - apply Q.min_glb_lt; [reflexivity|].
    apply Q.min_glb_lt; now apply ratio_pos.
  - eapply Qle_trans; [apply Q.le_min_r|apply Q.le_min_l].
  - eapply Qle_trans; [apply Q.le_min_r|apply Q.le_min_r].
Qed.

Lemma normalize_size_bounds (max_w max_h w h : Z) :
  0 < w -> 0 < h -> 0 < max_w -> 0 < max_h ->
  0 <= fst (normalize_size max_w max_h w h) <= max_w /\
  0 <= snd (normalize_size max_w max_h w h) <= max_h.
Proof.
  intros Hw Hh Hmw Hmh.
  destruct (normalize_scale_range max_w max_h w h Hw Hh Hmw Hmh)
    as (Hpos & Ha & Hb).
  unfold normalize_size. cbn [fst snd].
  set (scale := normalize_scale max_w max_h w h) in *.
  repeat split.
  - apply py_round_nonneg, Qmult_le_0_compat;
      [apply Qlt_le_weak, inject_Z_pos, Hw|apply Qlt_le_weak, Hpos].
  - apply py_round_le_int.
    rewrite <- (scale_cancel max_w w) by lia. now apply scaled_le.
  - apply py_round_nonneg, Qmult_le_0_compat;
      [apply Qlt_le_weak, inject_Z_pos, Hh|apply Qlt_le_weak, Hpos].
  - apply py_round_le_int.
    rewrite <- (scale_cancel max_h h) by lia. now apply scaled_le.
Qed.

(** X8. Normalising twice is normalising once: for positive natural
    dimensions and positive bounds, the normalised size is left as it is
    by a second run of lines 152-154 with the same bounds. *)
Theorem normalize_idempotent (max_w max_h w h : Z) :
  0 < w -> 0 < h -> 0 < max_w -> 0 < max_h ->
  normalize_size max_w max_h
    (fst (normalize_size max_w max_h w h))
    (snd (normalize_size max_w max_h w h)) =
  normalize_size max_w max_h w h.
Proof.
  intros Hw Hh Hmw Hmh.
  destruct (normalize_size_bounds max_w max_h w h Hw Hh Hmw Hmh) as [Bw Bh].
  destruct (normalize_size max_w max_h w h) as [w2 h2]. cbn [fst snd] in *.
  pose proof (normalize_scale_one max_w max_h w2 h2 Bw Bh) as E.
  unfold normalize_size.
  rewrite (py_round_comp _ (inject_Z w2)) by (rewrite E; ring).
  rewrite (py_round_comp (inject_Z h2 * _) (inject_Z h2))
    by (rewrite E; ring).
  now rewrite !py_round_inject_Z.
Qed.

Lemma normalize_idempotent_witness :
  normalize_size 100 100
    (fst (normalize_size 100 100 300 200))
    (snd (normalize_size 100 100 300 200)) =
  normalize_size 100 100 300 200.
Proof.
  apply (normalize_idempotent 100 100 300 200); reflexivity.
Defined.

(** X9. Normalisation keeps the aspect ratio up to rounding: for
    non-negative natural dimensions [w], [h] and any bounds, the normalised
    size [(w2, h2)] has [|w2*h - h2*w| <= (w + h) / 2], both dimensions
    being scaled by the same factor and rounded by at most half a pixel. *)
Theorem normalize_keeps_aspect (max_w max_h w h : Z) :
  0 <= w -> 0 <= h ->
  - (w + h) <=
  2 * (fst (normalize_size max_w max_h w h) * h -
       snd (normalize_size max_w max_h w h) * w) <= w + h.
Proof.
  intros Hw Hh. unfold normalize_size. cbn [fst snd].
  set (scale := normalize_scale max_w max_h w h).
  destruct (py_round_near (inject_Z w * scale)) as [W1 W2].
  destruct (py_round_near (inject_Z h * scale)) as [H1 H2].
  set (w2 := py_round (inject_Z w * scale)) in *.
  set (h2 := py_round (inject_Z h * scale)) in *.
  rewrite Zle_Qle in Hw, Hh. change (inject_Z 0) with 0%Q in Hw, Hh.
  split; rewrite Zle_Qle;
    rewrite ?inject_Z_opp, ?inject_Z_mult, ?inject_Z_plus;
    unfold Z.sub; rewrite ?inject_Z_mult, ?inject_Z_plus, ?inject_Z_opp,
      ?inject_Z_mult; change (inject_Z 2) with 2%Q; nra.
Qed.

Lemma normalize_keeps_aspect_witness :
  - (300 + 200) <=
  2 * (fst (normalize_size 100 100 300 200) * 200 -
       snd (normalize_size 100 100 300 200) * 300) <= 300 + 200.
Proof.
  apply (normalize_keeps_aspect 100 100 300 200); discriminate.
Defined.

(** ** The ordering of [main], in one statement *)

(** X10. The ordering of line 158 is the stable sort by descending height:
    its result is a permutation of [sizes], heights never increase along
    it, and the images of any one height keep the order they had in
    [sizes]. *)
Theorem ordering_is_stable_sort (sizes : list size) :
  Permutation (sort_desc sizes) sizes /\
  (forall i j a b, (i < j)%nat ->
     nth_error (sort_desc sizes) i = Some a ->
     nth_error (sort_desc sizes) j = Some b -> sz_h b <= sz_h a) /\
  (forall k, filter (fun s => sz_h s =? k) (sort_desc sizes) =
             filter (fun s => sz_h s =? k) sizes).
Proof.
  split; [apply sort_desc_perm|]. split; [|intros k; apply sort_desc_stable].
  pose proof (sort_desc_sorted sizes) as Hs. unfold sorted_desc in Hs.
  induction Hs as [|x l Hl IH Hx]; intros i j a b Hij Hi Hj.
  - destruct i; discriminate.
  - destruct j as [|j]; [lia|]. cbn [nth_error] in Hj.
    destruct i as [|i]; cbn [nth_error] in Hi.
    + injection Hi as <-. rewrite Forall_forall in Hx.
      apply Hx. eapply nth_error_In; eassumption.
    + apply (IH i j a b); [lia|assumption..].
Qed.


(** ** The image files of a folder *)

Lemma endswith_spec (s suffix : String.string) :
  endswith s suffix = true <-> exists stem, s = String.append stem suffix.
Proof.
  induction s as [|c s IH]; cbn [endswith].
  - rewrite orb_false_r, String.eqb_eq. split.
    + intros <-. now exists ""%string.
    + intros [stem E]. destruct stem; simpl in E; [congruence|discriminate].
  - rewrite orb_true_iff, String.eqb_eq, IH. split.
    + intros [<-|[stem ->]]; [now exists ""%string|].
      now exists (String.String c stem).
    + intros [stem E]. destruct stem as [|d stem]; simpl in E.
      * now left.
      * right. injection E as _ E. now exists stem.
Qed.

Lemma ascii_compare_lt_trans (a b c : Ascii.ascii) :
  Ascii.compare a b = Lt -> Ascii.compare b c = Lt -> Ascii.compare a c = Lt.
Proof.
  unfold Ascii.compare. rewrite !N.compare_lt_iff. apply N.lt_trans.
Qed.

Lemma string_compare_lt_trans (s1 : String.string) :
  forall s2 s3,
    String.compare s1 s2 = Lt -> String.compare s2 s3 = Lt ->
    String.compare s1 s3 = Lt.
Proof.
  induction s1 as [|a s1 IH]; intros [|b s2] [|c s3]; simpl;
    try congruence.
  destruct (Ascii.compare a b) eqn:Eab; try discriminate;
    destruct (Ascii.compare b c) eqn:Ebc; try discriminate; intros H1 H2.
  - apply Ascii.compare_eq_iff in Eab, Ebc. subst.
    assert (E : Ascii.compare c c = Eq).
    { unfold Ascii.compare. apply N.compare_refl. }
    rewrite E. now apply (IH s2 s3).
  - apply Ascii.compare_eq_iff in Eab. subst. now rewrite Ebc.
  - apply Ascii.compare_eq_iff in Ebc. subst. now rewrite Eab.
  - now rewrite (ascii_compare_lt_trans _ _ _ Eab Ebc).
Qed.

Lemma string_leb_lt (s1 s2 : String.string) :
  String.leb s1 s2 = true <-> String.compare s1 s2 = Lt \/ s1 = s2.
Proof.
  unfold String.leb. split.
  - destruct (String.compare s1 s2) eqn:E; try discriminate; intros _.
    + right. now apply String.compare_eq_iff.
    + now left.
  - intros [-> | ->]; [reflexivity|].
    assert (E : String.compare s2 s2 = Eq).
    { induction s2 as [|c s IH]; simpl; [reflexivity|].
      unfold Ascii.compare. now rewrite N.compare_refl. }
    now rewrite E.
Qed.

Lemma string_leb_trans (s1 s2 s3 : String.string) :
  String.leb s1 s2 = true -> String.leb s2 s3 = true ->
  String.leb s1 s3 = true.
Proof.
  rewrite !string_leb_lt. intros [H1| ->] [H2| ->]; auto.
  left. eapply string_compare_lt_trans; eassumption.
Qed.

Lemma insert_name_perm (f : String.string) (l : list String.string) :
  Permutation (insert_name f l) (f :: l).
Proof.
  induction l as [|g l IH]; simpl; [apply Permutation_refl|].
  destruct (String.leb f g); [apply Permutation_refl|].
  eapply Permutation_trans; [apply perm_skip, IH|apply perm_swap].
Qed.

Lemma insert_name_sorted (f : String.string) (l : list String.string) :
  names_sorted l -> names_sorted (insert_name f l).
Proof.
  unfold names_sorted.
  induction 1 as [|g l Hl IH Hg]; simpl.
  - constructor; constructor.
  - destruct (String.leb f g) eqn:E.
    + constructor; [now constructor|]. constructor; [assumption|].
      eapply Forall_impl; [|exact Hg]. cbn beta. intros h Hh.
      eapply string_leb_trans; eassumption.
    + constructor; [assumption|].
      eapply Permutation_Forall;
        [apply Permutation_sym, insert_name_perm|].
      constructor; [|assumption].
      destruct (String.leb_total f g) as [C|C]; congruence.
Qed.

Lemma py_sorted_sorted (l : list String.string) : names_sorted (py_sorted l).
Proof.
  induction l as [|f l IH]; simpl; [constructor|].
  now apply insert_name_sorted.
Qed.

Lemma py_sorted_perm (l : list String.string) : Permutation (py_sorted l) l.
Proof.
  induction l as [|f l IH]; simpl; [apply Permutation_refl|].
  eapply Permutation_trans; [apply insert_name_perm|now apply perm_skip].
Qed.

Lemma names_sorted_unique (l1 : list String.string) :
  forall l2, names_sorted l1 -> names_sorted l2 -> Permutation l1 l2 ->
    l1 = l2.
Proof.
  unfold names_sorted.
  induction l1 as [|f l1 IH]; intros l2 S1 S2 P.
  - apply Permutation_nil in P. now subst.
  - destruct l2 as [|g l2].
    { apply Permutation_sym, Permutation_nil in P. discriminate. }
    inversion S1 as [|? ? S1' F1]; subst.
    inversion S2 as [|? ? S2' F2]; subst.
    assert (E : f = g).
    { apply String.leb_antisym.
      - assert (Hg : In g (f :: l1)).
        { eapply Permutation_in; [apply Permutation_sym, P|now left]. }
        destruct Hg as [->|Hg]; [now apply string_leb_lt; right|].
        rewrite Forall_forall in F1. now apply F1.
      - assert (Hf : In f (g :: l2)).
        { eapply Permutation_in; [exact P|now left]. }
        destruct Hf as [->|Hf]; [now apply string_leb_lt; right|].
        rewrite Forall_forall in F2. now apply F2. }
    subst g. f_equal. apply IH; try assumption.
    eapply Permutation_cons_inv; eassumption.
Qed.

(** X11. The result of [list_images] does not depend on the order in
    which [os.listdir] returns the names of the folder. *)
Theorem list_images_any_order (folder : String.string)
    (listing listing' : list String.string) :
  Permutation listing listing' ->
  list_images folder listing = list_images folder listing'.
Proof.
  intros P. unfold list_images. f_equal. f_equal.
  apply names_sorted_unique; try apply py_sorted_sorted.
  eapply Permutation_trans; [apply py_sorted_perm|].
  eapply Permutation_trans; [exact P|].
  apply Permutation_sym, py_sorted_perm.
Qed.

Lemma list_images_any_order_witness :
  list_images "in"%string ["b.PNG"; "a.txt"; "A.bmp"]%string =
  list_images "in"%string ["A.bmp"; "b.PNG"; "a.txt"]%string.
Proof.
  apply (list_images_any_order "in"%string
           ["b.PNG"; "a.txt"; "A.bmp"]%string
           ["A.bmp"; "b.PNG"; "a.txt"]%string).
  eapply Permutation_trans; [apply perm_skip, perm_swap|].
  apply perm_swap.
Defined.

(** X12. [list_images] returns exactly the paths [os.path.join(folder, f)]
    of the listed names [f] whose lower-cased form ends with one of the six
    extensions of line 24: nothing else, and none of them is left out. *)
Theorem list_images_members (folder : String.string)
    (listing : list String.string) (path : String.string) :
  In path (list_images folder listing) <->
  exists f, In f listing /\ path = path_join folder f /\
    exists ext stem,
      In ext [".png"; ".jpg"; ".jpeg"; ".webp"; ".tiff"; ".bmp"]%string /\
      py_lower f = String.append stem ext.
Proof.
  unfold list_images. rewrite in_map_iff. split.
  - intros (f & <- & Hf). apply filter_In in Hf. destruct Hf as [Hin Himg].
    exists f. split; [eapply Permutation_in; [apply py_sorted_perm|exact Hin]|].
    split; [reflexivity|].
    unfold has_image_ext in Himg. apply existsb_exists in Himg.
    destruct Himg as (ext & Hext & Hends).
    apply endswith_spec in Hends. destruct Hends as [stem E].
    now exists ext, stem.
  - intros (f & Hin & -> & ext & stem & Hext & E).
    exists f. split; [reflexivity|]. apply filter_In. split.
    + eapply Permutation_in; [apply Permutation_sym, py_sorted_perm|exact Hin].
    + unfold has_image_ext. apply existsb_exists. exists ext.
      split; [exact Hext|]. apply endswith_spec. now exists stem.
Qed.

(** ** The page of [main] *)

Lemma py_round_mono (p q : Q) : (p <= q)%Q -> py_round p <= py_round q.
Proof.
  intros Hpq.
  pose proof (Qfloor_resp_le _ _ Hpq) as Hf.
  pose proof (py_round_floor p) as Bp. pose proof (py_round_floor q) as Bq.
  destruct (Z.eq_dec (Qfloor p) (Qfloor q)) as [E|N]; [|lia].
  clear Bp Bq. unfold py_round. rewrite E.
  destruct (p - inject_Z (Qfloor q) ?= 1 # 2)%Q eqn:Cp;
    destruct (q - inject_Z (Qfloor q) ?= 1 # 2)%Q eqn:Cq;
    try (destruct (Z.even (Qfloor q))); try lia;
    first [apply Qeq_alt in Cp|apply Qlt_alt in Cp|apply Qgt_alt in Cp];
    first [apply Qeq_alt in Cq|apply Qlt_alt in Cq|apply Qgt_alt in Cq];
    exfalso; lra.
Qed.

Lemma page_inches_cases (page : String.string) :
  page_inches page = (827 # 100, 1169 # 100)%Q \/
  page_inches page = (85 # 10, 110 # 10)%Q.
Proof.
  unfold page_inches, PAGE_SIZES_INCH.
  destruct (String.eqb (py_upper page) "A4"); [now left|].
  destruct (String.eqb (py_upper page) "LETTER"); [now right|now left].
Qed.

Lemma page_px_large (page : String.string) (dpi : Z) :
  3 <= dpi -> 24 < fst (page_px page dpi) /\ 24 < snd (page_px page dpi).
Proof.
  intros Hdpi. unfold page_px. cbn [fst snd].
  assert (Hq : (inject_Z 3 <= inject_Z dpi)%Q) by now rewrite <- Zle_Qle.
  destruct (page_inches_cases page) as [-> | ->]; cbn [fst snd]; split.
  - assert (M : py_round ((827 # 100) * inject_Z 3)
                <= py_round ((827 # 100) * inject_Z dpi))
      by (apply py_round_mono; lra).
    vm_compute (py_round ((827 # 100) * inject_Z 3)) in M. lia.
  - assert (M : py_round ((1169 # 100) * inject_Z 3)
                <= py_round ((1169 # 100) * inject_Z dpi))
      by (apply py_round_mono; lra).
    vm_compute (py_round ((1169 # 100) * inject_Z 3)) in M. lia.
  - assert (M : py_round ((85 # 10) * inject_Z 3)
                <= py_round ((85 # 10) * inject_Z dpi))
      by (apply py_round_mono; lra).
    vm_compute (py_round ((85 # 10) * inject_Z 3)) in M. lia.
  - assert (M : py_round ((110 # 10) * inject_Z 3)
                <= py_round ((110 # 10) * inject_Z dpi))
      by (apply py_round_mono; lra).
    vm_compute (py_round ((110 # 10) * inject_Z 3)) in M. lia.
Qed.

Lemma page_px_small (page : String.string) (dpi : Z) :
  dpi <= 2 -> snd (page_px page dpi) <= 24.
Proof.
  intros Hdpi. unfold page_px. cbn [fst snd].
  assert (Hq : (inject_Z dpi <= inject_Z 2)%Q) by now rewrite <- Zle_Qle.
  destruct (page_inches_cases page) as [-> | ->]; cbn [fst snd].
  - assert (M : py_round ((1169 # 100) * inject_Z dpi)
                <= py_round ((1169 # 100) * inject_Z 2))
      by (apply py_round_mono; lra).
    vm_compute (py_round ((1169 # 100) * inject_Z 2)) in M. lia.
  - assert (M : py_round ((110 # 10) * inject_Z dpi)
                <= py_round ((110 # 10) * inject_Z 2))
      by (apply py_round_mono; lra).
    vm_compute (py_round ((110 # 10) * inject_Z 2)) in M. lia.
Qed.

(** ** The packing step of [main] *)

(** A normalised image of height 0 is as wide as the bound. *)
Lemma normalize_zero_height (max_w max_h w h : Z) :
  0 < w -> 0 < h -> 0 < max_w -> 0 < max_h ->
  snd (normalize_size max_w max_h w h) = 0 ->
  fst (normalize_size max_w max_h w h) = max_w.
Proof.
  intros Hw Hh Hmw Hmh. unfold normalize_size, normalize_scale.
  cbn [fst snd]. rewrite !Z.gtb_ltb.
  destruct (0 <? w) eqn:E1; [|apply Z.ltb_ge in E1; lia].
  destruct (0 <? h) eqn:E2; [|apply Z.ltb_ge in E2; lia].
  destruct (Q.min_dec 1
              (Qmin (inject_Z max_w / inject_Z w)
                    (inject_Z max_h / inject_Z h))) as [E|E].
  - rewrite (py_round_comp (inject_Z h * _) (inject_Z h))
      by (rewrite E; ring).
    rewrite py_round_inject_Z. lia.
  - destruct (Q.min_dec (inject_Z max_w / inject_Z w)
                        (inject_Z max_h / inject_Z h)) as [E'|E'].
    + intros _.
      rewrite (py_round_comp _ (inject_Z max_w))
        by (rewrite E, E'; apply scale_cancel; lia).
      apply py_round_inject_Z.
    + rewrite (py_round_comp (inject_Z h * _) (inject_Z max_h))
        by (rewrite E, E'; apply scale_cancel; lia).
      rewrite py_round_inject_Z. lia.
Qed.

Lemma sizes_from_packable (page_w_px page_h_px : Z) (dims : list (Z * Z)) :
  24 < page_w_px -> 24 < page_h_px -> positive_dims dims ->
  forall i, Forall (packable page_w_px 12)
              (sizes_from page_w_px page_h_px i dims).
Proof.
  intros HW HH Hd.
  induction Hd as [|[w h] dims [Hw Hh] _ IH]; intros i; cbn [sizes_from];
    [constructor|].
  cbn [fst snd] in Hw, Hh.
  pose proof (normalize_size_bounds (page_w_px - 16) (page_h_px - 16) w h
                Hw Hh ltac:(lia) ltac:(lia)) as [Bw Bh].
  pose proof (normalize_zero_height (page_w_px - 16) (page_h_px - 16) w h
                Hw Hh ltac:(lia) ltac:(lia)) as Hz.
  destruct (normalize_size (page_w_px - 16) (page_h_px - 16) w h)
    as [w2 h2].
  cbn [fst snd] in *. constructor; [|apply IH].
  unfold packable. cbn [sz_w sz_h]. repeat split; lia.
Qed.

Lemma sizes_from_ids (page_w_px page_h_px : Z) (dims : list (Z * Z)) :
  forall i,
    map sz_idx (sizes_from page_w_px page_h_px i dims) =
    map (fun k => i + Z.of_nat k) (seq 0 (length dims)).
Proof.
  induction dims as [|[w h] dims IH]; intros i; cbn [sizes_from];
    [reflexivity|].
  destruct (normalize_size (page_w_px - 16) (page_h_px - 16) w h)
    as [w2 h2].
  cbn [map length seq sz_idx]. f_equal; [lia|].
  rewrite IH, <- seq_shift, map_map. apply map_ext. intros k. lia.
Qed.

Lemma sizes_from_length (page_w_px page_h_px : Z) (dims : list (Z * Z)) :
  forall i, length (sizes_from page_w_px page_h_px i dims) = length dims.
Proof.
  induction dims as [|[w h] dims IH]; intros i; cbn [sizes_from];
    [reflexivity|].
  destruct (normalize_size (page_w_px - 16) (page_h_px - 16) w h).
  cbn [length]. now rewrite IH.
Qed.

Lemma placed_size_id (page_w_px padding : Z) (s : size) :
  fst (fst (placed_size page_w_px padding s)) = sz_idx s.
Proof.
  unfold placed_size.
  destruct (sz_w s + 2 * padding <=? page_w_px); reflexivity.
Qed.

Lemma placement_ids_sizes (pages : list page) (l : list size)
    (page_w_px padding : Z) :
  map placement_size (concat pages) = map (placed_size page_w_px padding) l ->
  placement_ids pages = map sz_idx l.
Proof.
  intros E. unfold placement_ids.
  apply (f_equal (map (fun t : Z * Z * Z => fst (fst t)))) in E.
  rewrite !map_map in E. cbn [placement_size fst] in E.
  change (map pl_idx (concat pages) =
          map (fun x => fst (fst (placed_size page_w_px padding x))) l) in E.
  rewrite E. apply map_ext. intros s. apply placed_size_id.
Qed.

(** X13. In [main], for either page format (or any other name, which means
    A4), a resolution of at least 3 dpi and at least one image, all images
    of positive width and height: the packing step returns at least one
    page; the placements carry each image index 0 .. n-1 exactly once, so
    that the lookup of line 109 is in range and page 0 of line 173 exists;
    and every page is well laid out for padding 12 even when normalisation
    has rounded a dimension to 0. *)
Theorem main_places_every_image (page_name : String.string) (dpi : Z)
    (dims : list (Z * Z)) :
  3 <= dpi -> dims <> [] -> positive_dims dims ->
  forall gas, (length dims <= gas)%nat ->
    exists pages,
      main_packing gas page_name dpi dims = Some (Done pages) /\
      pages <> [] /\
      Permutation (placement_ids pages)
        (map Z.of_nat (seq 0 (length dims))) /\
      (forall pg p, In pg pages -> In p pg ->
         0 <= pl_idx p < Z.of_nat (length dims)) /\
      Forall (well_laid (fst (page_px page_name dpi))
                (snd (page_px page_name dpi)) 12) pages.
Proof.
  intros Hdpi Hne Hd gas Hgas.
  destruct (page_px_large page_name dpi Hdpi) as [HW HH].
  set (W := fst (page_px page_name dpi)) in *.
  set (H := snd (page_px page_name dpi)) in *.
  assert (Emain : main_packing gas page_name dpi dims =
                  Some (pack_images_shelf gas
                          (sort_desc (sizes_from W H 0 dims)) W H 12)).
  { destruct dims; [congruence|reflexivity]. }
  assert (Hpk : Forall (packable W 12) (sort_desc (sizes_from W H 0 dims))).
  { eapply Permutation_Forall; [apply Permutation_sym, sort_desc_perm|].
    now apply sizes_from_packable. }
  destruct (pack_full _ W H 12 Hpk ltac:(lia) ltac:(lia) ltac:(lia) gas)
    as (pages & Hrun & Hsz & Hpages & _ & Hall & _).
  { now rewrite sort_desc_length, sizes_from_length. }
  assert (Hids : Permutation (placement_ids pages)
                   (map Z.of_nat (seq 0 (length dims)))).
  { rewrite (placement_ids_sizes _ _ _ _ Hsz).
    eapply Permutation_trans; [apply Permutation_map, sort_desc_perm|].
    rewrite sizes_from_ids. apply Permutation_refl. }
  exists pages. rewrite Emain, Hrun.
  split; [reflexivity|]. split.
  { apply Hpages. intros E. apply (f_equal (@length size)) in E.
    rewrite sort_desc_length, sizes_from_length in E.
    destruct dims; [congruence|discriminate]. }
  split; [exact Hids|]. split; [|exact Hall].
  intros pg p Hpg Hp.
  assert (Hin : In (pl_idx p) (placement_ids pages)).
  { unfold placement_ids. apply in_map, in_concat. now exists pg. }
  apply (Permutation_in _ Hids) in Hin. apply in_map_iff in Hin.
  destruct Hin as (k & <- & Hk). apply in_seq in Hk. lia.
Qed.

Lemma main_places_every_image_witness :
  exists pages,
    main_packing 2 "A4"%string 300 [(5000, 1); (640, 480)] =
      Some (Done pages) /\
    pages <> [] /\
    Permutation (placement_ids pages)
      (map Z.of_nat (seq 0 (length [(5000, 1); (640, 480)]))) /\
    (forall pg p, In pg pages -> In p pg ->
       0 <= pl_idx p < Z.of_nat (length [(5000, 1); (640, 480)])) /\
    Forall (well_laid (fst (page_px "A4"%string 300))
              (snd (page_px "A4"%string 300)) 12) pages.
Proof.
  apply (main_places_every_image "A4"%string 300 [(5000, 1); (640, 480)]).
  - discriminate.
  - discriminate.
  - repeat constructor.
  - apply le_n.
Defined.

(** X14. In [main], with a resolution of at most 2 dpi (the page is then
    at most 24 pixels high, twice the padding of 12) and at least one
    image, whatever the images and the page format, the packing step never
    returns: the loop of line 65 appends empty pages for ever. *)
Theorem main_low_dpi_never_returns (page_name : String.string) (dpi : Z)
    (dims : list (Z * Z)) :
  dpi <= 2 -> dims <> [] ->
  forall gas, main_packing gas page_name dpi dims = Some OutOfGas.
Proof.
  intros Hdpi Hne gas.
  pose proof (page_px_small page_name dpi Hdpi) as HH.
  destruct dims as [|d dims]; [congruence|].
  cbn [main_packing]. unfold main_pages. f_equal.
  apply pack_no_height; [|lia].
  intros E. apply (f_equal (@length size)) in E.
  rewrite sort_desc_length, sizes_from_length in E. discriminate.
Qed.

Lemma main_low_dpi_never_returns_witness :
  main_packing 7 "LETTER"%string 2 [(640, 480)] = Some OutOfGas.
Proof.
  apply (main_low_dpi_never_returns "LETTER"%string 2 [(640, 480)]);
    discriminate.
Defined.

(** ** The files of the pages *)

Lemma append_cancel_l (p a b : String.string) :
  String.append p a = String.append p b -> a = b.
Proof.
  induction p as [|c p IH]; simpl; [trivial|].
  intros E. injection E as E. now apply IH.
Qed.

Lemma length_append (a b : String.string) :
  String.length (String.append a b) = (String.length a + String.length b)%nat.
Proof. induction a as [|c a IH]; simpl; [reflexivity|now rewrite IH]. Qed.

Lemma append_cancel_r (t : String.string) (a : String.string) :
  forall b, String.append a t = String.append b t -> a = b.
Proof.
  induction a as [|c a IH]; intros [|d b] E.
  - reflexivity.
  - apply (f_equal String.length) in E. simpl in E.
    rewrite length_append in E. lia.
  - apply (f_equal String.length) in E. simpl in E.
    rewrite length_append in E. lia.
  - simpl in E. injection E as -> E. f_equal. now apply IH.
Qed.

Lemma zeros_decode (n : nat) (d : Decimal.uint) :
  DecimalString.NilEmpty.uint_of_string
    (zeros n (DecimalString.NilEmpty.string_of_uint d)) =
  Some (leading_zeros n d).
Proof.
  induction n as [|n IH]; simpl; [apply DecimalString.NilEmpty.usu|].
  now rewrite IH.
Qed.

Lemma leading_zeros_value (n : nat) (d : Decimal.uint) :
  Nat.of_uint (leading_zeros n d) = Nat.of_uint d.
Proof. induction n as [|n IH]; simpl; [reflexivity|exact IH]. Qed.

(** The page number can be read back from the formatted number. *)
Lemma format_03d_decode (i : nat) :
  option_map Nat.of_uint
    (DecimalString.NilEmpty.uint_of_string (format_03d i)) = Some i.
Proof.
  unfold format_03d, py_str. rewrite zeros_decode. cbn [option_map].
  now rewrite leading_zeros_value, DecimalNat.Unsigned.of_to.
Qed.

(** X15. When the pages are written as files (lines 179-181), two pages
    with different numbers never get the same path, whatever the folder
    and however many pages there are: the page number can be read back
    from the name. *)
Theorem page_files_distinct (out : String.string) (i j : nat) :
  i <> j -> page_file out i <> page_file out j.
Proof.
  intros Hij E. apply Hij.
  unfold page_file, path_join in E. cbn [String.append] in E.
  assert (E' : String.append (format_03d i) ".jpg"%string =
               String.append (format_03d j) ".jpg"%string).
  { destruct (String.eqb out ""%string || endswith out "/"%string).
    - apply append_cancel_l in E. now injection E.
    - apply append_cancel_l in E. now injection E. }
  apply append_cancel_r in E'.
  pose proof (format_03d_decode i) as Di. rewrite E' in Di.
  rewrite format_03d_decode in Di. now injection Di.
Qed.

Lemma page_files_distinct_witness :
  page_file "out"%string 999 <> page_file "out"%string 1000.
Proof.
  apply (page_files_distinct "out"%string 999 1000). discriminate.
Defined.

(** ** Appending images *)

Lemma row_app (padding y : Z) (a b : list size) :
  forall x,
    row padding y (a ++ b) x =
    row padding y a x ++ row padding y b (row_end padding a x).
Proof.
  induction a as [|s a IH]; intros x; simpl; [reflexivity|].
  now rewrite IH.
Qed.

Lemma shelf_taken_all (page_w_px padding : Z) (l l' : list size) (x : Z) :
  shelf_taken page_w_px padding l x = l ->
  shelf_taken page_w_px padding (l ++ l') x =
    l ++ shelf_taken page_w_px padding l' (row_end padding l x).
Proof.
  intros E. apply shelf_taken_app_fits. rewrite <- E at 1. apply fits_taken.
Qed.

Lemma shelf_taken_stops (page_w_px padding : Z) (l l' : list size) :
  forall x,
    shelf_taken page_w_px padding l x <> l ->
    shelf_taken page_w_px padding (l ++ l') x =
    shelf_taken page_w_px padding l x.
Proof.
  induction l as [|s l IH]; intros x Hstop; [now contradiction Hstop|].
  cbn [app shelf_taken] in *.
  destruct (sz_w s + x + padding <=? page_w_px); [|reflexivity].
  f_equal. apply IH. intros E. apply Hstop. now rewrite E.
Qed.

Lemma shelf_taken_length (page_w_px padding : Z) (l : list size) (x : Z) :
  (length (shelf_taken page_w_px padding l x) <= length l)%nat.
Proof.
  rewrite (shelf_taken_prefix page_w_px padding l x) at 2.
  rewrite length_app. lia.
Qed.

Lemma skipn_app_same {A : Type} (a e l' : list A) :
  skipn (length (a ++ e)) (a ++ l') = skipn (length e) l'.
Proof. induction a as [|x a IH]; simpl; [reflexivity|exact IH]. Qed.

(** One run of lines 69-96 on [l ++ l'], from the run on [l]: either it is
    the same, or the run on [l] has read all of [l] and the run on [l ++
    l'] goes on with images of [l'] on the same shelf. *)
Lemma shelf_step_app (page_w_px padding y : Z) (l l' : list size)
    (placements : list placement) :
  positive_sizes (l ++ l') -> l <> [] -> 2 * padding < page_w_px ->
  exists rest' shelf_height new,
    shelf_step page_w_px padding y l placements =
      Done (rest', shelf_height, placements ++ new) /\
    (length rest' < length l)%nat /\
    (shelf_step page_w_px padding y (l ++ l') placements =
       Done (rest' ++ l', shelf_height, placements ++ new) \/
     rest' = [] /\
     exists rest'' shelf_height' extra,
       shelf_step page_w_px padding y (l ++ l') placements =
         Done (rest'', shelf_height', placements ++ new ++ extra) /\
       positive_sizes rest'' /\ (length rest'' <= length l')%nat).
Proof.
  intros Hp Hne HW.
  pose proof Hp as Hp'. apply positive_sizes_app in Hp'.
  destruct Hp' as [Hpl Hpl'].
  rewrite (shelf_step_eq _ _ _ l _ Hpl), (shelf_step_eq _ _ _ (l ++ l') _ Hp).
  pose proof (shelf_taken_prefix page_w_px padding l padding) as Hpre.
  cbn zeta in Hpre.
  destruct (list_eq_dec
              (fun a b : size =>
                 ltac:(decide equality; apply Z.eq_dec) : {a = b} + {a <> b})
              (shelf_taken page_w_px padding l padding) l) as [Eall|Estop].
  - (* all of [l] fits on the shelf *)
    rewrite (shelf_taken_all _ _ _ l' _ Eall), Eall.
    destruct l as [|s l]; [congruence|]. cbn [app].
    set (extra := shelf_taken page_w_px padding l'
                    (row_end padding (s :: l) padding)).
    exists [], (tallest (s :: l) 0), (row padding y (s :: l) padding).
    split; [now rewrite skipn_all|]. split; [simpl; lia|].
    right. split; [reflexivity|].
    exists (skipn (length extra) l'),
      (tallest (s :: l ++ extra) 0),
      (row padding y extra (row_end padding (s :: l) padding)).
    split.
    + f_equal. f_equal; [f_equal|].
      * apply (skipn_app_same (s :: l)).
      * change (s :: l ++ extra) with ((s :: l) ++ extra).
        now rewrite row_app.
    + pose proof (shelf_taken_prefix page_w_px padding l'
                    (row_end padding (s :: l) padding)) as Hpre'.
      cbn zeta in Hpre'. fold extra in Hpre'. split.
      * rewrite Hpre' in Hpl'. now apply positive_sizes_app in Hpl'.
      * rewrite length_skipn. lia.
  - (* the shelf ends inside [l] *)
    rewrite (shelf_taken_stops _ _ _ l' _ Estop).
    destruct (shelf_taken page_w_px padding l padding) as [|t taken] eqn:E.
    + destruct l as [|s l]; [congruence|]. cbn [app].
      apply shelf_taken_nil in E.
      inversion Hpl as [|? ? [Hw _] _]; subst.
      rewrite !(fallback_size_eq _ _ _ _ HW Hw). cbn [bind tl].
      eexists l, _, [_]. split; [reflexivity|]. split; [simpl; lia|].
      left. reflexivity.
    + exists (skipn (length (t :: taken)) l), (tallest (t :: taken) 0),
        (row padding y (t :: taken) padding).
      split; [reflexivity|]. split.
      * rewrite Hpre at 2. rewrite length_app. simpl. lia.
      * left.
        pose proof (shelf_taken_length page_w_px padding l padding) as Hlen.
        rewrite E in Hlen. cbv zeta.
        rewrite skipn_app.
        replace (length (t :: taken) - length l)%nat with 0%nat by lia.
        reflexivity.
Qed.

Lemma page_loop_nil (gas : nat) (page_w_px page_h_px padding y : Z)
    (placements : list placement) :
  page_loop gas page_w_px page_h_px padding [] y placements =
    Done ([], placements).
Proof. destruct gas; cbn [page_loop length Nat.eqb negb]; now rewrite andb_false_r. Qed.

(** What is left and what is added when the loop over shelves goes on
    with the images [rest'']. *)
Lemma page_loop_goes_on (page_w_px page_h_px padding : Z) (gas : nat)
    (rest'' l' : list size) (y : Z) (placements : list placement) :
  2 * padding < page_w_px ->
  positive_sizes rest'' -> (length rest'' <= length l')%nat ->
  (length rest'' <= gas)%nat ->
  exists rest3 extra,
    page_loop gas page_w_px page_h_px padding rest'' y placements =
      Done (rest3, placements ++ extra) /\
    positive_sizes rest3 /\ (length rest3 <= length l')%nat.
Proof.
  intros HW Hp Hlen Hgas.
  destruct (page_loop_spec page_w_px page_h_px padding HW gas rest'' y
              placements Hp Hgas)
    as (taken & rest3 & extra & Hrun & Hrest & _).
  exists rest3, extra. split; [exact Hrun|].
  rewrite Hrest in Hp, Hlen. apply positive_sizes_app in Hp.
  rewrite length_app in Hlen. split; [tauto|lia].
Qed.

(** The loop of lines 68-99 on [l ++ l'], from its run on [l]: either the
    page is left with images of [l] unread and is the same, or the run on
    [l] has read all of [l] and the run on [l ++ l'] only adds
    placements. *)
Lemma page_loop_app (page_w_px page_h_px padding : Z) (l' : list size) :
  2 * padding < page_w_px ->
  forall gas l y placements,
    positive_sizes (l ++ l') -> (length (l ++ l') <= gas)%nat ->
    exists rest' new,
      page_loop gas page_w_px page_h_px padding l y placements =
        Done (rest', placements ++ new) /\
      (y < page_h_px - padding -> l <> [] ->
       (length rest' < length l)%nat) /\
      (rest' <> [] /\
       page_loop gas page_w_px page_h_px padding (l ++ l') y placements =
         Done (rest' ++ l', placements ++ new) \/
       rest' = [] /\
       exists rest'' extra,
         page_loop gas page_w_px page_h_px padding (l ++ l') y placements =
           Done (rest'', placements ++ new ++ extra) /\
         positive_sizes rest'' /\ (length rest'' <= length l')%nat).
Proof.
  intros HW.
  induction gas as [|gas IH]; intros l y placements Hp Hgas.
  { destruct l as [|s l]; [|simpl in Hgas; lia].
    destruct l' as [|s' l']; [|simpl in Hgas; lia].
    exists [], []. rewrite app_nil_r. cbn [app].
    split; [apply page_loop_nil|]. split; [congruence|].
    right. split; [reflexivity|]. exists [], [].
    rewrite app_nil_r. split; [apply page_loop_nil|].
    split; [constructor|simpl; lia]. }
  pose proof Hp as Hp'. apply positive_sizes_app in Hp'.
  destruct Hp' as [Hpl Hpl'].
  destruct l as [|s l].
  { (* nothing of [l] is left: all that is placed is extra *)
    exists [], []. rewrite app_nil_r. cbn [app] in *.
    split; [apply page_loop_nil|]. split; [congruence|].
    right. split; [reflexivity|].
    destruct (page_loop_goes_on page_w_px page_h_px padding (S gas) l' l' y
                placements HW Hpl' (le_n _) Hgas)
      as (rest3 & extra & Hrun & Hp3 & Hl3).
    exists rest3, extra. repeat split; assumption. }
  destruct (y <? page_h_px - padding) eqn:Hy.
  2:{ (* the cursor is already below the page *)
      exists (s :: l), []. rewrite app_nil_r.
      cbn [page_loop app]. rewrite Hy. cbn [andb].
      split; [reflexivity|]. split; [apply Z.ltb_ge in Hy; lia|].
      left. split; [discriminate|reflexivity]. }
  destruct (shelf_step_app page_w_px padding y (s :: l) l' placements Hp
              ltac:(discriminate) HW)
    as (rest1 & sh & new1 & Hstep & Hlt & Hboth).
  assert (Hlen1 : (length (rest1 ++ l') <= gas)%nat).
  { rewrite length_app in *. simpl in Hgas, Hlt. lia. }
  assert (Hp1 : positive_sizes (rest1 ++ l')).
  { apply positive_sizes_app. split; [|assumption].
    pose proof (shelf_step_spec page_w_px padding y (s :: l) placements Hpl
                  ltac:(discriminate) HW)
      as (taken & r & h & n & Hs & Hr & _).
    rewrite Hs in Hstep. injection Hstep as -> _ _.
    rewrite Hr in Hpl. now apply positive_sizes_app in Hpl. }
  cbn [page_loop app length Nat.eqb negb]. rewrite Hy. cbn [andb].
  rewrite Hstep. cbn [bind].
  destruct Hboth as [Hsame|(-> & rest'' & sh' & extra & Hext & Hp'' & Hl'')].
  - (* the same shelf in both runs *)
    change (s :: l ++ l') with ((s :: l) ++ l') in Hsame.
    cbn [app] in Hsame. rewrite Hsame. cbn [bind].
    destruct (y + (sh + padding) >=? page_h_px - padding) eqn:Hfull.
    + destruct rest1 as [|r rest1].
      * (* [l] is read; the page is full *)
        cbn [app length Nat.eqb negb andb].
        exists [], new1. split; [apply page_loop_nil|].
        split; [simpl; lia|]. right. split; [reflexivity|].
        destruct l' as [|s' l'].
        -- exists [], []. rewrite app_nil_r.
           split; [apply page_loop_nil|]. split; [constructor|simpl; lia].
        -- exists (s' :: l'), []. rewrite app_nil_r.
           split; [reflexivity|]. split; [assumption|lia].
      * cbn [app length Nat.eqb negb andb].
        exists (r :: rest1), new1. split; [reflexivity|].
        split; [intros _ _; exact Hlt|].
        left. split; [discriminate|reflexivity].
    + cbn [andb].
      destruct (IH rest1 (y + (sh + padding)) (placements ++ new1) Hp1 Hlen1)
        as (rest2 & new2 & Hrun & Hlt2 & Hcases).
      rewrite Hrun. exists rest2, (new1 ++ new2).
      split; [now rewrite app_assoc|].
      split.
      { intros _ _. destruct rest1 as [|r rest1].
        - rewrite page_loop_nil in Hrun. injection Hrun as <- _.
          simpl. simpl in Hlt. lia.
        - rewrite Z.geb_leb in Hfull. apply Z.leb_gt in Hfull.
          specialize (Hlt2 ltac:(lia) ltac:(discriminate)).
          cbn [length] in Hlt, Hlt2 |- *. lia. }
      destruct Hcases as [[Hne2 Hrun2]|(-> & rest3 & extra & Hrun3 & Hp3 & Hl3)].
      * left. split; [assumption|]. rewrite Hrun2. now rewrite app_assoc.
      * right. split; [reflexivity|]. exists rest3, extra.
        rewrite Hrun3. rewrite <- !app_assoc.
        repeat split; assumption.
  - (* the shelf of [l] goes on with images of [l'] *)
    cbn [length Nat.eqb negb]. rewrite andb_false_r.
    change (s :: l ++ l') with ((s :: l) ++ l') in Hext.
    cbn [app] in Hext. rewrite Hext. cbn [bind].
    exists [], new1. split; [apply page_loop_nil|].
    split; [simpl; lia|]. right. split; [reflexivity|].
    destruct ((y + (sh' + padding) >=? page_h_px - padding)
              && negb (length rest'' =? 0)%nat).
    + exists rest'', extra. repeat split; assumption.
    + destruct (page_loop_goes_on page_w_px page_h_px padding gas rest'' l'
                  (y + (sh' + padding)) (placements ++ new1 ++ extra)
                  HW Hp'' Hl'')
        as (rest3 & extra' & Hrun & Hp3 & Hl3).
      { rewrite length_app in Hlen1. lia. }
      exists rest3, (extra ++ extra'). rewrite Hrun.
      rewrite <- !app_assoc. repeat split; assumption.
Qed.

Lemma pages_loop_nil (gas budget : nat) (page_w_px page_h_px padding : Z)
    (pages : list page) :
  pages_loop gas budget page_w_px page_h_px padding [] pages = Done pages.
Proof. destruct gas; reflexivity. Qed.

(** The loop of lines 65-100 on [l ++ l'], from its run on [l]: the pages
    before the last are the same, the last page of [l] is gone on with,
    and pages may follow. *)
Lemma pages_loop_app (page_w_px page_h_px padding : Z) (budget : nat)
    (l' : list size) :
  2 * padding < page_w_px -> 2 * padding < page_h_px ->
  forall gas l pages,
    positive_sizes (l ++ l') -> l <> [] ->
    (length (l ++ l') <= gas)%nat -> (length (l ++ l') <= budget)%nat ->
    exists init last more tail,
      pages_loop gas budget page_w_px page_h_px padding l pages =
        Done (pages ++ init ++ [last]) /\
      pages_loop gas budget page_w_px page_h_px padding (l ++ l') pages =
        Done (pages ++ init ++ [last ++ more] ++ tail).
Proof.
  intros HW HH.
  induction gas as [|gas IH]; intros l pages Hp Hne Hgas Hbud.
  { destruct l; [congruence|simpl in Hgas; lia]. }
  destruct l as [|s l]; [congruence|].
  destruct (page_loop_app page_w_px page_h_px padding l' HW budget (s :: l)
              padding [] Hp Hbud)
    as (rest' & new & Hrun & Hlt & Hcases).
  specialize (Hlt ltac:(lia) Hne).
  pose proof Hp as Hp0. apply positive_sizes_app in Hp0.
  destruct Hp0 as [Hpl Hpl'].
  assert (Hp' : positive_sizes (rest' ++ l')).
  { apply positive_sizes_app. split; [|assumption].
    destruct (page_loop_spec page_w_px page_h_px padding HW budget (s :: l)
                padding [] Hpl)
      as (taken & r & n & Hs & Hr & _).
    { rewrite length_app in Hbud. lia. }
    rewrite Hs in Hrun. injection Hrun as -> _.
    rewrite Hr in Hpl. now apply positive_sizes_app in Hpl. }
  cbn [pages_loop app length Nat.eqb negb].
  rewrite Hrun. cbn [bind app].
  destruct Hcases as [[Hne' Hrun']|(-> & rest'' & extra & Hrun' & Hp'' & Hl'')].
  - change (s :: l ++ l') with ((s :: l) ++ l') in Hrun'.
    cbn [app] in Hrun'. rewrite Hrun'. cbn [bind app].
    destruct (IH rest' (pages ++ [new]) Hp' Hne') as
      (init & last & more & tail & Hone & Htwo).
    { rewrite length_app in *. cbn [length] in Hgas, Hlt. lia. }
    { rewrite length_app in *. cbn [length] in Hbud, Hlt. lia. }
    exists (new :: init), last, more, tail.
    rewrite Hone, Htwo. cbn [app]. rewrite <- !app_assoc. split; reflexivity.
  - change (s :: l ++ l') with ((s :: l) ++ l') in Hrun'.
    cbn [app] in Hrun'. rewrite Hrun'. cbn [bind app].
    rewrite pages_loop_nil.
    destruct (pages_loop_spec page_w_px page_h_px padding budget HW HH gas
                rest'' (pages ++ [new ++ extra]) Hp'')
      as (tail & Htail & _).
    { rewrite length_app in Hgas. cbn [length] in Hgas. lia. }
    { rewrite length_app in Hbud. cbn [length] in Hbud. lia. }
    exists [], new, extra, tail.
    rewrite Htail. cbn [app]. rewrite <- !app_assoc. split; reflexivity.
Qed.

(** X16. Images appended to the input do not move what was placed before:
    for sizes of positive width and height and a page wider and higher than
    twice the padding, the pages that [pack_images_shelf] returns for
    [l ++ l'] are those it returns for [l], with placements added at the
    end of the last page of [l] and pages added after it. *)
Theorem appending_keeps_layout (l l' : list size)
    (page_w_px page_h_px padding : Z) :
  positive_sizes l -> positive_sizes l' -> l <> [] ->
  2 * padding < page_w_px -> 2 * padding < page_h_px ->
  forall gas gas',
    (length l <= gas)%nat -> (length (l ++ l') <= gas')%nat ->
    exists init last more tail,
      pack_images_shelf gas l page_w_px page_h_px padding =
        Done (init ++ [last]) /\
      pack_images_shelf gas' (l ++ l') page_w_px page_h_px padding =
        Done (init ++ [last ++ more] ++ tail).
Proof.
  intros Hl Hl' Hne HW HH gas gas' Hgas Hgas'.
  assert (Hp : positive_sizes (l ++ l')).
  { apply positive_sizes_app. now split. }
  destruct (pages_loop_app page_w_px page_h_px padding gas' l' HW HH gas' l
              [] Hp Hne Hgas' Hgas')
    as (init & last & more & tail & Hone & Htwo).
  exists init, last, more, tail. split; [|exact Htwo].
  destruct (pack_count l page_w_px page_h_px padding Hl HW HH) as [Hex _].
  destruct (Hex gas Hgas) as [pages Hrun].
  rewrite Hrun. f_equal.
  exact (pack_from_gas gas' l page_w_px page_h_px padding _ Hone gas pages
           Hrun).
Qed.

Lemma appending_keeps_layout_witness :
  exists init last more tail,
    pack_images_shelf 5 scenario_c 300 300 10 = Done (init ++ [last]) /\
    pack_images_shelf 7 (scenario_c ++ [mkSize 20 20 5; mkSize 250 50 6])
        300 300 10 =
      Done (init ++ [last ++ more] ++ tail).
Proof.
  apply (appending_keeps_layout scenario_c [mkSize 20 20 5; mkSize 250 50 6]
           300 300 10).
  - unfold scenario_c. positive_list.
  - positive_list.
  - discriminate.
  - reflexivity.
  - reflexivity.
  - apply le_n.
  - apply le_n.
Defined.

(** ** The order of the paths *)

Lemma string_leb_append (a x y : String.string) :
  String.leb (String.append a x) (String.append a y) = String.leb x y.
Proof.
  unfold String.leb.
  induction a as [|c a IH]; cbn [String.append String.compare];
    [reflexivity|].
  assert (E : Ascii.compare c c = Eq).
  { unfold Ascii.compare. apply N.compare_refl. }
  now rewrite E.
Qed.

Lemma append_assoc (a b c : String.string) :
  String.append (String.append a b) c = String.append a (String.append b c).
Proof.
  induction a as [|d a IH]; cbn [String.append]; [reflexivity|].
  now rewrite IH.
Qed.

(** [os.path.join] on two components: but for a component that starts
    with a slash, what is put before the component depends on the folder
    only. *)
Lemma path_join_prefix (a : String.string) :
  exists prefix, forall p,
    (forall t, p <> String.String "/"%char t) ->
    path_join a p = String.append prefix p.
Proof.
  exists (if String.eqb a ""%string || endswith a "/"%string
          then a else String.append a "/"%string).
  intros p Hp. unfold path_join.
  destruct (String.eqb a ""%string || endswith a "/"%string).
  - destruct p as [|c t]; [reflexivity|].
    destruct c as [[] [] [] [] [] [] [] []]; try reflexivity.
    exfalso. now apply (Hp t).
  - rewrite append_assoc. cbn [String.append].
    destruct p as [|c t]; [reflexivity|].
    destruct c as [[] [] [] [] [] [] [] []]; try reflexivity.
    exfalso. now apply (Hp t).
Qed.

Lemma names_sorted_filter (keep : String.string -> bool)
    (l : list String.string) :
  names_sorted l -> names_sorted (filter keep l).
Proof.
  unfold names_sorted.
  induction 1 as [|f l Hl IH Hf]; cbn [filter]; [constructor|].
  destruct (keep f); [|assumption].
  constructor; [assumption|].
  rewrite Forall_forall in *. intros g Hg. apply Hf.
  now apply filter_In in Hg.
Qed.

(** X17. When no listed name starts with a slash, as is the case of the
    names that [os.listdir] returns, the paths that [list_images] returns
    are in ascending order: sorting the names before the folder is put in
    front of them sorts the paths. *)
Theorem list_images_ascending (folder : String.string)
    (listing : list String.string) :
  Forall (fun f => forall t, f <> String.String "/"%char t) listing ->
  names_sorted (list_images folder listing).
Proof.
  intros Hl. unfold list_images.
  destruct (path_join_prefix folder) as [prefix Hjoin].
  assert (Hs : names_sorted (filter has_image_ext (py_sorted listing))).
  { apply names_sorted_filter, py_sorted_sorted. }
  assert (Hin : Forall (fun f => forall t, f <> String.String "/"%char t)
                  (filter has_image_ext (py_sorted listing))).
  { rewrite Forall_forall in *. intros f Hf. apply Hl.
    apply filter_In in Hf.
    eapply Permutation_in; [apply py_sorted_perm|apply Hf]. }
  unfold names_sorted in *.
  induction Hs as [|f l Hsl IH Hf]; cbn [map]; [constructor|].
  inversion Hin as [|? ? Hf0 Hl0]; subst.
  constructor; [now apply IH|].
  rewrite Forall_forall in *. intros q Hq.
  apply in_map_iff in Hq. destruct Hq as (g & <- & Hg).
  rewrite (Hjoin f Hf0), (Hjoin g (Hl0 g Hg)), string_leb_append.
  now apply Hf.
Qed.

Lemma list_images_ascending_witness :
  names_sorted (list_images "in"%string ["b.PNG"; "a.txt"; "A.bmp"]%string).
Proof.
  apply (list_images_ascending "in"%string
           ["b.PNG"; "a.txt"; "A.bmp"]%string).
  repeat constructor; discriminate.
Defined.
